(** * assist: readiness evaluation and method/transaction delegation

    A shallow embedding of [src/js/index.js] (library version 0.4.1): the
    entry points [init], [onboard], [Contract], [Transaction] and
    [getState], written in a state-and-exception monad over an explicit
    world (Environment State, object heap, promise table, suspended
    asynchronous continuations and a trace of every observable call), and
    the properties of the specification proved or refuted on it. *)

From stdpp Require Import base numbers list strings.

Open Scope string_scope.
Open Scope list_scope.
Set Warnings "-register-all".

(** ** JavaScript values *)

(** One entry of a contract ABI: [name] is absent on constructor and
    fallback entries; [inputs] is the ordered parameter list. *)
Record ABIEntry := {
  abi_name : option string;
  abi_inputs : list string
}.

(** The values the adapter handles. Objects and functions live in the heap
    and are referred to by location, so that two references to one object
    are equal values; a promise is referred to by its index in the promise
    table. An [Error] carries its message and the [eventCode] property the
    library attaches. An argument array, an ABI array and the nested method
    model ([abiModel], whose [abi.methods] maps each key to an object
    holding an [abiItem]) are kept as typed values; [VEnvState] is the
    Environment State object itself. *)
Inductive value :=
  | VUndef
  | VNull
  | VBool (b : bool)
  | VNum (n : Z)
  | VStr (s : string)
  | VErr (message : string) (code : option string)
  | VRef (l : nat)
  | VPromise (p : nat)
  | VArr (items : list value)
  | VAbi (entries : list ABIEntry)
  | VAbiModel (methods : list (string * ABIEntry))
  | VEnvState.

(** JavaScript truthiness ([!x], [x && y], [x || y], [if (x)]). *)
Definition truthy (v : value) : bool :=
  match v with
  | VUndef | VNull => false
  | VBool b => b
  | VNum n => negb (n =? 0)%Z
  | VStr s => negb (String.eqb s "")
  | VErr _ _ | VRef _ | VPromise _ | VArr _ | VAbi _ | VAbiModel _
  | VEnvState => true
  end.

(** [new Error(message)] followed by [error.eventCode = code]. *)
Definition tagged_error (message code : string) : value :=
  VErr message (Some code).

Definition TypeError (message : string) : value := VErr message None.

(** The [eventCode] property of a value ([undefined] when it has none). *)
Definition eventCode_of (v : value) : option string :=
  match v with
  | VErr _ c => c
  | _ => None
  end.

(** ** Configuration and Environment State *)

(** The caller-supplied configuration object; a missing property reads as
    [VUndef]. *)
Record Config := {
  web3 : value;
  dappId : value;
  mobileBlocked : value;
  headlessMode : value
}.

(** The process-wide state record of [helpers/state]. The capability flags
    are only ever tested for truthiness, so they are kept as booleans. *)
Record State := {
  version : option string;
  config : option Config;
  validApiKey : bool;
  supportedNetwork : bool;
  mobileDevice : bool;
  validBrowser : bool;
  web3Wallet : bool;
  accessToAccounts : bool;
  legacyWallet : bool;
  modernWallet : bool;
  walletLoggedIn : bool;
  walletEnabled : bool;
  correctNetwork : bool;
  minimumBalance : bool;
  legacyWeb3 : bool;
  modernWeb3 : bool;
  web3Instance : value;
  iframe : bool
}.

(** The partial objects the entry points pass to [updateState]. *)
Definition with_version (v : string) (s : State) : State :=
  {| version := Some v; config := config s; validApiKey := validApiKey s;
     supportedNetwork := supportedNetwork s; mobileDevice := mobileDevice s;
     validBrowser := validBrowser s; web3Wallet := web3Wallet s;
     accessToAccounts := accessToAccounts s; legacyWallet := legacyWallet s;
     modernWallet := modernWallet s; walletLoggedIn := walletLoggedIn s;
     walletEnabled := walletEnabled s; correctNetwork := correctNetwork s;
     minimumBalance := minimumBalance s; legacyWeb3 := legacyWeb3 s;
     modernWeb3 := modernWeb3 s; web3Instance := web3Instance s;
     iframe := iframe s |}.

Definition with_config (c : Config) (s : State) : State :=
  {| version := version s; config := Some c; validApiKey := validApiKey s;
     supportedNetwork := supportedNetwork s; mobileDevice := mobileDevice s;
     validBrowser := validBrowser s; web3Wallet := web3Wallet s;
     accessToAccounts := accessToAccounts s; legacyWallet := legacyWallet s;
     modernWallet := modernWallet s; walletLoggedIn := walletLoggedIn s;
     walletEnabled := walletEnabled s; correctNetwork := correctNetwork s;
     minimumBalance := minimumBalance s; legacyWeb3 := legacyWeb3 s;
     modernWeb3 := modernWeb3 s; web3Instance := web3Instance s;
     iframe := iframe s |}.

Definition with_validApiKey (b : bool) (s : State) : State :=
  {| version := version s; config := config s; validApiKey := b;
     supportedNetwork := supportedNetwork s; mobileDevice := mobileDevice s;
     validBrowser := validBrowser s; web3Wallet := web3Wallet s;
     accessToAccounts := accessToAccounts s; legacyWallet := legacyWallet s;
     modernWallet := modernWallet s; walletLoggedIn := walletLoggedIn s;
     walletEnabled := walletEnabled s; correctNetwork := correctNetwork s;
     minimumBalance := minimumBalance s; legacyWeb3 := legacyWeb3 s;
     modernWeb3 := modernWeb3 s; web3Instance := web3Instance s;
     iframe := iframe s |}.

Definition with_validBrowser (b : bool) (s : State) : State :=
  {| version := version s; config := config s; validApiKey := validApiKey s;
     supportedNetwork := supportedNetwork s; mobileDevice := mobileDevice s;
     validBrowser := b; web3Wallet := web3Wallet s;
     accessToAccounts := accessToAccounts s; legacyWallet := legacyWallet s;
     modernWallet := modernWallet s; walletLoggedIn := walletLoggedIn s;
     walletEnabled := walletEnabled s; correctNetwork := correctNetwork s;
     minimumBalance := minimumBalance s; legacyWeb3 := legacyWeb3 s;
     modernWeb3 := modernWeb3 s; web3Instance := web3Instance s;
     iframe := iframe s |}.

(** ** Events *)

(** The [state] payload of the [initState] event. *)
Record StateReport := {
  r_accessToAccounts : bool;
  r_correctNetwork : bool;
  r_legacyWallet : bool;
  r_legacyWeb3 : bool;
  r_minimumBalance : bool;
  r_mobileDevice : bool;
  r_modernWallet : bool;
  r_modernWeb3 : bool;
  r_walletEnabled : bool;
  r_walletLoggedIn : bool;
  r_web3Wallet : bool;
  r_validBrowser : bool
}.

(** The [contract] payload of the [contractQuery] event. *)
Record ContractReport := {
  methodName : option string;
  parameters : list value;
  result : value
}.

(** The event object handed to [handleEvent]. *)
Record Event := {
  eventCode : string;
  categoryCode : string;
  reason : option string;
  ev_state : option StateReport;
  ev_contract : option ContractReport
}.

Definition plain_event (code category : string) : Event :=
  {| eventCode := code; categoryCode := category; reason := None;
     ev_state := None; ev_contract := None |}.

(** ** Heap objects, closures and promises *)

(** The functions this file creates, as closures over what they capture,
    and [CExt] for a function supplied from outside (a provider primitive
    or a completion callback). *)
Inductive closure :=
  | CExt
  | CPromisified (fn : value)
  | COnClose (p : nat)
  | CLegacyFn (method : value) (methodABI : ABIEntry)
  | CLegacyCall (method : value) (methodABI : ABIEntry)
  | CLegacySend (method : value) (methodABI : ABIEntry)
  | CModernFn (method : value) (methodABI : ABIEntry)
  | COnboard
  | CContract (cfg : Config)
  | CTransaction
  | CGetState.

(** An object: its prototype, its own enumerable string-keyed properties in
    creation order, and its code when it is a function. *)
Record obj := {
  proto : value;
  props : list (string * value);
  code : option closure
}.

Inductive settle :=
  | Fulfilled (v : value)
  | Rejected (e : value).

Inductive pstate :=
  | Pending
  | Settled (s : settle).

(** An asynchronous function suspended at its [await]: what it needs to go
    on once the awaited collaborator settles. *)
Inductive Task :=
  | THeadless (p : nat)
  | TInteractive (p : nat)
  | TGetState (p : nat)
  | TInitState (p : nat)
  | TLegacyCall (p : nat) (callback : value) (methodABI : ABIEntry)
      (args : list value)
  | TLegacySend (p : nat) (callback : value)
  | TTransaction (p : nat) (callback : value).

(** The external collaborators of [index.js]. *)
Inductive Collab :=
  | openWebsocketConnection
  | configureWeb3
  | getUserAgent
  | createIframe
  | getTransactionQueueFromStorage
  | addUnloadListener
  | checkUserEnvironment
  | prepareForTransaction
  | sendTransaction
  | legacyMethod
  | modernMethod.

(** What an observer of the library sees, in order of occurrence. *)
Inductive Obs :=
  | OEvent (e : Event) (handlers : option value)
  | OCall (fn : nat) (args : list value)
  | OSettle (p : nat) (s : settle)
  | OCollab (c : Collab) (args : list value).

Record World := {
  state : State;
  window_web3 : bool;
  heap : list obj;
  promises : list pstate;
  tasks : list Task;
  trace : list Obs
}.

Definition set_state (s : State) (w : World) : World :=
  {| state := s; window_web3 := window_web3 w; heap := heap w;
     promises := promises w; tasks := tasks w; trace := trace w |}.

Definition set_heap (h : list obj) (w : World) : World :=
  {| state := state w; window_web3 := window_web3 w; heap := h;
     promises := promises w; tasks := tasks w; trace := trace w |}.

Definition set_promises (ps : list pstate) (w : World) : World :=
  {| state := state w; window_web3 := window_web3 w; heap := heap w;
     promises := ps; tasks := tasks w; trace := trace w |}.

Definition set_tasks (ts : list Task) (w : World) : World :=
  {| state := state w; window_web3 := window_web3 w; heap := heap w;
     promises := promises w; tasks := ts; trace := trace w |}.

Definition set_trace (t : list Obs) (w : World) : World :=
  {| state := state w; window_web3 := window_web3 w; heap := heap w;
     promises := promises w; tasks := tasks w; trace := t |}.

(** ** The monad: world passing with exceptions *)

Inductive Result (A : Type) :=
  | Ok (a : A)
  | Throw (e : value).
Arguments Ok {A} a.
Arguments Throw {A} e.

Definition M (A : Type) : Type := World -> Result A * World.

#[global] Instance M_ret : MRet M := fun A a w => (Ok a, w).

#[global] Instance M_bind : MBind M := fun A B f m w =>
  match m w with
  | (Ok a, w') => f a w'
  | (Throw e, w') => (Throw e, w')
  end.

#[global] Instance M_fmap : FMap M := fun A B f m w =>
  match m w with
  | (Ok a, w') => (Ok (f a), w')
  | (Throw e, w') => (Throw e, w')
  end.

#[global] Instance Result_ret : MRet Result := fun A a => Ok a.

#[global] Instance Result_bind : MBind Result := fun A B f r =>
  match r with
  | Ok a => f a
  | Throw e => Throw e
  end.

Definition throw {A} (e : value) : M A := fun w => (Throw e, w).

(** [try { c } catch (e) { h(e) }]. *)
Definition try_catch {A} (c : M A) (h : value -> M A) : M A := fun w =>
  match c w with
  | (Ok a, w') => (Ok a, w')
  | (Throw e, w') => h e w'
  end.

Definition gets {A} (f : World -> A) : M A := fun w => (Ok (f w), w).
Definition modify (f : World -> World) : M unit := fun w => (Ok tt, f w).
Definition lift {A} (r : Result A) : M A := fun w => (r, w).

Definition when (b : bool) (c : M unit) : M unit :=
  if b then c else mret tt.

Definition emit (o : Obs) : M unit :=
  modify (fun w => set_trace (trace w ++ [o]) w).

(** ** Primitives of the platform and of the helper modules *)

(** Modelled from the spec: [updateState] of [helpers/state], which is not
    among the sources; it merges the given fields into Environment State. *)
Definition updateState (patch : State -> State) : M unit :=
  modify (fun w => set_state (patch (state w)) w).

(** [handleEvent(event, handlers)]: the notification is the observable. *)
Definition handleEvent (e : Event) (handlers : option value) : M unit :=
  emit (OEvent e handlers).

Definition alloc (o : obj) : M value := fun w =>
  (Ok (VRef (length (heap w))), set_heap (heap w ++ [o]) w).

(** The built-in prototypes ([Object.prototype], [Function.prototype])
    carry nothing the library reads, so an object literal or a function has
    prototype [VNull] here. *)
Definition plain_object (ps : list (string * value)) : obj :=
  {| proto := VNull; props := ps; code := None |}.

Definition alloc_function (c : closure) : M value :=
  alloc {| proto := VNull; props := []; code := Some c |}.

(** [new Promise(...)]: a fresh pending promise. *)
Definition new_promise : M nat := fun w =>
  (Ok (length (promises w)), set_promises (promises w ++ [Pending]) w).

(** The [resolve] and [reject] capabilities: only the first call on a
    promise settles it, every later one is a no-op. *)
Definition settle_in (p : nat) (s : settle) (ps : list pstate)
  : list pstate :=
  match ps !! p with
  | Some Pending => <[p := Settled s]> ps
  | _ => ps
  end.

Definition settle_promise (p : nat) (s : settle) : M unit :=
  emit (OSettle p s);;
  modify (fun w => set_promises (settle_in p s (promises w)) w).

Definition resolve (p : nat) (v : value) : M unit :=
  settle_promise p (Fulfilled v).

Definition reject (p : nat) (e : value) : M unit :=
  settle_promise p (Rejected e).

(** [Promise.reject(e)]. *)
Definition Promise_reject (e : value) : M nat :=
  p ← new_promise; reject p e;; mret p.

Definition suspend (t : Task) : M unit :=
  modify (fun w => set_tasks (tasks w ++ [t]) w).

(** [await promise.catch(handler)] once the awaited promise has settled:
    a fulfilment value passes through, a rejection runs the handler and
    yields what the handler returns. *)
Definition await_catch (outcome : settle) (handler : value -> M value)
  : M value :=
  match outcome with
  | Fulfilled v => mret v
  | Rejected e => handler e
  end.

Definition read_config : M Config :=
  s ← gets state;
  match config s with
  | Some c => mret c
  | None => throw (TypeError "Cannot read property of undefined")
  end.

(** ** [onboard] *)

(** The body of the headless executor up to its [await]. *)
Definition onboard_headless : M nat :=
  p ← new_promise;
  emit (OCollab checkUserEnvironment []);;
  suspend (THeadless p);;
  mret p.

(** The headless executor from its [await] on. *)
Definition onboard_headless_resume (p : nat) (outcome : settle) : M unit :=
  await_catch outcome (fun e => reject p e;; mret VUndef);;
  s ← gets state;
  when (mobileDevice s)
    (reject p (tagged_error "User is on a mobile device" "mobileBlocked"));;
  s ← gets state;
  when (negb (validBrowser s))
    (reject p (tagged_error "User has an invalid browser" "browserFail"));;
  s ← gets state;
  when (negb (web3Wallet s))
    (reject p (tagged_error "User does not have a web3 wallet installed"
                 "walletFail"));;
  s ← gets state;
  when (negb (accessToAccounts s))
    (s ← gets state;
     when (legacyWallet s)
       (reject p (tagged_error "User needs to login to their account"
                    "walletLogin"));;
     s ← gets state;
     when (modernWallet s)
       (s ← gets state;
        when (negb (walletLoggedIn s))
          (reject p (tagged_error "User needs to login to wallet"
                       "walletLoginEnable"));;
        s ← gets state;
        when (negb (walletEnabled s))
          (reject p (tagged_error "User needs to enable wallet"
                       "walletEnable"))));;
  s ← gets state;
  when (negb (correctNetwork s))
    (reject p (tagged_error "User is on the wrong network" "networkFail"));;
  s ← gets state;
  when (negb (minimumBalance s))
    (reject p (tagged_error
       "User does not have the minimum balance specified in the config"
       "nsfFail"));;
  resolve p (VStr "User is ready to transact").

Definition onboard_interactive_resume (p : nat) (outcome : settle) : M unit :=
  ready ← await_catch outcome (fun e => reject p e;; mret VUndef);
  resolve p ready.

Definition onboard : M nat :=
  cfg ← read_config;
  if truthy (headlessMode cfg) then onboard_headless
  else
    s ← gets state;
    if negb (validApiKey s) then
      Promise_reject (tagged_error "Your api key is not valid" "initFail")
    else
    s ← gets state;
    if negb (supportedNetwork s) then
      Promise_reject (tagged_error "This network is not supported" "initFail")
    else
    s ← gets state;
    if mobileDevice s then
      p ← new_promise;
      onClose ← alloc_function (COnClose p);
      handlers ← alloc (plain_object [("onClose", onClose)]);
      handleEvent (plain_event "mobileBlocked" "onboard") (Some handlers);;
      updateState (with_validBrowser false);;
      mret p
    else
      p ← new_promise;
      emit (OCollab prepareForTransaction [VStr "onboard"]);;
      suspend (TInteractive p);;
      mret p.

(** [getState]: its executor up to the [await], and from there on. *)
Definition getState : M nat :=
  p ← new_promise;
  emit (OCollab checkUserEnvironment []);;
  suspend (TGetState p);;
  mret p.

Definition getState_resume (p : nat) (outcome : settle) : M unit :=
  await_catch outcome (fun e => reject p e;; mret VUndef);;
  resolve p VEnvState.

(** ** Property access *)

Fixpoint assoc (k : string) (ps : list (string * value)) : option value :=
  match ps with
  | [] => None
  | (k', v) :: rest => if String.eqb k' k then Some v else assoc k rest
  end.

(** [target[k] = v] on the own properties: an existing key keeps its
    position, a new one is appended. *)
Fixpoint assoc_set (k : string) (v : value) (ps : list (string * value))
  : list (string * value) :=
  match ps with
  | [] => [(k, v)]
  | (k', v') :: rest =>
      if String.eqb k' k then (k, v) :: rest
      else (k', v') :: assoc_set k v rest
  end.

(** The property [k] of the object at [v], searched along the prototype
    chain; [fuel] bounds the walk by the size of the heap. *)
Fixpoint lookup_chain (fuel : nat) (h : list obj) (v : value) (k : string)
  : value :=
  match fuel with
  | 0 => VUndef
  | S fuel' =>
      match v with
      | VRef l =>
          match h !! l with
          | Some o =>
              match assoc k (props o) with
              | Some x => x
              | None => lookup_chain fuel' h (proto o) k
              end
          | None => VUndef
          end
      | _ => VUndef
      end
  end.

(** [v[k]] and [v.k] on a given heap: reading a property of [undefined] or
    [null] throws, a value that is no heap object has no property the
    library reads. *)
Definition read (h : list obj) (v : value) (k : string) : Result value :=
  match v with
  | VUndef | VNull =>
      Throw (TypeError ("Cannot read property '" +:+ k +:+ "' of undefined"))
  | _ => Ok (lookup_chain (S (length h)) h v k)
  end.

(** An expression that only reads the heap. *)
Definition reads {A} (f : list obj -> Result A) : M A :=
  fun w => (f (heap w), w).

Definition get_member (v : value) (k : string) : M value :=
  reads (fun h => read h v k).

Definition with_prop (k : string) (v : value) (o : obj) : obj :=
  {| proto := proto o; props := assoc_set k v (props o); code := code o |}.

(** [target[k] = v]. *)
Definition set_member (target : value) (k : string) (v : value) : M unit :=
  match target with
  | VRef l =>
      modify (fun w => set_heap (alter (with_prop k v) l (heap w)) w)
  | _ => throw (TypeError ("Cannot set property '" +:+ k +:+ "'"))
  end.

(** [Object.keys(v)]. *)
Definition own_keys (v : value) : M (list string) :=
  match v with
  | VRef l =>
      h ← gets heap;
      mret (match h !! l with Some o => (props o).*1 | None => [] end)
  | VUndef | VNull =>
      throw (TypeError "Cannot convert undefined or null to object")
  | _ => mret []
  end.

(** [Object.getPrototypeOf(v)]. *)
Definition getPrototypeOf (v : value) : M value :=
  match v with
  | VRef l =>
      h ← gets heap;
      mret (match h !! l with Some o => proto o | None => VNull end)
  | VUndef | VNull =>
      throw (TypeError "Cannot convert undefined or null to object")
  | _ => mret VNull
  end.

(** The heap location of a callable value; calling anything else throws. *)
Definition callee (fn : value) : M nat :=
  match fn with
  | VRef l =>
      h ← gets heap;
      match h !! l with
      | Some {| code := Some _ |} => mret l
      | _ => throw (TypeError "not a function")
      end
  | _ => throw (TypeError "not a function")
  end.

(** bluebird's [promisify(fn)]. *)
Definition promisify (fn : value) : M value :=
  callee fn;;
  alloc_function (CPromisified fn).

(** A property name as a key: [obj[undefined]] reads the key
    ["undefined"]. *)
Definition key_of (name : option string) : string :=
  match name with
  | Some n => n
  | None => "undefined"
  end.

Definition name_value (name : option string) : value :=
  match name with
  | Some n => VStr n
  | None => VUndef
  end.

Fixpoint for_each {A} (l : list A) (f : A -> M unit) : M unit :=
  match l with
  | [] => mret tt
  | x :: rest => f x;; for_each rest f
  end.

(** ** The external collaborators *)

(** What [separateArgs] returns. *)
Record SplitArgs := {
  sp_callback : value;
  sp_args : list value;
  sp_txObject : value;
  sp_defaultBlock : value
}.

(** The behaviour of what lies outside [index.js]: the effect of each
    synchronous collaborator on Environment State, the values external
    functions and the invocation primitives return, the argument splitter
    and the platform's [JSON.stringify]. *)
Record Externals := {
  state_effect : Collab -> list value -> State -> State;
  fun_result : nat -> list value -> Result value;
  collab_result : Collab -> list value -> Result value;
  split : list value -> nat -> SplitArgs;
  JSON_stringify : value -> value
}.

Section Library.

Context (env : Externals).

(** A call of a synchronous collaborator. *)
Definition call_collab (c : Collab) (args : list value) : M unit :=
  emit (OCollab c args);;
  modify (fun w => set_state (state_effect env c args (state w)) w).

(** A call of a collaborator for its value. *)
Definition call_collab_value (c : Collab) (args : list value) : M value :=
  emit (OCollab c args);;
  lift (collab_result env c args).

(** A call the library makes to a function value it was handed (a
    completion callback, a provider primitive): the call is recorded and
    yields what the callee returns or throws. The callee is not re-entered,
    also when it is one of the library's own closures. *)
Definition call_function (fn : value) (args : list value) : M value :=
  l ← callee fn;
  emit (OCall l args);;
  lift (fun_result env l args).

(** [fn && fn(...args)]. *)
Definition and_call (fn : value) (args : list value) : M value :=
  if truthy fn then call_function fn args else mret fn.

(** ** [Contract] *)

(** [method => method.name === key]. *)
Definition names_key (key : string) (method : ABIEntry) : bool :=
  match abi_name method with
  | Some n => String.eqb n key
  | None => false
  end.

(** [abi.find(method => method.name === key)]. *)
Definition abi_find (abi : value) (key : string) : M (option ABIEntry) :=
  match abi with
  | VAbi entries => mret (find (names_key key) entries)
  | _ => throw (TypeError "abi.find is not a function")
  end.

(** [contractObj.abi || contractObj._jsonInterface ||
     Object.keys(contractObj.abiModel.abi.methods).map(key => ....abiItem)],
    an expression that only reads the heap. *)
Definition resolve_abi (contractObj : value) (h : list obj) : Result value :=
  a ← read h contractObj "abi";
  if truthy a then Ok a else
  j ← read h contractObj "_jsonInterface";
  if truthy j then Ok j else
  m ← read h contractObj "abiModel";
  match m with
  | VAbiModel methods =>
      Ok (VAbi (omap (fun key => snd <$> find (fun e => String.eqb e.1 key)
                                           methods) methods.*1))
  | _ => Throw (TypeError "Cannot read property 'abi' of undefined")
  end.

(** The reducer body on the legacy path (lines 269-328). *)
Definition legacy_key (contractObj abi newContractObj : value) (key : string)
  : M unit :=
  found ← abi_find abi key;
  match found with
  | None =>
      v ← get_member contractObj key;
      set_member newContractObj key v
  | Some methodABI =>
      let name := key_of (abi_name methodABI) in
      method ← get_member contractObj key;
      f ← alloc_function (CLegacyFn method methodABI);
      set_member newContractObj name f;;
      target ← get_member newContractObj name;
      call ← alloc_function (CLegacyCall method methodABI);
      set_member target "call" call;;
      target ← get_member newContractObj name;
      send ← alloc_function (CLegacySend method methodABI);
      set_member target "sendTransaction" send;;
      target ← get_member newContractObj name;
      original ← get_member contractObj name;
      getData ← get_member original "getData";
      set_member target "getData" getData
  end.

(** The reducer body of [abi.reduce] on the modern path (lines 333-339). *)
Definition method_entry (contractObj obj : value) (methodABI : ABIEntry)
  : M unit :=
  let name := key_of (abi_name methodABI) in
  methods ← get_member contractObj "methods";
  method ← get_member methods name;
  f ← alloc_function (CModernFn method methodABI);
  set_member obj name f.

(** The reducer body on the modern path (lines 330-340). *)
Definition modern_key (contractObj abi newContractObj : value) (key : string)
  : M unit :=
  if negb (String.eqb key "methods") then
    v ← get_member contractObj key;
    set_member newContractObj key v
  else
    match abi with
    | VAbi entries =>
        obj ← alloc (plain_object []);
        for_each entries (method_entry contractObj obj);;
        set_member newContractObj "methods" obj
    | _ => throw (TypeError "abi.reduce is not a function")
    end.

(** The reducer [Contract] runs over the own keys of the descriptor. *)
Definition key_reducer (legacy : bool)
  (contractObj abi newContractObj : value) (key : string) : M unit :=
  if legacy then legacy_key contractObj abi newContractObj key
  else modern_key contractObj abi newContractObj key.

Definition Contract (cfg : Config) (contractObj : value) : M value :=
  s ← gets state;
  if negb (validApiKey s) then
    throw (tagged_error "Your API key is not valid" "initFail")
  else
  s ← gets state;
  if negb (supportedNetwork s) then
    throw (tagged_error "This network is not supported" "initFail")
  else
  s ← gets state;
  if mobileDevice s && negb (truthy (mobileBlocked cfg)) then
    mret contractObj
  else
  s ← gets state;
  when (negb (truthy (web3Instance s)))
    (has_web3 ← gets window_web3;
     if (has_web3 : bool) then call_collab configureWeb3 []
     else throw (tagged_error
                   "A web3 instance is needed to decorate contract"
                   "initFail"));;
  s ← gets state;
  let legacy := legacyWeb3 s in
  abi ← reads (resolve_abi contractObj);
  prototype ← getPrototypeOf contractObj;
  contractClone ← alloc {| proto := prototype; props := []; code := None |};
  contractKeys ← own_keys contractObj;
  for_each contractKeys (key_reducer legacy contractObj abi contractClone);;
  mret contractClone.

(** *** The functions [Contract] installs on the legacy path *)

(** An asynchronous function: its body runs up to the [await]; an exception
    on the way rejects the promise the function returns. *)
Definition async (body : nat -> M unit) : M nat :=
  p ← new_promise;
  try_catch (body p) (fun e => reject p e);;
  mret p.

(** [newContractObj[name].call], up to its [await]: the promisified
    read-only primitive is called with [(...args, txObject, defaultBlock)]
    and settles later. *)
Definition legacy_call (method : value) (methodABI : ABIEntry)
  (allArgs : list value) : M nat :=
  async (fun p =>
    let sp := split env allArgs (length (abi_inputs methodABI)) in
    primitive ← get_member method "call";
    promisified ← promisify primitive;
    l ← callee primitive;
    emit (OCall l (sp_args sp ++ [sp_txObject sp; sp_defaultBlock sp]));;
    suspend (TLegacyCall p (sp_callback sp) methodABI (sp_args sp))).

(** [newContractObj[name].call], from its [await] on (lines 287-305). *)
Definition legacy_call_resume (p : nat) (callback : value)
  (methodABI : ABIEntry) (args : list value) (outcome : settle) : M unit :=
  try_catch
    (result ← await_catch outcome
               (fun errorObj => and_call callback [errorObj]);
     when (truthy result) (and_call callback [VNull; result];; mret tt);;
     handleEvent
       {| eventCode := "contractQuery";
          categoryCode := "activeContract";
          reason := None;
          ev_state := None;
          ev_contract := Some {| methodName := abi_name methodABI;
                                 parameters := args;
                                 result := JSON_stringify env result |} |}
       None;;
     resolve p VUndef)
    (fun e => reject p e).

(** [newContractObj[name].sendTransaction], up to its [await]. *)
Definition legacy_send (method : value) (methodABI : ABIEntry)
  (allArgs : list value) : M nat :=
  async (fun p =>
    let sp := split env allArgs (length (abi_inputs methodABI)) in
    primitive ← get_member method "sendTransaction";
    promisified ← promisify primitive;
    context ← alloc (plain_object
                       [("methodName", name_value (abi_name methodABI));
                        ("parameters", VArr (sp_args sp))]);
    emit (OCollab sendTransaction
            [VStr "activeContract"; sp_txObject sp; promisified;
             sp_callback sp; method; context]);;
    suspend (TLegacySend p (sp_callback sp))).

Definition legacy_send_resume (p : nat) (callback : value)
  (outcome : settle) : M unit :=
  try_catch
    (await_catch outcome (fun errorObj => and_call callback [errorObj]);;
     resolve p VUndef)
    (fun e => reject p e).

(** ** [Transaction] *)

(** [state.web3Instance.eth.sendTransaction]. *)
Definition eth_sendTransaction : M value :=
  s ← gets state;
  eth ← get_member (web3Instance s) "eth";
  get_member eth "sendTransaction".

Definition Transaction (txObject callback : value) : M value :=
  s ← gets state;
  if negb (validApiKey s) then
    VPromise <$> Promise_reject
                   (tagged_error "Your api key is not valid" "initFail")
  else
  s ← gets state;
  if negb (supportedNetwork s) then
    VPromise <$> Promise_reject
                   (tagged_error "This network is not supported" "initFail")
  else
  s ← gets state;
  when (negb (truthy (web3Instance s))) (call_collab configureWeb3 []);;
  s ← gets state;
  fast ← (if mobileDevice s then
            cfg ← read_config; mret (negb (truthy (mobileBlocked cfg)))
          else mret false);
  if (fast : bool) then
    send ← eth_sendTransaction;
    call_function send [txObject]
  else
    s ← gets state;
    sendMethod ← (if legacyWeb3 s then
                    send ← eth_sendTransaction; promisify send
                  else eth_sendTransaction);
    p ← new_promise;
    emit (OCollab sendTransaction
            [VStr "activeTransaction"; txObject; sendMethod; callback]);;
    suspend (TTransaction p callback);;
    mret (VPromise p).

(** The executor of [Transaction] from its [await] on (lines 379-388). An
    exception escaping it rejects only the executor's own promise, which
    nobody holds. *)
Definition Transaction_resume (p : nat) (callback : value)
  (outcome : settle) : M unit :=
  try_catch
    (txPromiseObj ← await_catch outcome
                      (fun errorObj =>
                         reject p errorObj;;
                         and_call callback [errorObj];;
                         mret VUndef);
     resolve p txPromiseObj)
    (fun _ => mret tt).

(** ** [init] *)

Definition library_version : string := "0.4.1".

Definition report (s : State) : StateReport :=
  {| r_accessToAccounts := accessToAccounts s;
     r_correctNetwork := correctNetwork s;
     r_legacyWallet := legacyWallet s;
     r_legacyWeb3 := legacyWeb3 s;
     r_minimumBalance := minimumBalance s;
     r_mobileDevice := mobileDevice s;
     r_modernWallet := modernWallet s;
     r_modernWeb3 := modernWeb3 s;
     r_walletEnabled := walletEnabled s;
     r_walletLoggedIn := walletLoggedIn s;
     r_web3Wallet := web3Wallet s;
     r_validBrowser := validBrowser s |}.

(** Whether an object is the function of the declaration [getState]. *)
Definition is_getState (o : obj) : bool :=
  match code o with
  | Some CGetState => true
  | _ => false
  end.

(** The place of the first object of a heap that passes a test. *)
Fixpoint position (P : obj -> bool) (h : list obj) : option nat :=
  match h with
  | [] => None
  | o :: h' => if P o then Some 0 else S <$> position P h'
  end.

(** [getState] is declared at module level (lines 395-400), not inside
    [init]: the module has one such function object, and every [init] puts
    that one into the object it returns. [init] is all the module exports,
    so nothing can reach the function before the first [init] has returned;
    the function is therefore put on the heap when it is first asked for,
    and found there ever after. *)
Definition module_getState : M value :=
  h ← gets heap;
  match position is_getState h with
  | Some l => mret (VRef l)
  | None => alloc_function CGetState
  end.

(** The argument of [init]: [None] stands for one that is missing or is not
    an object. [onboard], [Contract] and [Transaction] are declared inside
    [init], so each call makes them anew; [getState] is the function of the
    module. *)
Definition init (config : option Config) : M value :=
  updateState (with_version library_version);;
  call_collab openWebsocketConnection [];;
  match config with
  | None =>
      let reason := "A config object is needed to initialize assist" in
      handleEvent {| eventCode := "initFail"; categoryCode := "initialize";
                     reason := Some reason; ev_state := None;
                     ev_contract := None |} None;;
      throw (tagged_error reason "initFail")
  | Some config =>
      updateState (with_config config);;
      if negb (truthy (dappId config)) then
        handleEvent {| eventCode := "initFail";
                       categoryCode := "initialize";
                       reason := Some "No API key provided to init function";
                       ev_state := None; ev_contract := None |} None;;
        updateState (with_validApiKey false);;
        throw (tagged_error "API key is required" "initFail")
      else
        when (truthy (web3 config))
          (call_collab configureWeb3 [web3 config]);;
        call_collab getUserAgent [];;
        s ← gets state;
        when (negb (iframe s) && negb (truthy (headlessMode config)))
          (call_collab createIframe []);;
        s ← gets state;
        when (mobileDevice s && truthy (mobileBlocked config))
          (handleEvent (plain_event "mobileBlocked" "initialize") None;;
           updateState (with_validBrowser false));;
        call_collab getTransactionQueueFromStorage [];;
        call_collab addUnloadListener [];;
        f_onboard ← alloc_function COnboard;
        f_Contract ← alloc_function (CContract config);
        f_Transaction ← alloc_function CTransaction;
        f_getState ← module_getState;
        intializedAssist ← alloc (plain_object
                            [("onboard", f_onboard);
                             ("Contract", f_Contract);
                             ("Transaction", f_Transaction);
                             ("getState", f_getState)]);
        p ← getState;
        suspend (TInitState p);;
        mret intializedAssist
  end.

(** The [then] callback [init] puts on the promise of [getState]. *)
Definition initState_reaction (outcome : settle) : M unit :=
  match outcome with
  | Fulfilled _ =>
      s ← gets state;
      handleEvent {| eventCode := "initState"; categoryCode := "initialize";
                     reason := None; ev_state := Some (report s);
                     ev_contract := None |} None
  | Rejected _ => mret tt
  end.

(** ** Running the library *)

(** A suspended continuation goes on with the settlement of what it
    awaits. *)
Definition resume (t : Task) (outcome : settle) : M unit :=
  match t with
  | THeadless p => onboard_headless_resume p outcome
  | TInteractive p => onboard_interactive_resume p outcome
  | TGetState p => getState_resume p outcome
  | TInitState _ => initState_reaction outcome
  | TLegacyCall p callback methodABI args =>
      legacy_call_resume p callback methodABI args outcome
  | TLegacySend p callback => legacy_send_resume p callback outcome
  | TTransaction p callback => Transaction_resume p callback outcome
  end.

(** The awaited collaborator of the [i]-th suspended continuation settles:
    the continuation leaves the list and runs. *)
Definition deliver (i : nat) (outcome : settle) : M unit :=
  ts ← gets tasks;
  match ts !! i with
  | Some t =>
      modify (fun w => set_tasks (delete i (tasks w)) w);;
      resume t outcome
  | None => mret tt
  end.

Definition arg (i : nat) (args : list value) : value :=
  default VUndef (args !! i).

(** The application calls a function value: the body of the closure runs. *)
Definition call (fn : value) (args : list value) : M value :=
  l ← callee fn;
  h ← gets heap;
  match h !! l ≫= code with
  | Some CExt => emit (OCall l args);; lift (fun_result env l args)
  | Some (CPromisified primitive) =>
      target ← callee primitive;
      emit (OCall target args);;
      VPromise <$> new_promise
  | Some (COnClose p) =>
      reject p (tagged_error "User is on a mobile device" "mobileBlocked");;
      mret VUndef
  | Some (CLegacyFn method methodABI) =>
      call_collab_value legacyMethod [method; VAbi [methodABI]; VArr args]
  | Some (CLegacyCall method methodABI) =>
      VPromise <$> legacy_call method methodABI args
  | Some (CLegacySend method methodABI) =>
      VPromise <$> legacy_send method methodABI args
  | Some (CModernFn method methodABI) =>
      call_collab_value modernMethod [method; VAbi [methodABI]; VArr args]
  | Some COnboard => VPromise <$> onboard
  | Some (CContract cfg) => Contract cfg (arg 0 args)
  | Some CTransaction => Transaction (arg 0 args) (arg 1 args)
  | Some CGetState => VPromise <$> getState
  | None => throw (TypeError "not a function")
  end.

End Library.

(** * Notions used to state the properties *)

(** ** Promises *)

(** The world after the capabilities of promise [p] were called with the
    settlements [l], in that order. *)
Definition run_settles (p : nat) (l : list settle) (w : World) : World :=
  set_promises (foldl (fun ps s => settle_in p s ps) (promises w) l)
    (set_trace (trace w ++ (OSettle p <$> l)) w).

Definition promise_state (p : nat) (w : World) : option pstate :=
  promises w !! p.

(** The tag of the failure a promise was rejected with. *)
Definition reported_tag (p : nat) (w : World) : option string :=
  match promise_state p w with
  | Some (Settled (Rejected e)) => eventCode_of e
  | _ => None
  end.

(** ** The headless readiness flow *)

Definition ready_value : value := VStr "User is ready to transact".

(** The rejections the six checks issue on a given Environment State, in
    the order of the source. *)
Definition readiness_failures (s : State) : list value :=
  (if mobileDevice s
   then [tagged_error "User is on a mobile device" "mobileBlocked"]
   else []) ++
  (if validBrowser s then []
   else [tagged_error "User has an invalid browser" "browserFail"]) ++
  (if web3Wallet s then []
   else [tagged_error "User does not have a web3 wallet installed"
           "walletFail"]) ++
  (if accessToAccounts s then []
   else
     (if legacyWallet s
      then [tagged_error "User needs to login to their account"
              "walletLogin"]
      else []) ++
     (if modernWallet s
      then
        (if walletLoggedIn s then []
         else [tagged_error "User needs to login to wallet"
                 "walletLoginEnable"]) ++
        (if walletEnabled s then []
         else [tagged_error "User needs to enable wallet" "walletEnable"])
      else [])) ++
  (if correctNetwork s then []
   else [tagged_error "User is on the wrong network" "networkFail"]) ++
  (if minimumBalance s then []
   else [tagged_error
           "User does not have the minimum balance specified in the config"
           "nsfFail"]).

(** Every call the headless executor makes on its promise once the
    environment check has settled. *)
Definition headless_settles (outcome : settle) (s : State) : list settle :=
  match outcome with
  | Fulfilled _ => []
  | Rejected e => [Rejected e]
  end ++ (Rejected <$> readiness_failures s) ++ [Fulfilled ready_value].

Definition modern_failures (s : State) : list settle :=
  (if negb (walletLoggedIn s)
   then [Rejected (tagged_error "User needs to login to wallet"
                     "walletLoginEnable")]
   else []) ++
  (if negb (walletEnabled s)
   then [Rejected (tagged_error "User needs to enable wallet"
                     "walletEnable")]
   else []).

Definition account_failures (s : State) : list settle :=
  (if legacyWallet s
   then [Rejected (tagged_error "User needs to login to their account"
                     "walletLogin")]
   else []) ++
  (if modernWallet s then modern_failures s else []).

(** The six ordered checks of the readiness evaluator as section 4.1 of the
    specification lists them, by position: the tag check [i] reports on an
    Environment State where it fails, [None] where it passes. The fourth
    check fails when there is no account access and the wallet is legacy
    ([walletLogin]), or modern and not logged in ([walletLoginEnable]), or
    modern and not enabled ([walletEnable]). It is what the executor
    translated from the source is compared with. *)
Definition spec_check_tag (i : nat) (s : State) : option string :=
  match i with
  | 1 => if mobileDevice s then Some "mobileBlocked" else None
  | 2 => if validBrowser s then None else Some "browserFail"
  | 3 => if web3Wallet s then None else Some "walletFail"
  | 4 =>
      if accessToAccounts s then None
      else if legacyWallet s then Some "walletLogin"
      else if modernWallet s then
        if negb (walletLoggedIn s) then Some "walletLoginEnable"
        else if negb (walletEnabled s) then Some "walletEnable"
        else None
      else None
  | 5 => if correctNetwork s then None else Some "networkFail"
  | 6 => if minimumBalance s then None else Some "nsfFail"
  | _ => None
  end.

(** The world in which the headless executor goes on: the promise of
    [onboard] is allocated and pending, the environment check was called,
    and Environment State is what the detectors made of it. *)
Definition at_resumption (w : World) (s : State) : World :=
  {| state := s; window_web3 := window_web3 w; heap := heap w;
     promises := promises w ++ [Pending]; tasks := tasks w;
     trace := trace w ++ [OCollab checkUserEnvironment []] |}.

(** A headless run: [onboard] is called in world [w]; by the time the
    environment check settles with [outcome], Environment State has become
    [s]; the suspended executor then goes on. The result is the promise
    [onboard] returned and the world at the end. *)
Definition headless_run (env : Externals) (w : World) (s : State)
  (outcome : settle) : Result nat * World :=
  match onboard w with
  | (Ok p, w1) =>
      (Ok p, (deliver env (length (tasks w)) outcome (set_state s w1)).2)
  | (Throw e, w1) => (Throw e, w1)
  end.

(** ** Concrete inputs *)

(** Modelled from the spec: [separateArgs] of [helpers/utilities], which is
    not among the sources. It splits the variadic arguments by position
    against the number of inputs of the method: the first [n] are the
    positional arguments; here, for calls that end with a completion
    callback and give neither transaction object nor default block. *)
Definition positional_split (allArgs : list value) (n : nat) : SplitArgs :=
  {| sp_callback := default VUndef (last (drop n allArgs));
     sp_args := take n allArgs;
     sp_txObject := VUndef;
     sp_defaultBlock := VUndef |}.

(** [JSON.stringify] as far as the concrete runs below need it: on [null]
    and the booleans. It stands for no more than that: a number or a
    string, which the built-in does serialize, is none of its cases, and no
    run below hands it one. [undefined] has no serialization. *)
Definition stringify_primitive (v : value) : value :=
  match v with
  | VNull => VStr "null"
  | VBool true => VStr "true"
  | VBool false => VStr "false"
  | _ => VUndef
  end.

(** Collaborators that leave Environment State alone, and outside functions
    that return [undefined]. *)
Definition quiet : Externals :=
  {| state_effect := fun _ _ s => s;
     fun_result := fun _ _ => Ok VUndef;
     collab_result := fun _ _ => Ok VUndef;
     split := positional_split;
     JSON_stringify := stringify_primitive |}.

Definition config_of (mobile_blocked headless : bool) : Config :=
  {| web3 := VUndef; dappId := VStr "api-key";
     mobileBlocked := VBool mobile_blocked; headlessMode := VBool headless |}.

(** A desktop environment in which every readiness check passes. *)
Definition ready_state (c : Config) : State :=
  {| version := Some library_version; config := Some c;
     validApiKey := true; supportedNetwork := true; mobileDevice := false;
     validBrowser := true; web3Wallet := true; accessToAccounts := true;
     legacyWallet := false; modernWallet := true; walletLoggedIn := true;
     walletEnabled := true; correctNetwork := true; minimumBalance := true;
     legacyWeb3 := false; modernWeb3 := true; web3Instance := VUndef;
     iframe := false |}.

Definition world_of (s : State) : World :=
  {| state := s; window_web3 := false; heap := []; promises := [];
     tasks := []; trace := [] |}.

(** The configuration object [{}]. *)
Definition empty_config : Config :=
  {| web3 := VUndef; dappId := VUndef; mobileBlocked := VUndef;
     headlessMode := VUndef |}.

(** Environment State before [init] ran. *)
Definition blank_state : State :=
  {| version := None; config := None;
     validApiKey := true; supportedNetwork := true; mobileDevice := false;
     validBrowser := true; web3Wallet := false; accessToAccounts := false;
     legacyWallet := false; modernWallet := false; walletLoggedIn := false;
     walletEnabled := false; correctNetwork := false;
     minimumBalance := false; legacyWeb3 := false; modernWeb3 := false;
     web3Instance := VUndef; iframe := false |}.

(** The notification [init] sends when no API key is given. *)
Definition missing_key_event : Event :=
  {| eventCode := "initFail"; categoryCode := "initialize";
     reason := Some "No API key provided to init function";
     ev_state := None; ev_contract := None |}.

(** A mobile device with an invalid browser and no wallet: the first three
    checks fail. *)
Definition three_failures : State :=
  {| version := Some library_version; config := Some (config_of false true);
     validApiKey := true; supportedNetwork := true; mobileDevice := true;
     validBrowser := false; web3Wallet := false; accessToAccounts := true;
     legacyWallet := false; modernWallet := false; walletLoggedIn := false;
     walletEnabled := false; correctNetwork := true; minimumBalance := true;
     legacyWeb3 := false; modernWeb3 := false; web3Instance := VUndef;
     iframe := false |}.

(** A mobile device on which every other check passes: the first check
    is the only one to fail. *)
Definition only_mobile : State :=
  {| version := Some library_version; config := Some (config_of false true);
     validApiKey := true; supportedNetwork := true; mobileDevice := true;
     validBrowser := true; web3Wallet := true; accessToAccounts := true;
     legacyWallet := false; modernWallet := true; walletLoggedIn := true;
     walletEnabled := true; correctNetwork := true; minimumBalance := true;
     legacyWeb3 := false; modernWeb3 := true; web3Instance := VUndef;
     iframe := false |}.

(** ** Functions, traces and scenarios *)

(** The heap location [l] holds a function. *)
Definition is_function (w : World) (l : nat) : Prop :=
  exists o c, heap w !! l = Some o /\ code o = Some c.

(** The world after the observations [t] were made. *)
Definition extend (t : list Obs) (w : World) : World :=
  set_trace (trace w ++ t) w.

(** The [contractQuery] event of a [.call] with the given serialized
    result. *)
Definition query_event (methodABI : ABIEntry) (args : list value)
  (serialized : value) : Event :=
  {| eventCode := "contractQuery"; categoryCode := "activeContract";
     reason := None; ev_state := None;
     ev_contract := Some {| methodName := abi_name methodABI;
                            parameters := args;
                            result := serialized |} |}.

Definition mobile_error : value :=
  tagged_error "User is on a mobile device" "mobileBlocked".

(** The world [onboard] leaves in interactive mode on a mobile device: the
    promise is allocated, the dismissal hook and the handlers object
    holding it are on the heap, the notification is out and [validBrowser]
    is false. *)
Definition interactive_mobile_world (w : World) : World :=
  {| state := with_validBrowser false (state w);
     window_web3 := window_web3 w;
     heap := heap w ++
             [ {| proto := VNull; props := [];
                  code := Some (COnClose (length (promises w))) |};
               plain_object [("onClose", VRef (length (heap w)))] ];
     promises := promises w ++ [Pending];
     tasks := tasks w;
     trace := trace w ++
              [OEvent (plain_event "mobileBlocked" "onboard")
                 (Some (VRef (S (length (heap w)))))] |}.

(** *** A legacy contract with one method *)

Definition transfer_abi : ABIEntry :=
  {| abi_name := Some "transfer"; abi_inputs := ["address"; "uint256"] |}.

Definition external_function : obj :=
  {| proto := VNull; props := []; code := Some CExt |}.

(** Location 0 is the provider's [transfer] with its [call] (1),
    [sendTransaction] (2) and [getData] (3); 4 is the contract descriptor;
    5 is a completion callback of the application; 6 is the web3 instance
    with [eth] (7) and its [sendTransaction] (8). *)
Definition provider_heap : list obj :=
  [ {| proto := VNull;
       props := [("call", VRef 1); ("sendTransaction", VRef 2);
                 ("getData", VRef 3)];
       code := Some CExt |};
    external_function; external_function; external_function;
    plain_object [("abi", VAbi [transfer_abi]); ("address", VStr "0xc0ffee");
                  ("transfer", VRef 0)];
    external_function;
    plain_object [("eth", VRef 7)];
    plain_object [("sendTransaction", VRef 8)];
    external_function ].

Definition desktop_state (legacy : bool) : State :=
  {| version := Some library_version; config := Some (config_of false false);
     validApiKey := true; supportedNetwork := true; mobileDevice := false;
     validBrowser := true; web3Wallet := true; accessToAccounts := true;
     legacyWallet := legacy; modernWallet := negb legacy;
     walletLoggedIn := true; walletEnabled := true; correctNetwork := true;
     minimumBalance := true; legacyWeb3 := legacy; modernWeb3 := negb legacy;
     web3Instance := VRef 6; iframe := true |}.

Definition provider_world (legacy : bool) : World :=
  {| state := desktop_state legacy; window_web3 := true;
     heap := provider_heap; promises := []; tasks := []; trace := [] |}.

(** The application wraps the descriptor, calls
    [contract.transfer.call(address, amount, callback)], and the provider's
    read-only primitive settles with [outcome]. *)
Definition transfer_call_scenario (env : Externals) (outcome : settle)
  : M unit :=
  contract ← Contract env (config_of false false) (VRef 4);
  transfer ← get_member contract "transfer";
  transfer_call ← get_member transfer "call";
  call env transfer_call [VStr "0xa11ce"; VNum 5; VRef 5];;
  deliver env 0 outcome.

(** Collaborators as [quiet], with completion callbacks that return
    [true]. *)
Definition chatty : Externals :=
  {| state_effect := state_effect quiet;
     fun_result := fun _ _ => Ok (VBool true);
     collab_result := collab_result quiet;
     split := split quiet;
     JSON_stringify := JSON_stringify quiet |}.

(** The world once [Transaction] has made sure of a provider instance. *)
Definition configured (env : Externals) (w : World) : World :=
  if truthy (web3Instance (state w)) then w
  else (call_collab env configureWeb3 [] w).2.

(** Off the mobile fast path of [Transaction]. *)
Definition off_fast_path (s : State) : Prop :=
  mobileDevice s = false \/
  exists cfg, config s = Some cfg /\ truthy (mobileBlocked cfg) = true.

(** A run of [Transaction]: it is called in world [w]; until the submission
    collaborator settles with [outcome], Environment State becomes [s] and
    the observations [activity] are made (by the collaborator, or by anyone
    else); the suspended executor then goes on. *)
Definition transaction_run (env : Externals) (w : World)
  (txObject callback : value) (s : State) (activity : list Obs)
  (outcome : settle) : Result value * World :=
  match Transaction env txObject callback w with
  | (Ok v, w1) =>
      (Ok v, (deliver env (length (tasks w)) outcome
                (set_state s (extend activity w1))).2)
  | (Throw e, w1) => (Throw e, w1)
  end.

(** The send primitive handed to the submission collaborator, and the heap
    once it is made: the promisified primitive is a new function on the
    legacy path. *)
Definition dispatched_heap (w : World) (send : value) : list obj :=
  if legacyWeb3 (state w)
  then heap w ++ [ {| proto := VNull; props := [];
                      code := Some (CPromisified send) |} ]
  else heap w.

Definition send_method (w : World) (send : value) : value :=
  if legacyWeb3 (state w) then VRef (length (heap w)) else send.

Definition dispatched (w : World) (txObject callback send : value) : World :=
  {| state := state w; window_web3 := window_web3 w;
     heap := dispatched_heap w send;
     promises := promises w ++ [Pending];
     tasks := tasks w ++ [TTransaction (length (promises w)) callback];
     trace := trace w ++
              [OCollab sendTransaction
                 [VStr "activeTransaction"; txObject; send_method w send;
                  callback]] |}.



(** The call by which a rejection is handed to the completion callback,
    when there is one. *)
Definition absorbed (callback e : value) : list Obs :=
  match callback with
  | VRef cb => [OCall cb [e]]
  | _ => []
  end.


(** ** The heap under [Contract] *)

(** What one turn of the reducer does to the heap: it writes to the clone
    and to objects it allocates itself, nowhere else. *)
Definition writes_only (c : nat) (w w' : World) : Prop :=
  length (heap w) <= length (heap w') /\
  forall j, j < length (heap w) -> j <> c -> heap w' !! j = heap w !! j.

(** The property [k] is found nowhere on the prototype chain of [v]. *)
Inductive absent (h : list obj) (k : string) : value -> Prop :=
  | absent_end v : (forall l, v <> VRef l) -> absent h k v
  | absent_step l o :
      h !! l = Some o -> assoc k (props o) = None ->
      absent h k (proto o) -> absent h k (VRef l).

(** The object at [mm] maps the name [n] to a handle that captured an
    undefined method; both were allocated after the clone at [c]. *)
Definition handle_at (c : nat) (w : World) (mm : nat) (n : string) : Prop :=
  exists om f fo e',
    heap w !! mm = Some om /\ code om = None /\
    assoc n (props om) = Some (VRef f) /\
    heap w !! f = Some fo /\ code fo = Some (CModernFn VUndef e') /\
    key_of (abi_name e') = n /\ c < mm /\ c < f.

(** Everything the original heap [h0] held is still as it was. *)
Definition keeps (h0 : list obj) (w : World) : Prop :=
  forall j, j < length h0 -> heap w !! j = h0 !! j.

(** The world in which [Contract] starts its loop: a provider instance is
    configured and the empty clone is allocated. *)
Definition cloning (env : Externals) (w : World) (o : obj) : World :=
  set_heap (heap w ++ [ {| proto := proto o; props := []; code := None |} ])
    (configured env w).

(** The keys [Contract] copies over: on the legacy path those that name no
    ABI entry, on the modern path all but ["methods"]. *)
Definition passes_through (legacy : bool) (abi : value) (key : string)
  : Prop :=
  if legacy
  then forall entries, abi = VAbi entries ->
                       find (names_key key) entries = None
  else key <> "methods".

(** The clone at [c] holds, under ["methods"], an object with a handle for
    the name [n]. *)
Definition wrapped_handle (c : nat) (n : string) (w : World) : Prop :=
  exists oc mm,
    heap w !! c = Some oc /\
    assoc "methods" (props oc) = Some (VRef mm) /\
    handle_at c w mm n.

(** ** What may happen to a pending promise *)

(** The promise a suspended continuation holds the capabilities of. *)
Definition task_promise (t : Task) : nat :=
  match t with
  | THeadless p | TInteractive p | TGetState p | TInitState p
  | TLegacyCall p _ _ _ | TLegacySend p _ | TTransaction p _ => p
  end.

(** From [w] to [w'] nothing was done to promise [p], and nothing came
    into being that could do something to it: no suspended continuation
    and no dismissal hook holding its capabilities. Functions stay the
    functions they are. *)
Definition spares (p : nat) (w w' : World) : Prop :=
  promises w' !! p = promises w !! p /\
  length (promises w) <= length (promises w') /\
  (forall t, t ∈ tasks w' -> t ∈ tasks w \/ task_promise t <> p) /\
  (forall l o', heap w' !! l = Some o' -> code o' = Some (COnClose p) ->
     exists o, heap w !! l = Some o /\ code o = Some (COnClose p)) /\
  (forall l o, heap w !! l = Some o ->
     exists o', heap w' !! l = Some o' /\ code o' = code o).

(** A computation that spares [p] wherever [p] is already allocated. *)
Definition safe {A} (p : nat) (m : M A) : Prop :=
  forall w, p < length (promises w) -> spares p w (m w).2.

(** What can happen to the library from outside: the application or the
    presentation layer calls a function value, the collaborator a suspended
    continuation awaits settles, or a detector rewrites Environment
    State. *)
Inductive action :=
  | ACall (fn : value) (args : list value)
  | ASettle (i : nat) (outcome : settle)
  | ADetect (f : State -> State).

Definition step (env : Externals) (w : World) (a : action) : World :=
  match a with
  | ACall fn args => (call env fn args w).2
  | ASettle i outcome => (deliver env i outcome w).2
  | ADetect f => set_state (f (state w)) w
  end.

Definition run (env : Externals) (acts : list action) (w : World) : World :=
  foldl (step env) w acts.

(** The action is a call of the function at [hook]. *)
Definition invokes (hook : nat) (a : action) : Prop :=
  exists args, a = ACall (VRef hook) args.

(** Promise [p] is pending and only the function at [hook] can settle
    it. *)
Definition guarded (p hook : nat) (w : World) : Prop :=
  promise_state p w = Some Pending /\
  (forall t, t ∈ tasks w -> task_promise t <> p) /\
  (forall l o, heap w !! l = Some o -> code o = Some (COnClose p) ->
               l = hook) /\
  (exists o, heap w !! hook = Some o /\ code o = Some (COnClose p)).

(** A settled promise is settled for good. *)
Definition settled_stays (w w' : World) : Prop :=
  forall q s, promises w !! q = Some (Settled s) ->
              promises w' !! q = Some (Settled s).

Definition steady {A} (m : M A) : Prop :=
  forall w, settled_stays w (m w).2.

(** Suspended continuations and dismissal hooks hold capabilities of
    promises that exist. *)
Definition well_formed (w : World) : Prop :=
  (forall t, t ∈ tasks w -> task_promise t < length (promises w)) /\
  (forall l o q, heap w !! l = Some o -> code o = Some (COnClose q) ->
                 q < length (promises w)).

(** ** More concrete inputs *)

(** A mobile device, with the API key valid or not and [mobileBlocked] set
    or not. *)
Definition mobile_state (valid_key blocked : bool) : State :=
  {| version := Some library_version;
     config := Some (config_of blocked false);
     validApiKey := valid_key; supportedNetwork := true;
     mobileDevice := true; validBrowser := true; web3Wallet := true;
     accessToAccounts := true; legacyWallet := false; modernWallet := true;
     walletLoggedIn := true; walletEnabled := true; correctNetwork := true;
     minimumBalance := true; legacyWeb3 := false; modernWeb3 := true;
     web3Instance := VRef 6; iframe := true |}.

Definition mobile_world (valid_key blocked : bool) : World :=
  {| state := mobile_state valid_key blocked; window_web3 := true;
     heap := provider_heap; promises := []; tasks := []; trace := [] |}.

(** A modern contract: location 9 is its method mapping, which is empty,
    and 10 is the descriptor, whose interface lists [transfer]. *)
Definition modern_heap : list obj :=
  provider_heap ++
  [ plain_object [];
    plain_object [("_jsonInterface", VAbi [transfer_abi]);
                  ("address", VStr "0xc0ffee"); ("methods", VRef 9)] ].

Definition modern_world : World :=
  {| state := desktop_state false; window_web3 := true;
     heap := modern_heap; promises := []; tasks := []; trace := [] |}.

(** ** Notions for the further properties *)

(** *** [init] and [getState] *)

(** The notification [init] sends when it is given no configuration
    object. *)
Definition missing_config_event : Event :=
  {| eventCode := "initFail"; categoryCode := "initialize";
     reason := Some "A config object is needed to initialize assist";
     ev_state := None; ev_contract := None |}.

(** The three functions a call of [init] makes: the [Contract] function is
    the one that captured the configuration [init] was given. *)
Definition api_functions (cfg : Config) : list obj :=
  [ {| proto := VNull; props := []; code := Some COnboard |};
    {| proto := VNull; props := []; code := Some (CContract cfg) |};
    {| proto := VNull; props := []; code := Some CTransaction |} ].

(** The object [init] returns, the three functions being laid out from
    place [n] on and [getState] being [g]. *)
Definition api_object (n : nat) (g : value) : obj :=
  plain_object [("onboard", VRef n); ("Contract", VRef (n + 1));
                ("Transaction", VRef (n + 2)); ("getState", g)].

(** The heap a successful [init] leaves, and the place of the object it
    returns: the function of [getState] is added only if the heap does not
    hold it yet. *)
Definition api_heap (cfg : Config) (h : list obj) : list obj :=
  match position is_getState h with
  | Some g => h ++ api_functions cfg ++ [api_object (length h) (VRef g)]
  | None =>
      h ++ api_functions cfg ++
      [ {| proto := VNull; props := []; code := Some CGetState |};
        api_object (length h) (VRef (length h + 3)) ]
  end.

Definition api_location (h : list obj) : nat :=
  length h + match position is_getState h with
             | Some _ => 3
             | None => 4
             end.

(** The heap of [w2] is a later stage of the heap of [w]: it holds every
    object [w] holds, each still the function, or the plain object, it
    was. *)
Definition later_heap (w w2 : World) : Prop :=
  forall j o, heap w !! j = Some o ->
              exists o2, heap w2 !! j = Some o2 /\ code o2 = code o.

(** Environment State once [init] has stored the configuration and
    identified the browser (lines 23-68). *)
Definition identified (env : Externals) (cfg : Config) (s : State) : State :=
  let s0 := with_config cfg
              (state_effect env openWebsocketConnection []
                 (with_version library_version s)) in
  state_effect env getUserAgent []
    (if truthy (web3 cfg) then state_effect env configureWeb3 [web3 cfg] s0
     else s0).

(** Whether [init] creates the iframe, and Environment State after that
    (lines 71-73). *)
Definition creates_iframe (env : Externals) (cfg : Config) (s : State)
  : bool :=
  negb (iframe (identified env cfg s)) && negb (truthy (headlessMode cfg)).

Definition framed (env : Externals) (cfg : Config) (s : State) : State :=
  if creates_iframe env cfg s
  then state_effect env createIframe [] (identified env cfg s)
  else identified env cfg s.

(** Whether [init] finds a mobile device that the configuration blocks
    (line 76). *)
Definition blocks_mobile (env : Externals) (cfg : Config) (s : State)
  : bool :=
  mobileDevice (framed env cfg s) && truthy (mobileBlocked cfg).

(** What a successful [init] lets an observer see, in order. *)
Definition init_calls (env : Externals) (cfg : Config) (s : State)
  : list Obs :=
  [OCollab openWebsocketConnection []] ++
  (if truthy (web3 cfg) then [OCollab configureWeb3 [web3 cfg]] else []) ++
  [OCollab getUserAgent []] ++
  (if creates_iframe env cfg s then [OCollab createIframe []] else []) ++
  (if blocks_mobile env cfg s
   then [OEvent (plain_event "mobileBlocked" "initialize") None] else []) ++
  [OCollab getTransactionQueueFromStorage [];
   OCollab addUnloadListener [];
   OCollab checkUserEnvironment []].

(** Environment State when a successful [init] returns. *)
Definition initialized (env : Externals) (cfg : Config) (s : State) : State :=
  state_effect env addUnloadListener []
    (state_effect env getTransactionQueueFromStorage []
       (if blocks_mobile env cfg s
        then with_validBrowser false (framed env cfg s)
        else framed env cfg s)).

(** The [initState] notification reporting Environment State [s]. *)
Definition initState_event (s : State) : Event :=
  {| eventCode := "initState"; categoryCode := "initialize";
     reason := None; ev_state := Some (report s); ev_contract := None |}.

(** A run of [getState]: it is called in world [w]; by the time the
    environment check settles with [outcome], Environment State has become
    [s]; the suspended executor then goes on. *)
Definition getState_run (env : Externals) (w : World) (s : State)
  (outcome : settle) : Result nat * World :=
  match getState w with
  | (Ok p, w1) =>
      (Ok p, (deliver env (length (tasks w)) outcome (set_state s w1)).2)
  | (Throw e, w1) => (Throw e, w1)
  end.

(** The reaction registered as the [i]-th continuation runs with the
    settlement of the promise it was put on, once that promise has one. *)
Definition react (env : Externals) (i : nat) : M unit :=
  ts ← gets tasks;
  ps ← gets promises;
  match ts !! i with
  | Some t =>
      match ps !! task_promise t with
      | Some (Settled outcome) => deliver env i outcome
      | _ => mret tt
      end
  | None => mret tt
  end.

(** A run of [init] to the end of what it starts: [init] is called in
    world [w]; by the time the environment check of its [getState] settles
    with [outcome], Environment State has become [s]; the executor of
    [getState] goes on, and then the reaction [init] put on its promise. *)
Definition init_run (env : Externals) (cfg : Config) (w : World) (s : State)
  (outcome : settle) : Result value * World :=
  match init env (Some cfg) w with
  | (Ok api, w1) =>
      (Ok api,
       (react env (length (tasks w))
          (deliver env (length (tasks w)) outcome (set_state s w1)).2).2)
  | (Throw e, w1) => (Throw e, w1)
  end.

(** A run of [onboard] in interactive mode: [onboard] is called in world
    [w]; by the time the collaborator it awaits settles with [outcome],
    Environment State has become [s]; the suspended executor then goes
    on. *)
Definition interactive_run (env : Externals) (w : World) (s : State)
  (outcome : settle) : Result nat * World :=
  match onboard w with
  | (Ok p, w1) =>
      (Ok p, (deliver env (length (tasks w)) outcome (set_state s w1)).2)
  | (Throw e, w1) => (Throw e, w1)
  end.

(** The error of the gate at which [onboard] and [Transaction] stop: the
    API key is looked at first. *)
Definition gate_error (s : State) : value :=
  if validApiKey s
  then tagged_error "This network is not supported" "initFail"
  else tagged_error "Your api key is not valid" "initFail".

(** *** [Contract] *)

(** The error of the gate at which [Contract] stops: the API key is looked
    at first. *)
Definition Contract_gate_error (s : State) : value :=
  if validApiKey s
  then tagged_error "This network is not supported" "initFail"
  else tagged_error "Your API key is not valid" "initFail".

(** A computation that touches nothing but the heap: Environment State,
    the promises, the suspended continuations and the trace are after it
    what they were before, whether it returns or throws. *)
Definition silent {A} (m : M A) : Prop :=
  forall w,
    state (m w).2 = state w /\ window_web3 (m w).2 = window_web3 w /\
    promises (m w).2 = promises w /\ tasks (m w).2 = tasks w /\
    trace (m w).2 = trace w.

(** The heap once the legacy reducer has installed, on the clone at [c],
    the wrapper of the key [k] with its [call] and [sendTransaction]
    members (lines 274-325): the three functions are new objects at the
    end of the heap. *)
Definition legacy_wrapped (h : list obj) (c : nat) (k : string)
  (method : value) (m : ABIEntry) : list obj :=
  let f := length h in
  alter (with_prop "sendTransaction" (VRef (f + 2))) f
    (alter (with_prop "call" (VRef (f + 1))) f
       (alter (with_prop k (VRef f)) c
          (h ++ [ {| proto := VNull; props := [];
                     code := Some (CLegacyFn method m) |} ]) ++
        [ {| proto := VNull; props := [];
             code := Some (CLegacyCall method m) |} ]) ++
     [ {| proto := VNull; props := [];
          code := Some (CLegacySend method m) |} ]).

(** The function at [f] is the wrapper of [method] for the ABI entry [m]:
    its [call] and [sendTransaction] members are the functions the reducer
    made for that method, its [getData] is [g]; the three functions are
    three objects, all allocated after the clone at [c]. *)
Definition legacy_wrapper (c : nat) (w : World) (f : nat) (method : value)
  (m : ABIEntry) (g : value) : Prop :=
  exists fo fc fs oc os,
    heap w !! f = Some fo /\ code fo = Some (CLegacyFn method m) /\
    assoc "call" (props fo) = Some (VRef fc) /\
    heap w !! fc = Some oc /\ code oc = Some (CLegacyCall method m) /\
    assoc "sendTransaction" (props fo) = Some (VRef fs) /\
    heap w !! fs = Some os /\ code os = Some (CLegacySend method m) /\
    assoc "getData" (props fo) = Some g /\
    c < f /\ f < fc /\ fc < fs.

(** The last entry of an ABI that goes by the name [n]. *)
Fixpoint last_named (n : string) (es : list ABIEntry) : option ABIEntry :=
  match es with
  | [] => None
  | e :: rest =>
      match last_named n rest with
      | Some x => Some x
      | None => if String.eqb (key_of (abi_name e)) n then Some e else None
      end
  end.

(** The object at [mm] maps the name [n] to a handle that captured the
    method [method] and the ABI entry [e]; both were allocated after the
    clone at [c]. *)
Definition handle_for (c : nat) (w : World) (mm : nat) (n : string)
  (method : value) (e : ABIEntry) : Prop :=
  exists om f fo,
    heap w !! mm = Some om /\ code om = None /\
    assoc n (props om) = Some (VRef f) /\
    heap w !! f = Some fo /\ code fo = Some (CModernFn method e) /\
    c < mm /\ c < f.

(** The clone at [c] holds, under ["methods"], an object with such a
    handle for the name [n]. *)
Definition wrapped_method (c : nat) (n : string) (method : value)
  (e : ABIEntry) (w : World) : Prop :=
  exists oc mm,
    heap w !! c = Some oc /\
    assoc "methods" (props oc) = Some (VRef mm) /\
    handle_for c w mm n method e.

(** *** The legacy wrappers and [Transaction] *)

(** The notifications among what an observer saw. *)
Definition events (t : list Obs) : list Event :=
  omap (fun o => match o with OEvent e _ => Some e | _ => None end) t.

(** A completion callback that lets the wrappers go on: none at all, or a
    function that returns, whatever it is called with. *)
Definition returning_callback (env : Externals) (w : World)
  (callback : value) : Prop :=
  callback = VUndef \/
  exists cb, callback = VRef cb /\ is_function w cb /\
             forall args, exists v, fun_result env cb args = Ok v.

(** A run of an asynchronous function of a legacy wrapper: [start] is the
    function up to its [await], called in world [w]; the collaborator it
    awaits settles with [outcome] and the suspended function goes on. A
    function that failed before its [await] has nothing suspended. *)
Definition wrapper_run (env : Externals) (start : M nat) (w : World)
  (outcome : settle) : Result nat * World :=
  match start w with
  | (Ok p, w1) => (Ok p, (deliver env (length (tasks w)) outcome w1).2)
  | (Throw e, w1) => (Throw e, w1)
  end.

(** The telemetry context of a [sendTransaction] of the method [m] with the
    positional arguments [args]. *)
Definition send_context (m : ABIEntry) (args : list value) : obj :=
  plain_object [("methodName", name_value (abi_name m));
                ("parameters", VArr args)].

(** On the mobile fast path of [Transaction], which consults the
    configuration in Environment State. *)
Definition on_fast_path (s : State) : Prop :=
  mobileDevice s = true /\
  exists cfg, config s = Some cfg /\ truthy (mobileBlocked cfg) = false.

(** *** Further concrete inputs *)

(** A legacy descriptor whose interface lists [transfer] while its
    [transfer] key holds [undefined]: location 9. *)
Definition broken_world : World :=
  {| state := desktop_state true; window_web3 := true;
     heap := provider_heap ++
             [ plain_object [("abi", VAbi [transfer_abi]);
                             ("transfer", VUndef)] ];
     promises := []; tasks := []; trace := [] |}.

(** A modern contract whose method mapping (location 9) holds the
    provider's [transfer] (location 0); 10 is the descriptor. *)
Definition modern_method_world : World :=
  {| state := desktop_state false; window_web3 := true;
     heap := provider_heap ++
             [ plain_object [("transfer", VRef 0)];
               plain_object [("_jsonInterface", VAbi [transfer_abi]);
                             ("address", VStr "0xc0ffee");
                             ("methods", VRef 9)] ];
     promises := []; tasks := []; trace := [] |}.

(** Collaborators as [quiet], with completion callbacks that throw. *)
Definition throwing : Externals :=
  {| state_effect := state_effect quiet;
     fun_result := fun _ _ => Throw (TypeError "callback failed");
     collab_result := collab_result quiet;
     split := split quiet;
     JSON_stringify := JSON_stringify quiet |}.

(** A descriptor that carries no interface, under no key: location 9. *)
Definition bare_world : World :=
  {| state := desktop_state true; window_web3 := true;
     heap := provider_heap ++ [ plain_object [("address", VStr "0xc0ffee")] ];
     promises := []; tasks := []; trace := [] |}.

(** * Properties *)

(** ** Promises settle once *)

Lemma settle_in_pending p s ps :
  ps !! p = Some Pending -> settle_in p s ps !! p = Some (Settled s).
Proof.
  intros H. unfold settle_in. rewrite H.
  apply list_lookup_insert_eq. by eapply lookup_lt_Some.
Qed.

Lemma settle_in_settled p s s0 ps :
  ps !! p = Some (Settled s0) -> settle_in p s ps = ps.
Proof. intros H. unfold settle_in. by rewrite H. Qed.

Lemma settle_in_other p q s ps :
  p ≠ q -> settle_in p s ps !! q = ps !! q.
Proof.
  intros H. unfold settle_in.
  destruct (ps !! p) as [[|]|]; try done.
  by apply list_lookup_insert_ne.
Qed.

Lemma settle_in_length p s ps : length (settle_in p s ps) = length ps.
Proof.
  unfold settle_in. destruct (ps !! p) as [[|]|]; try done.
  apply length_insert.
Qed.

Lemma foldl_settled p s0 l ps :
  ps !! p = Some (Settled s0) ->
  foldl (fun ps s => settle_in p s ps) ps l = ps.
Proof.
  intros H. induction l as [|s l IH]; [done|].
  simpl. by rewrite (settle_in_settled _ _ _ _ H).
Qed.

(** Only the first settlement counts. *)
Lemma run_settles_first p s l w :
  promise_state p w = Some Pending ->
  promise_state p (run_settles p (s :: l) w) = Some (Settled s).
Proof.
  intros H. unfold promise_state, run_settles. simpl.
  rewrite (foldl_settled p s); by apply settle_in_pending.
Qed.

Lemma run_settles_trace p l w :
  trace (run_settles p l w) = trace w ++ (OSettle p <$> l).
Proof. reflexivity. Qed.

(** *** Stepping through monadic code *)

Lemma bind_Ok {A B} (m : M A) (f : A -> M B) w a w' :
  m w = (Ok a, w') -> (m ≫= f) w = f a w'.
Proof. intros H. unfold mbind, M_bind. by rewrite H. Qed.

Lemma bind_Throw {A B} (m : M A) (f : A -> M B) w e w' :
  m w = (Throw e, w') -> (m ≫= f) w = (Throw e, w').
Proof. intros H. unfold mbind, M_bind. by rewrite H. Qed.

Lemma fmap_Ok {A B} (m : M A) (f : A -> B) w a w' :
  m w = (Ok a, w') -> (f <$> m) w = (Ok (f a), w').
Proof. intros H. unfold fmap, M_fmap. by rewrite H. Qed.

Lemma run_settles_nil p w : run_settles p [] w = w.
Proof. destruct w. unfold run_settles. simpl. by rewrite app_nil_r. Qed.

Lemma run_settles_app p l1 l2 w :
  run_settles p l2 (run_settles p l1 w) = run_settles p (l1 ++ l2) w.
Proof.
  unfold run_settles. simpl.
  by rewrite foldl_app, fmap_app, app_assoc.
Qed.

Lemma settle_promise_run p s w :
  settle_promise p s w = (Ok tt, run_settles p [s] w).
Proof. reflexivity. Qed.

Lemma when_run p b (c : M unit) l w :
  c w = (Ok tt, run_settles p l w) ->
  when b c w = (Ok tt, run_settles p (if b then l else []) w).
Proof. destruct b; [done|]. intros _. by rewrite run_settles_nil. Qed.

Lemma when_reject_run p b e w :
  when b (reject p e) w
  = (Ok tt, run_settles p (if b then [Rejected e] else []) w).
Proof. by apply when_run. Qed.

Lemma await_reject_run p outcome w :
  await_catch outcome (fun e => reject p e;; mret VUndef) w
  = (Ok (match outcome with Fulfilled v => v | Rejected _ => VUndef end),
     run_settles p (match outcome with
                    | Fulfilled _ => []
                    | Rejected e => [Rejected e]
                    end) w).
Proof. destruct outcome; [|done]. simpl. by rewrite run_settles_nil. Qed.

Lemma state_run_settles p l w : state (run_settles p l w) = state w.
Proof. reflexivity. Qed.

Ltac run_step :=
  first
    [ erewrite bind_Ok by apply await_reject_run
    | erewrite bind_Ok by apply when_reject_run
    | erewrite bind_Ok by reflexivity ];
  rewrite ?run_settles_app, ?state_run_settles.

Lemma modern_check_runs p w :
  (s ← gets state;
   when (negb (walletLoggedIn s))
     (reject p (tagged_error "User needs to login to wallet"
                  "walletLoginEnable"));;
   s ← gets state;
   when (negb (walletEnabled s))
     (reject p (tagged_error "User needs to enable wallet"
                  "walletEnable"))) w
  = (Ok tt, run_settles p (modern_failures (state w)) w).
Proof.
  do 3 run_step.
  by rewrite when_reject_run, run_settles_app.
Qed.

(** The fourth check, entered when there is no account access. *)
Lemma account_check_runs p w :
  (s ← gets state;
   when (legacyWallet s)
     (reject p (tagged_error "User needs to login to their account"
                  "walletLogin"));;
   s ← gets state;
   when (modernWallet s)
     (s ← gets state;
      when (negb (walletLoggedIn s))
        (reject p (tagged_error "User needs to login to wallet"
                     "walletLoginEnable"));;
      s ← gets state;
      when (negb (walletEnabled s))
        (reject p (tagged_error "User needs to enable wallet"
                     "walletEnable")))) w
  = (Ok tt, run_settles p (account_failures (state w)) w).
Proof.
  do 3 run_step.
  rewrite (when_run p _ _ _ _ (modern_check_runs p _)).
  by rewrite run_settles_app, state_run_settles.
Qed.

(** The executor is a straight line of settlement attempts: no check is
    skipped, whatever the earlier ones found. *)
Lemma onboard_headless_resume_runs p outcome w :
  onboard_headless_resume p outcome w
  = (Ok tt, run_settles p (headless_settles outcome (state w)) w).
Proof.
  unfold onboard_headless_resume.
  do 8 run_step.
  rewrite (bind_Ok _ _ _ _ _ (when_run p _ _ _ _ (account_check_runs p _))).
  rewrite run_settles_app, state_run_settles.
  do 4 run_step.
  unfold resolve. rewrite settle_promise_run, run_settles_app.
  do 2 f_equal.
  unfold headless_settles, readiness_failures.
  rewrite !fmap_app, <- !app_assoc.
  repeat f_equal;
    unfold account_failures, modern_failures;
    repeat match goal with
           | |- context [if negb ?b then _ else _] => destruct b; simpl
           | |- context [if ?b then _ else _] => destruct b; simpl
           end; reflexivity.
Qed.

(** ** The headless readiness flow *)

(** The first check that fails, by position, issues the first rejection. *)
Lemma first_failure_leads s i tag :
  spec_check_tag i s = Some tag ->
  (forall k, k < i -> spec_check_tag k s = None) ->
  exists e rest, readiness_failures s = e :: rest /\ eventCode_of e = Some tag.
Proof.
  intros Hi Hfirst.
  destruct i as [|[|[|[|[|[|[|i]]]]]]]; try discriminate;
    unfold readiness_failures.
  all: repeat match goal with
         | H : forall k, k < ?n -> _ |- _ =>
             match n with
             | S (S ?m) =>
                 let Hk := fresh "Hk" in
                 assert (Hk := H (S m) ltac:(lia)); simpl in Hk;
                 assert (forall k, k < S m -> spec_check_tag k s = None)
                   by (intros; apply H; lia);
                 clear H
             | _ => clear H
             end
         end.
  all: simpl in Hi.
  all: repeat match goal with
         | H : context [if negb ?b then _ else _] |- _ =>
             destruct b; simpl in H; try discriminate
         | H : context [if ?b then _ else _] |- _ =>
             destruct b; simpl in H; try discriminate
         end.
  all: simpl; eexists _, _; split; [reflexivity|]; simpl; congruence.
Qed.

Ltac find_element :=
  first
    [ apply list_elem_of_here
    | apply elem_of_app; first [ left; solve [find_element]
                               | right; find_element ] ].

(** Every failing check issues its rejection, wherever it stands. *)
Lemma every_failure_issued s j tag :
  spec_check_tag j s = Some tag ->
  exists e, e ∈ readiness_failures s /\ eventCode_of e = Some tag.
Proof.
  intros Hj.
  destruct j as [|[|[|[|[|[|[|j]]]]]]]; try discriminate;
    unfold readiness_failures; simpl in Hj.
  all: repeat match goal with
         | H : context [if negb ?b then _ else _] |- _ =>
             destruct b; simpl in H; try discriminate
         | H : context [if ?b then _ else _] |- _ =>
             destruct b; simpl in H; try discriminate
         end.
  all: injection Hj as <-.
  all: eexists (VErr _ _); split; [|reflexivity].
  all: cbn [app]; find_element.
Qed.

Lemma delete_last_task (ts : list Task) t :
  delete (length ts) (ts ++ [t]) = ts.
Proof.
  induction ts as [|x ts IH]; [done|]. simpl. by rewrite IH.
Qed.

Lemma lookup_last_task (ts : list Task) t :
  (ts ++ [t]) !! length ts = Some t.
Proof. by apply list_lookup_middle. Qed.

Lemma lookup_last_promise (ps : list pstate) x :
  (ps ++ [x]) !! length ps = Some x.
Proof. by apply list_lookup_middle. Qed.

Lemma onboard_headless_mode w cfg :
  config (state w) = Some cfg ->
  truthy (headlessMode cfg) = true ->
  onboard w
  = (Ok (length (promises w)),
     set_tasks (tasks w ++ [THeadless (length (promises w))])
       (at_resumption w (state w))).
Proof.
  intros Hcfg Hheadless. unfold onboard.
  erewrite bind_Ok by (unfold read_config; erewrite bind_Ok by reflexivity;
                       simpl; rewrite Hcfg; reflexivity).
  rewrite Hheadless. reflexivity.
Qed.

Lemma headless_run_runs env w cfg s outcome :
  config (state w) = Some cfg ->
  truthy (headlessMode cfg) = true ->
  headless_run env w s outcome
  = (Ok (length (promises w)),
     run_settles (length (promises w)) (headless_settles outcome s)
       (at_resumption w s)).
Proof.
  intros Hcfg Hheadless. unfold headless_run.
  rewrite (onboard_headless_mode w cfg Hcfg Hheadless).
  f_equal. unfold deliver.
  erewrite bind_Ok by reflexivity. cbn [tasks set_state set_tasks].
  rewrite lookup_last_task.
  erewrite bind_Ok by reflexivity. simpl resume.
  rewrite onboard_headless_resume_runs. simpl.
  by rewrite delete_last_task.
Qed.

Lemma pending_at_resumption w s :
  promise_state (length (promises w)) (at_resumption w s) = Some Pending.
Proof. apply lookup_last_promise. Qed.

(** C1 (as amended). In headless mode, once the environment check has
    succeeded, all six readiness checks run without early exit: every
    failing check calls the rejection capability and the final resolution
    is attempted all the same. The failure reported is the one of the
    failing check in the lowest position: when check [i] fails and no check
    before it does, the promise is rejected with the tag of check [i],
    whatever fails after it. In particular a single failing check reports
    its own tag. *)
Theorem headless_reports_first_failing_check env w cfg s v i tag :
  config (state w) = Some cfg ->
  truthy (headlessMode cfg) = true ->
  spec_check_tag i s = Some tag ->
  (forall k, k < i -> spec_check_tag k s = None) ->
  exists p w',
    headless_run env w s (Fulfilled v) = (Ok p, w') /\
    reported_tag p w' = Some tag /\
    (forall j tag', spec_check_tag j s = Some tag' ->
       exists e, eventCode_of e = Some tag' /\
                 OSettle p (Rejected e) ∈ trace w') /\
    OSettle p (Fulfilled ready_value) ∈ trace w'.
Proof.
  intros Hcfg Hheadless Hi Hfirst.
  eexists _, _. split; [by eapply headless_run_runs|].
  destruct (first_failure_leads s i tag Hi Hfirst) as (e & rest & Hfail & He).
  split; [|split].
  - unfold reported_tag, headless_settles. rewrite Hfail. simpl app.
    rewrite run_settles_first by apply pending_at_resumption. exact He.
  - intros j tag' Hj.
    destruct (every_failure_issued s j tag' Hj) as (e' & Hin & He').
    exists e'. split; [done|].
    rewrite run_settles_trace. unfold headless_settles. simpl app.
    rewrite !fmap_app, !elem_of_app. right. left.
    by do 2 apply list_elem_of_fmap_2.
  - rewrite run_settles_trace. unfold headless_settles.
    rewrite !fmap_app, !elem_of_app. right. right. right.
    apply list_elem_of_here.
Qed.

Lemma headless_reports_first_failing_check_witness :
  exists p w',
    headless_run quiet (world_of three_failures) three_failures
      (Fulfilled VUndef) = (Ok p, w') /\
    reported_tag p w' = Some "mobileBlocked" /\
    (forall j tag', spec_check_tag j three_failures = Some tag' ->
       exists e, eventCode_of e = Some tag' /\
                 OSettle p (Rejected e) ∈ trace w') /\
    OSettle p (Fulfilled ready_value) ∈ trace w'.
Proof.
  apply (headless_reports_first_failing_check quiet
           (world_of three_failures) (config_of false true) three_failures
           VUndef 1 "mobileBlocked"); try reflexivity.
  intros k Hk. assert (k = 0) as -> by lia. reflexivity.
Defined.

(** X8. In headless mode, when the environment check itself fails, its
    failure is the first rejection and so the one the promise of [onboard]
    ends with, whatever the six checks find afterwards. *)
Lemma headless_environment_failure_reported env w cfg s e :
  config (state w) = Some cfg ->
  truthy (headlessMode cfg) = true ->
  exists p w',
    headless_run env w s (Rejected e) = (Ok p, w') /\
    promise_state p w' = Some (Settled (Rejected e)).
Proof.
  intros Hcfg Hheadless.
  eexists _, _. split; [by eapply headless_run_runs|].
  unfold headless_settles. cbn [app].
  by rewrite run_settles_first by apply pending_at_resumption.
Qed.

(** C1 (counterexample to the claim as stated). On a mobile device with an
    invalid browser and no wallet, checks 2 and 3 both fail, yet the
    reported tag is the one of check 1, not the one of check 2. And on a
    mobile device where check 1 is the only one to fail, an environment
    check that rejects has its own failure reported, not the tag of
    check 1. *)
Lemma headless_pairwise_counterexample :
  (2 < 3 /\
   spec_check_tag 2 three_failures = Some "browserFail" /\
   spec_check_tag 3 three_failures = Some "walletFail" /\
   exists p w',
     headless_run quiet (world_of three_failures) three_failures
       (Fulfilled VUndef) = (Ok p, w') /\
     reported_tag p w' = Some "mobileBlocked" /\
     reported_tag p w' <> spec_check_tag 2 three_failures) /\
  (spec_check_tag 1 only_mobile = Some "mobileBlocked" /\
   (forall i, i <> 1 -> spec_check_tag i only_mobile = None) /\
   exists p w',
     headless_run quiet (world_of only_mobile) only_mobile
       (Rejected (TypeError "environment check failed")) = (Ok p, w') /\
     reported_tag p w' = None).
Proof.
  split.
  - split; [lia|]. do 2 (split; [reflexivity|]).
    eexists _, _. split; [reflexivity|]. split; [reflexivity|].
    vm_compute. discriminate.
  - split; [reflexivity|]. split.
    + intros i Hi. do 7 (destruct i as [|i]; [done|]). reflexivity.
    + eexists _, _. split; reflexivity.
Qed.

Lemma no_failure_no_rejection s :
  (forall i, spec_check_tag i s = None) -> readiness_failures s = [].
Proof.
  intros H.
  assert (H1 := H 1). assert (H2 := H 2). assert (H3 := H 3).
  assert (H4 := H 4). assert (H5 := H 5). assert (H6 := H 6).
  clear H. unfold readiness_failures. simpl in *.
  repeat match goal with
         | H : context [if negb ?b then _ else _] |- _ =>
             destruct b; simpl in H; try discriminate
         | H : context [if ?b then _ else _] |- _ =>
             destruct b; simpl in H; try discriminate
         end; reflexivity.
Qed.

(** C6. In headless mode, when the environment check succeeds and none of
    the six readiness checks fails, the promise [onboard] returned is
    fulfilled with the fixed confirmation value, and the only capability
    the flow calls is the resolution: no rejection is ever attempted. *)
Theorem headless_all_pass_resolves env w cfg s v :
  config (state w) = Some cfg ->
  truthy (headlessMode cfg) = true ->
  (forall i, spec_check_tag i s = None) ->
  exists p w',
    headless_run env w s (Fulfilled v) = (Ok p, w') /\
    promise_state p w' = Some (Settled (Fulfilled ready_value)) /\
    trace w' = trace w ++ [OCollab checkUserEnvironment [];
                           OSettle p (Fulfilled ready_value)].
Proof.
  intros Hcfg Hheadless Hpass.
  eexists _, _. split; [by eapply headless_run_runs|].
  unfold headless_settles. rewrite (no_failure_no_rejection s Hpass).
  cbn [app fmap list_fmap]. split.
  - by rewrite run_settles_first by apply pending_at_resumption.
  - rewrite run_settles_trace. simpl. by rewrite <- app_assoc.
Qed.

Lemma headless_all_pass_resolves_witness :
  exists p w',
    headless_run quiet (world_of (ready_state (config_of false true)))
      (ready_state (config_of false true)) (Fulfilled VUndef) = (Ok p, w') /\
    promise_state p w' = Some (Settled (Fulfilled ready_value)) /\
    trace w' = [OCollab checkUserEnvironment [];
                OSettle p (Fulfilled ready_value)].
Proof.
  apply (headless_all_pass_resolves quiet
           (world_of (ready_state (config_of false true)))
           (config_of false true) (ready_state (config_of false true))
           VUndef); try reflexivity.
  intros i. do 7 (destruct i as [|i]; [reflexivity|]). reflexivity.
Defined.

(** ** [init] *)

(** C5. For a configuration object without a (truthy) [dappId], [init]
    notifies the Event Notifier of [initFail] with the reason
    ["No API key provided to init function"] and throws to its caller an
    error tagged [initFail]; it returns no API surface. *)
Theorem init_without_api_key env w cfg :
  truthy (dappId cfg) = false ->
  exists e w',
    init env (Some cfg) w = (Throw e, w') /\
    eventCode_of e = Some "initFail" /\
    trace w' = trace w ++ [OCollab openWebsocketConnection [];
                           OEvent missing_key_event None] /\
    validApiKey (state w') = false.
Proof.
  intros Hkey. unfold init. cbn. rewrite Hkey. cbn.
  eexists _, _. split; [reflexivity|].
  split; [reflexivity|]. split; [|reflexivity].
  simpl. by rewrite <- app_assoc.
Qed.

(** [init({})]. *)
Lemma init_without_api_key_witness :
  exists e w',
    init quiet (Some empty_config) (world_of blank_state) = (Throw e, w') /\
    eventCode_of e = Some "initFail" /\
    trace w' = [OCollab openWebsocketConnection [];
                OEvent missing_key_event None] /\
    validApiKey (state w') = false.
Proof.
  apply (init_without_api_key quiet (world_of blank_state) empty_config).
  reflexivity.
Defined.

(** ** Calls, events and settlements as trace extensions *)

Ltac mstep := erewrite bind_Ok by reflexivity; cbn beta.

Lemma callee_function w l :
  is_function w l -> callee (VRef l) w = (Ok l, w).
Proof.
  intros (o & c & Ho & Hc). unfold callee. mstep.
  rewrite Ho. destruct o as [? ? ?]. simpl in Hc. by rewrite Hc.
Qed.

Lemma extend_extend t1 t2 w : extend t2 (extend t1 w) = extend (t1 ++ t2) w.
Proof. unfold extend. simpl. by rewrite app_assoc. Qed.

Lemma call_function_runs env w l args :
  is_function w l ->
  call_function env (VRef l) args w
  = (fun_result env l args, extend [OCall l args] w).
Proof.
  intros Hl. unfold call_function.
  erewrite bind_Ok by (by apply callee_function).
  mstep. reflexivity.
Qed.

Lemma is_function_extend t w l : is_function (extend t w) l <-> is_function w l.
Proof. reflexivity. Qed.

Lemma handleEvent_runs e h w :
  handleEvent e h w = (Ok tt, extend [OEvent e h] w).
Proof. reflexivity. Qed.

Lemma resolve_runs p v w :
  resolve p v w = (Ok tt, run_settles p [Fulfilled v] w).
Proof. reflexivity. Qed.

Lemma reject_runs p e w :
  reject p e w = (Ok tt, run_settles p [Rejected e] w).
Proof. reflexivity. Qed.

Ltac finish_query :=
  erewrite bind_Ok by apply handleEvent_runs;
  rewrite ?extend_extend, resolve_runs; reflexivity.

Lemma and_call_function env w l args :
  is_function w l ->
  and_call env (VRef l) args w
  = (fun_result env l args, extend [OCall l args] w).
Proof. intros Hl. unfold and_call. simpl. by apply call_function_runs. Qed.

Lemma and_call_falsy env w callback args :
  truthy callback = false ->
  and_call env callback args w = (Ok callback, w).
Proof. intros H. unfold and_call. by rewrite H. Qed.

Lemma legacy_call_resume_falsy env w p callback methodABI args r :
  truthy r = false ->
  legacy_call_resume env p callback methodABI args (Fulfilled r) w
  = (Ok tt, run_settles p [Fulfilled VUndef]
              (extend [OEvent (query_event methodABI args (JSON_stringify env r)) None] w)).
Proof.
  intros Hr. unfold legacy_call_resume, try_catch.
  mstep. rewrite Hr. mstep. finish_query.
Qed.

Lemma legacy_call_resume_success env w p cb methodABI args r v :
  truthy r = true ->
  is_function w cb ->
  fun_result env cb [VNull; r] = Ok v ->
  legacy_call_resume env p (VRef cb) methodABI args (Fulfilled r) w
  = (Ok tt,
     run_settles p [Fulfilled VUndef]
       (extend [OCall cb [VNull; r];
                OEvent (query_event methodABI args (JSON_stringify env r))
                  None] w)).
Proof.
  intros Hr Hcb Hret. unfold legacy_call_resume, try_catch.
  mstep. rewrite Hr. cbn [when].
  erewrite bind_Ok.
  2:{ erewrite bind_Ok; [reflexivity|].
      rewrite and_call_function by done. by rewrite Hret. }
  finish_query.
Qed.

Lemma legacy_call_resume_no_callback env w p callback methodABI args r :
  truthy callback = false ->
  legacy_call_resume env p callback methodABI args (Fulfilled r) w
  = (Ok tt,
     run_settles p [Fulfilled VUndef]
       (extend [OEvent (query_event methodABI args (JSON_stringify env r))
                  None] w)).
Proof.
  intros Hcb. unfold legacy_call_resume, try_catch.
  mstep. destruct (truthy r); cbn [when].
  - erewrite bind_Ok.
    2:{ erewrite bind_Ok; [reflexivity|]. by apply and_call_falsy. }
    finish_query.
  - mstep. finish_query.
Qed.

Lemma legacy_call_resume_failure env w p cb methodABI args e v :
  is_function w cb ->
  fun_result env cb [e] = Ok v ->
  truthy v = false ->
  legacy_call_resume env p (VRef cb) methodABI args (Rejected e) w
  = (Ok tt,
     run_settles p [Fulfilled VUndef]
       (extend [OCall cb [e];
                OEvent (query_event methodABI args (JSON_stringify env v))
                  None] w)).
Proof.
  intros Hcb Hret Hv. unfold legacy_call_resume, try_catch.
  erewrite bind_Ok.
  2:{ simpl. rewrite and_call_function by done. by rewrite Hret. }
  rewrite Hv. mstep. finish_query.
Qed.

Lemma legacy_call_resume_failure_no_callback env w p callback methodABI args e :
  truthy callback = false ->
  legacy_call_resume env p callback methodABI args (Rejected e) w
  = (Ok tt,
     run_settles p [Fulfilled VUndef]
       (extend [OEvent (query_event methodABI args
                          (JSON_stringify env callback)) None] w)).
Proof.
  intros Hcb. unfold legacy_call_resume, try_catch.
  erewrite bind_Ok by (simpl; by apply and_call_falsy).
  rewrite Hcb. mstep. finish_query.
Qed.

(** The value the rejection handler of [.call] leaks into [result]. *)
Lemma legacy_call_resume_failure_leak env w p cb methodABI args e v v' :
  is_function w cb ->
  fun_result env cb [e] = Ok v ->
  truthy v = true ->
  fun_result env cb [VNull; v] = Ok v' ->
  legacy_call_resume env p (VRef cb) methodABI args (Rejected e) w
  = (Ok tt,
     run_settles p [Fulfilled VUndef]
       (extend [OCall cb [e]; OCall cb [VNull; v];
                OEvent (query_event methodABI args (JSON_stringify env v))
                  None] w)).
Proof.
  intros Hcb Hret Hv Hret'. unfold legacy_call_resume, try_catch.
  erewrite bind_Ok.
  2:{ simpl. rewrite and_call_function by done. by rewrite Hret. }
  rewrite Hv. cbn [when].
  erewrite bind_Ok.
  2:{ erewrite bind_Ok; [reflexivity|].
      rewrite and_call_function by done. by rewrite Hret'. }
  finish_query.
Qed.

(** C4 (as amended). When the API key is valid and the network supported,
    on a mobile device whose configuration does not set [mobileBlocked],
    [Contract] returns the very descriptor it was given, for every
    descriptor, and leaves the world untouched: no clone, no delegation, no
    event. *)
Theorem Contract_mobile_fast_path env cfg w contractObj :
  validApiKey (state w) = true ->
  supportedNetwork (state w) = true ->
  mobileDevice (state w) = true ->
  truthy (mobileBlocked cfg) = false ->
  Contract env cfg contractObj w = (Ok contractObj, w).
Proof.
  intros Hkey Hnet Hmobile Hblocked. unfold Contract.
  erewrite bind_Ok by reflexivity. cbn beta. rewrite Hkey. cbn [negb]. cbv iota.
  erewrite bind_Ok by reflexivity. cbn beta. rewrite Hnet. cbn [negb]. cbv iota.
  erewrite bind_Ok by reflexivity. cbn beta. rewrite Hmobile, Hblocked. reflexivity.

Qed.

Lemma onboard_interactive_mobile w cfg :
  config (state w) = Some cfg ->
  truthy (headlessMode cfg) = false ->
  validApiKey (state w) = true ->
  supportedNetwork (state w) = true ->
  mobileDevice (state w) = true ->
  onboard w = (Ok (length (promises w)), interactive_mobile_world w).
Proof.
  intros Hcfg Hheadless Hkey Hnet Hmobile. unfold onboard.
  erewrite bind_Ok by (unfold read_config; erewrite bind_Ok by reflexivity;
                       simpl; rewrite Hcfg; reflexivity).
  rewrite Hheadless.
  erewrite bind_Ok by reflexivity. cbn beta. rewrite Hkey. cbn [negb]. cbv iota.
  erewrite bind_Ok by reflexivity. cbn beta. rewrite Hnet. cbn [negb]. cbv iota.
  erewrite bind_Ok by reflexivity. cbn beta. rewrite Hmobile.
  do 5 (erewrite bind_Ok by reflexivity; cbn beta).
  unfold interactive_mobile_world. cbn.
  rewrite length_app. simpl. rewrite Nat.add_1_r.
  rewrite <- app_assoc. reflexivity.
Qed.

Lemma onClose_rejects env w p hook o args :
  heap w !! hook = Some o ->
  code o = Some (COnClose p) ->
  call env (VRef hook) args w = (Ok VUndef, run_settles p [Rejected mobile_error] w).
Proof.
  intros Hhook Hcode. unfold call.
  erewrite bind_Ok.
  2:{ unfold callee. erewrite bind_Ok by reflexivity. cbn beta.
      rewrite Hhook. destruct o as [? ? [c|]]; [reflexivity|discriminate]. }
  erewrite bind_Ok by reflexivity. cbn beta.
  rewrite Hhook. simpl. rewrite Hcode. reflexivity.
Qed.

(** ** [Transaction] and the legacy [.call] *)

Lemma Transaction_dispatches env w txObject callback send l :
  validApiKey (state w) = true ->
  supportedNetwork (state w) = true ->
  off_fast_path (state (configured env w)) ->
  eth_sendTransaction (configured env w) = (Ok send, configured env w) ->
  callee send (configured env w) = (Ok l, configured env w) ->
  Transaction env txObject callback w
  = (Ok (VPromise (length (promises w))),
     dispatched (configured env w) txObject callback send).
Proof.
  intros Hkey Hnet Hfast Hsend Hfn. unfold Transaction.
  mstep. rewrite Hkey. cbn [negb]. cbv iota.
  mstep. rewrite Hnet. cbn [negb]. cbv iota.
  mstep.
  assert (Hconf : when (negb (truthy (web3Instance (state w))))
                    (call_collab env configureWeb3 []) w
                  = (Ok tt, configured env w)).
  { unfold configured. by destruct (truthy (web3Instance (state w))). }
  erewrite bind_Ok by exact Hconf.
  assert (Hp : promises (configured env w) = promises w).
  { unfold configured. by destruct (truthy (web3Instance (state w))). }
  set (w0 := configured env w) in *. clearbody w0.
  mstep.
  erewrite bind_Ok.
  2:{ destruct Hfast as [Hm|(cfg & Hcfg & Hb)].
      - rewrite Hm. reflexivity.
      - destruct (mobileDevice (state w0)); [|reflexivity].
        erewrite bind_Ok.
        2:{ unfold read_config. mstep. rewrite Hcfg. reflexivity. }
        rewrite Hb. reflexivity. }
  cbv iota. mstep.
  unfold dispatched, dispatched_heap, send_method. rewrite <- Hp.
  destruct (legacyWeb3 (state w0)).
  - erewrite bind_Ok.
    2:{ erewrite bind_Ok by exact Hsend. unfold promisify.
        erewrite bind_Ok by exact Hfn. reflexivity. }
    do 3 mstep. reflexivity.
  - erewrite bind_Ok by exact Hsend.
    do 3 mstep. reflexivity.
Qed.

Lemma Transaction_resume_fulfilled env w p callback r :
  Transaction_resume env p callback (Fulfilled r) w
  = (Ok tt, run_settles p [Fulfilled r] w).
Proof. reflexivity. Qed.


Lemma configured_frame env w :
  promises (configured env w) = promises w /\
  tasks (configured env w) = tasks w /\
  heap (configured env w) = heap w.
Proof. unfold configured. by destruct (truthy (web3Instance (state w))). Qed.

Lemma is_function_prefix w w' l :
  (exists rest, heap w' = heap w ++ rest) ->
  is_function w l -> is_function w' l.
Proof.
  intros [rest Hh] (o & c & Ho & Hc). exists o, c. split; [|done].
  rewrite Hh. apply lookup_app_l_Some. done.
Qed.




(** C3 (the code at the failing input). A legacy contract method whose
    read-only call succeeds with [false], invoked as
    [contract.transfer.call(address, amount, callback)]: the provider
    primitive is called, the [contractQuery] event is emitted once with the
    serialized result, and the supplied callback (location 5) is not
    called at all. *)
Theorem call_skips_callback_on_falsy_result :
  trace (transfer_call_scenario quiet (Fulfilled (VBool false))
           (provider_world true)).2
  = [OCall 1 [VStr "0xa11ce"; VNum 5; VUndef; VUndef];
     OEvent (query_event transfer_abi [VStr "0xa11ce"; VNum 5]
               (VStr "false")) None;
     OSettle 0 (Fulfilled VUndef)].
Proof. reflexivity. Qed.

(** With a truthy result the same invocation does call the callback with
    [(null, result)]. *)
Lemma call_invokes_callback_on_truthy_result :
  trace (transfer_call_scenario quiet (Fulfilled (VBool true))
           (provider_world true)).2
  = [OCall 1 [VStr "0xa11ce"; VNum 5; VUndef; VUndef];
     OCall 5 [VNull; VBool true];
     OEvent (query_event transfer_abi [VStr "0xa11ce"; VNum 5]
               (VStr "true")) None;
     OSettle 0 (Fulfilled VUndef)].
Proof. reflexivity. Qed.

(** X18. On the legacy [.call] path, when the promisified provider call
    rejects and no callback was supplied, or the supplied callback returns
    [undefined], the rejection is absorbed: the callback, if any, is called
    with the error, nothing is thrown, the [contractQuery] event is emitted
    all the same, its [result] being the serialization of [undefined], and
    the promise of the call is then resolved. *)
Theorem call_rejection_still_emits_query env w p callback methodABI args e :
  callback = VUndef \/
  (exists cb, callback = VRef cb /\ is_function w cb /\
              fun_result env cb [e] = Ok VUndef) ->
  legacy_call_resume env p callback methodABI args (Rejected e) w
  = (Ok tt,
     run_settles p [Fulfilled VUndef]
       (extend (absorbed callback e ++
                [OEvent (query_event methodABI args
                           (JSON_stringify env VUndef)) None]) w)).
Proof.
  intros [->|(cb & -> & Hcb & Hret)].
  - by rewrite legacy_call_resume_failure_no_callback.
  - by rewrite (legacy_call_resume_failure env w p cb _ _ e VUndef).
Qed.

Lemma call_rejection_still_emits_query_witness :
  legacy_call_resume quiet 0 (VRef 5) transfer_abi [VStr "0xa11ce"; VNum 5]
    (Rejected (TypeError "revert")) (provider_world true)
  = (Ok tt,
     run_settles 0 [Fulfilled VUndef]
       (extend [OCall 5 [TypeError "revert"];
                OEvent (query_event transfer_abi [VStr "0xa11ce"; VNum 5]
                          VUndef) None] (provider_world true))).
Proof.
  apply (call_rejection_still_emits_query quiet (provider_world true) 0
           (VRef 5) transfer_abi [VStr "0xa11ce"; VNum 5]
           (TypeError "revert")).
  right. exists 5. split; [reflexivity|]. split; [|reflexivity].
  eexists _, _. split; reflexivity.
Defined.

(** C10 (the code at the failing input). The provider call rejects and the
    supplied callback returns [true]: the value the rejection handler
    returns becomes [result], so the callback is called a second time, as
    on a success, and the event carries the serialization of [true], which
    is not the one of [undefined]. *)
Lemma call_rejection_leaks_callback_result :
  trace (transfer_call_scenario chatty (Rejected (TypeError "revert"))
           (provider_world true)).2
  = [OCall 1 [VStr "0xa11ce"; VNum 5; VUndef; VUndef];
     OCall 5 [TypeError "revert"];
     OCall 5 [VNull; VBool true];
     OEvent (query_event transfer_abi [VStr "0xa11ce"; VNum 5]
               (VStr "true")) None;
     OSettle 0 (Fulfilled VUndef)] /\
  JSON_stringify chatty VUndef <> VStr "true".
Proof. split; [reflexivity|discriminate]. Qed.

(** ** [Contract] *)

Lemma assoc_set_same k v ps : assoc k (assoc_set k v ps) = Some v.
Proof.
  induction ps as [|[k' v'] ps IH]; simpl.
  - by rewrite String.eqb_refl.
  - destruct (String.eqb k' k) eqn:E; simpl.
    + by rewrite String.eqb_refl.
    + by rewrite E.
Qed.

Lemma assoc_set_other k k' v ps :
  k <> k' -> assoc k' (assoc_set k v ps) = assoc k' ps.
Proof.
  intros Hne. induction ps as [|[k0 v0] ps IH]; simpl.
  - destruct (String.eqb k k') eqn:E; [|done].
    by apply String.eqb_eq in E.
  - destruct (String.eqb k0 k) eqn:E; simpl.
    + apply String.eqb_eq in E as ->.
      destruct (String.eqb k k') eqn:E'; [|done].
      by apply String.eqb_eq in E'.
    + by rewrite IH.
Qed.

Lemma assoc_own_key k ps : k ∈ ps.*1 -> is_Some (assoc k ps).
Proof.
  induction ps as [|[k' v'] ps IH]; simpl.
  - by intros ?%elem_of_nil.
  - intros [->|Hin]%elem_of_cons.
    + by rewrite String.eqb_refl.
    + destruct (String.eqb k' k); [done|]. by apply IH.
Qed.

Lemma lookup_chain_own fuel h l o k v :
  h !! l = Some o -> assoc k (props o) = Some v ->
  lookup_chain (S fuel) h (VRef l) k = v.
Proof. intros Hl Hk. simpl. by rewrite Hl, Hk. Qed.

Lemma get_member_own w l o k v :
  heap w !! l = Some o -> assoc k (props o) = Some v ->
  get_member (VRef l) k w = (Ok v, w).
Proof.
  intros Hl Hk. unfold get_member, reads, read.
  by rewrite (lookup_chain_own _ _ _ _ _ _ Hl Hk).
Qed.

Lemma get_member_ref w l k :
  get_member (VRef l) k w
  = (Ok (lookup_chain (S (length (heap w))) (heap w) (VRef l) k), w).
Proof. reflexivity. Qed.

Lemma alloc_runs o w :
  alloc o w = (Ok (VRef (length (heap w))), set_heap (heap w ++ [o]) w).
Proof. reflexivity. Qed.

Lemma set_member_runs l k v w :
  set_member (VRef l) k v w
  = (Ok tt, set_heap (alter (with_prop k v) l (heap w)) w).
Proof. reflexivity. Qed.

(** Reading any property of a value either yields a value or throws, and
    leaves the world as it is. *)
Lemma get_member_pure v k w : (get_member v k w).2 = w.
Proof. reflexivity. Qed.

Lemma heap_written l k v w j :
  heap (set_heap (alter (with_prop k v) l (heap w)) w) !! j
  = if decide (l = j) then with_prop k v <$> heap w !! l else heap w !! j.
Proof. simpl. apply list_lookup_alter. Qed.

Lemma heap_allocated o w j :
  j < length (heap w) ->
  heap (set_heap (heap w ++ [o]) w) !! j = heap w !! j.
Proof. intros Hj. simpl. by apply lookup_app_l. Qed.

Lemma heap_allocated_new o w :
  heap (set_heap (heap w ++ [o]) w) !! length (heap w) = Some o.
Proof. simpl. by apply list_lookup_middle. Qed.

Lemma names_key_name k m : names_key k m = true -> key_of (abi_name m) = k.
Proof.
  unfold names_key. destruct (abi_name m) as [n|]; [|done].
  by intros ->%String.eqb_eq.
Qed.

Lemma writes_only_refl c w : writes_only c w w.
Proof. by split. Qed.

Lemma writes_only_trans c w1 w2 w3 :
  writes_only c w1 w2 -> writes_only c w2 w3 -> writes_only c w1 w3.
Proof.
  intros [Hl1 H1] [Hl2 H2]. split; [lia|].
  intros j Hj Hc. rewrite H2 by (done || lia). by apply H1.
Qed.

Lemma writes_only_alloc c o w :
  writes_only c w (set_heap (heap w ++ [o]) w).
Proof.
  split; [simpl; rewrite length_app; lia|].
  intros j Hj _. by apply heap_allocated.
Qed.

Lemma writes_only_clone c k v w :
  writes_only c w (set_heap (alter (with_prop k v) c (heap w)) w).
Proof.
  split; [simpl; by rewrite length_alter|].
  intros j Hj Hc. simpl. by apply list_lookup_alter_ne.
Qed.

Lemma legacy_key_step w l c o oc k vk es w' :
  heap w !! l = Some o -> heap w !! c = Some oc -> l <> c ->
  assoc k (props o) = Some vk ->
  legacy_key (VRef l) (VAbi es) (VRef c) k w = (Ok tt, w') ->
  writes_only c w w' /\
  exists x, heap w' !! c = Some (with_prop k x oc) /\
            (find (names_key k) es = None -> x = vk).
Proof.
  intros Hl Hc Hlc Hk. unfold legacy_key, abi_find. mstep.
  destruct (find (names_key k) es) as [m|] eqn:Hfind.
  - apply find_some in Hfind as [_ Hname%names_key_name].
    rewrite Hname.
    erewrite bind_Ok by (by eapply get_member_own).
    unfold alloc_function.
    erewrite bind_Ok by apply alloc_runs.
    erewrite bind_Ok by apply set_member_runs.
    set (f := length (heap w)).
    assert (Hcf : c < f) by (by eapply lookup_lt_Some).
    assert (Hlf : l < f) by (by eapply lookup_lt_Some).
    set (w1 := set_heap (alter _ c _) _).
    assert (H1 : writes_only c w w1).
    { eapply writes_only_trans; [apply writes_only_alloc|].
      apply writes_only_clone. }
    assert (H1c : heap w1 !! c = Some (with_prop k (VRef f) oc)).
    { unfold w1. rewrite heap_written, decide_True by done.
      by rewrite heap_allocated, Hc by done. }
    assert (H1f : exists fo, heap w1 !! f = Some fo).
    { unfold w1. rewrite heap_written, decide_False by lia.
      unfold f. rewrite heap_allocated_new. eauto. }
    assert (H1len : length (heap w1) = S f).
    { unfold w1. simpl. by rewrite length_alter, length_app, Nat.add_1_r. }
    clearbody w1.
    (* writes to the fresh function object *)
    assert (Hfresh : forall w2 key v,
      writes_only c w w2 -> heap w2 !! c = Some (with_prop k (VRef f) oc) ->
      f < length (heap w2) ->
      let w3 := set_heap (alter (with_prop key v) f (heap w2)) w2 in
      writes_only c w w3 /\ heap w3 !! c = Some (with_prop k (VRef f) oc) /\
      f < length (heap w3)).
    { intros w2 key v [Hlen Hold] Hcl Hf. simpl. repeat split.
      - simpl. by rewrite length_alter.
      - intros j Hj Hjc. simpl. rewrite list_lookup_alter_ne by (unfold f; lia).
        by apply Hold.
      - rewrite list_lookup_alter_ne by lia. done.
      - by rewrite length_alter. }
    assert (Hgrow : forall w2 ob,
      writes_only c w w2 -> heap w2 !! c = Some (with_prop k (VRef f) oc) ->
      f < length (heap w2) ->
      let w3 := set_heap (heap w2 ++ [ob]) w2 in
      writes_only c w w3 /\ heap w3 !! c = Some (with_prop k (VRef f) oc) /\
      f < length (heap w3)).
    { intros w2 ob Hw Hcl Hf. repeat split.
      - simpl. rewrite length_app. destruct Hw. lia.
      - intros j Hj Hjc. rewrite heap_allocated by (destruct Hw; lia).
        by apply Hw.
      - rewrite heap_allocated by (by eapply lookup_lt_Some). done.
      - simpl. rewrite length_app. lia. }
    assert (Htarget : forall w2,
      heap w2 !! c = Some (with_prop k (VRef f) oc) ->
      get_member (VRef c) k w2 = (Ok (VRef f), w2)).
    { intros w2 Hcl. eapply get_member_own; [done|]. apply assoc_set_same. }
    erewrite bind_Ok by (by apply Htarget).
    erewrite bind_Ok by apply alloc_runs.
    erewrite bind_Ok by apply set_member_runs.
    destruct (Hgrow w1 {| proto := VNull; props := []; code := Some (CLegacyCall vk m) |}
                H1 H1c ltac:(lia)) as (H2 & H2c & H2f).
    destruct (Hfresh _ "call" (VRef (length (heap w1))) H2 H2c H2f) as (H3 & H3c & H3f).
    set (w3 := set_heap (alter _ f _) _) in *. clearbody w3. clear H2 H2c H2f.
    erewrite bind_Ok by (by apply Htarget).
    erewrite bind_Ok by apply alloc_runs.
    erewrite bind_Ok by apply set_member_runs.
    destruct (Hgrow w3 {| proto := VNull; props := []; code := Some (CLegacySend vk m) |}
                H3 H3c H3f) as (H4 & H4c & H4f).
    destruct (Hfresh _ "sendTransaction" (VRef (length (heap w3))) H4 H4c H4f)
      as (H5 & H5c & H5f).
    set (w5 := set_heap (alter _ f _) _) in *. clearbody w5. clear H4 H4c H4f.
    erewrite bind_Ok by (by apply Htarget).
    assert (H5l : heap w5 !! l = Some o).
    { destruct H5 as [_ H5]. rewrite H5 by done. done. }
    erewrite bind_Ok by (by eapply get_member_own).
    destruct (get_member vk "getData" w5) as [[g|x] w6] eqn:Hget.
    + assert (w6 = w5) as -> by (by rewrite <- (get_member_pure vk "getData" w5), Hget).
      erewrite bind_Ok by exact Hget.
      rewrite set_member_runs. intros [= <-].
      destruct (Hfresh _ "getData" g H5 H5c H5f) as (H6 & H6c & _).
      split; [done|]. exists (VRef f). split; [done|]. discriminate.
    + erewrite bind_Throw by exact Hget. discriminate.
  - erewrite bind_Ok by (by eapply get_member_own).
    rewrite set_member_runs. intros [= <-].
    split; [apply writes_only_clone|].
    exists vk. split; [|done].
    by rewrite heap_written, decide_True, Hc.
Qed.

Lemma absent_lookup h k v fuel :
  absent h k v -> lookup_chain fuel h v k = VUndef.
Proof.
  intros Habs. revert fuel.
  induction Habs as [v Hv|l o Hl Hk _ IH]; intros [|fuel]; simpl; try done.
  - destruct v; try done. by destruct (Hv l).
  - by rewrite Hl, Hk.
Qed.

Lemma absent_frame h h' k v :
  (forall j, j < length h -> h' !! j = h !! j) ->
  absent h k v -> absent h' k v.
Proof.
  intros Hold Habs. induction Habs as [v Hv|l o Hl Hk _ IH].
  - by apply absent_end.
  - eapply absent_step; [|done..].
    rewrite Hold; [done|]. by eapply lookup_lt_Some.
Qed.

Lemma for_each_app {A} (l1 l2 : list A) (f : A -> M unit) w :
  for_each (l1 ++ l2) f w
  = (for_each l1 f;; for_each l2 f) w.
Proof.
  revert w. induction l1 as [|x l1 IH]; intros w; simpl.
  - reflexivity.
  - unfold mbind, M_bind. destruct (f x w) as [[[]|e] w1]; [|done].
    apply IH.
Qed.

Lemma bind_Ok_inv {A B} (m : M A) (f : A -> M B) w b w' :
  (m ≫= f) w = (Ok b, w') ->
  exists a w1, m w = (Ok a, w1) /\ f a w1 = (Ok b, w').
Proof.
  unfold mbind, M_bind. destruct (m w) as [[a|e] w1]; [eauto|discriminate].
Qed.

(** The loop over the own keys, for a reducer that writes the clone at the
    key it is given and otherwise only objects of its own. *)
Lemma key_loop (body : string -> M unit) (pass : string -> Prop)
    l c o keys :
  l <> c ->
  (forall w oc k vk w',
     heap w !! l = Some o -> heap w !! c = Some oc ->
     assoc k (props o) = Some vk ->
     body k w = (Ok tt, w') ->
     writes_only c w w' /\
     exists x, heap w' !! c = Some (with_prop k x oc) /\
               (pass k -> x = vk)) ->
  forall w oc w',
    heap w !! l = Some o -> heap w !! c = Some oc ->
    (forall k, k ∈ keys -> is_Some (assoc k (props o))) ->
    for_each keys body w = (Ok tt, w') ->
    writes_only c w w' /\
    exists oc', heap w' !! c = Some oc' /\
      forall k vk, assoc k (props o) = Some vk -> pass k ->
        k ∈ keys \/ assoc k (props oc) = Some vk ->
        assoc k (props oc') = Some vk.
Proof.
  intros Hlc Hbody. induction keys as [|k0 keys IH]; intros w oc w' Hl Hc Hown.
  - simpl. intros [= <-]. split; [apply writes_only_refl|].
    exists oc. split; [done|]. intros k vk _ _ [Hin|?]; [|done].
    by apply elem_of_nil in Hin.
  - simpl. intros (a & w1 & Hstep & Hrest)%bind_Ok_inv. destruct a.
    destruct (Hown k0 ltac:(left)) as [v0 Hv0].
    destruct (Hbody w oc k0 v0 w1 Hl Hc Hv0 Hstep) as (Hw1 & x & Hc1 & Hx).
    assert (Hl1 : heap w1 !! l = Some o).
    { destruct Hw1 as [_ Hold]. rewrite Hold; [done| |done].
      by eapply lookup_lt_Some. }
    destruct (IH w1 _ w' Hl1 Hc1) as (Hw' & oc' & Hc' & Hfinal); [|done|].
    { intros k Hk. apply Hown. by right. }
    split; [by eapply writes_only_trans|].
    exists oc'. split; [done|].
    intros k vk Hk Hpass Hcase. apply Hfinal; [done..|].
    destruct (decide (k = k0)) as [->|Hne].
    + right. simpl. rewrite assoc_set_same. f_equal.
      rewrite Hv0 in Hk. injection Hk as <-. by apply Hx.
    + destruct Hcase as [[->|Hin]%elem_of_cons|Hold]; [done|by left|].
      right. simpl. by rewrite assoc_set_other.
Qed.

Lemma get_member_defined v k w :
  v <> VUndef -> v <> VNull ->
  get_member v k w
  = (Ok (lookup_chain (S (length (heap w))) (heap w) v k), w).
Proof. by destruct v. Qed.

Lemma method_entry_runs w l o vm mm e :
  heap w !! l = Some o -> assoc "methods" (props o) = Some vm ->
  vm <> VUndef -> vm <> VNull ->
  method_entry (VRef l) (VRef mm) e w
  = (Ok tt,
     set_heap
       (alter (with_prop (key_of (abi_name e)) (VRef (length (heap w)))) mm
          (heap w ++
           [ {| proto := VNull; props := [];
                code := Some (CModernFn
                                (lookup_chain (S (length (heap w))) (heap w)
                                   vm (key_of (abi_name e))) e) |} ]))
       w).
Proof.
  intros Hl Hm Hu Hn. unfold method_entry.
  erewrite bind_Ok by (by eapply get_member_own).
  erewrite bind_Ok by (by apply get_member_defined).
  unfold alloc_function. erewrite bind_Ok by apply alloc_runs.
  rewrite set_member_runs. simpl. reflexivity.
Qed.

(** The loop of [abi.reduce]: it never throws, it writes only the new
    object [mm] and what it allocates, and an entry named [n], a name the
    method mapping does not have, leaves under [n] a handle that captured
    [undefined]. *)
Lemma methods_loop h0 l o vm c mm n entries :
  h0 !! l = Some o ->
  assoc "methods" (props o) = Some vm ->
  vm <> VUndef -> vm <> VNull ->
  absent h0 n vm ->
  length h0 <= c -> c < mm ->
  forall w,
    keeps h0 w ->
    (exists om, heap w !! mm = Some om /\ code om = None) ->
    exists w',
      for_each entries (method_entry (VRef l) (VRef mm)) w = (Ok tt, w') /\
      length (heap w) <= length (heap w') /\
      (forall j, j < length (heap w) -> j <> mm ->
                 heap w' !! j = heap w !! j) /\
      (exists om, heap w' !! mm = Some om /\ code om = None) /\
      state w' = state w /\ promises w' = promises w /\
      tasks w' = tasks w /\ trace w' = trace w /\
      ((exists e, e ∈ entries /\ key_of (abi_name e) = n) \/
       handle_at c w mm n -> handle_at c w' mm n).
Proof.
  intros Hl0 Hm Hu Hnull Habs Hc Hcm.
  assert (Hl0' : l < length h0) by (by eapply lookup_lt_Some).
  induction entries as [|e entries IH]; intros w Hkeep (om & Hmm & Hcode).
  - exists w. simpl. repeat split; try done; [eauto|].
    intros [(e & Hin & _)|H]; [|done]. by apply elem_of_nil in Hin.
  - assert (Hl : heap w !! l = Some o) by (by rewrite Hkeep).
    simpl. erewrite bind_Ok by (by eapply method_entry_runs).
    set (f := length (heap w)).
    set (mv := lookup_chain _ _ _ _).
    set (w1 := set_heap _ w).
    assert (Hmmf : mm < f) by (by eapply lookup_lt_Some).
    assert (Hlen : length (heap w1) = S f).
    { unfold w1. simpl. by rewrite length_alter, length_app, Nat.add_1_r. }
    assert (Hold : forall j, j < f -> j <> mm -> heap w1 !! j = heap w !! j).
    { intros j Hj Hjm. unfold w1. simpl.
      rewrite list_lookup_alter_ne by done. by apply lookup_app_l. }
    assert (Hmm1 : heap w1 !! mm
                   = Some (with_prop (key_of (abi_name e)) (VRef f) om)).
    { unfold w1. simpl. rewrite list_lookup_alter_eq.
      by rewrite lookup_app_l, Hmm by done. }
    assert (Hf1 : heap w1 !! f
                  = Some {| proto := VNull; props := [];
                            code := Some (CModernFn mv e) |}).
    { unfold w1. simpl. rewrite list_lookup_alter_ne by lia.
      by apply list_lookup_middle. }
    assert (Hkeep1 : keeps h0 w1).
    { intros j Hj. rewrite Hold by lia. by apply Hkeep. }
    destruct (IH w1 Hkeep1) as (w' & Hrun & Hlen' & Hold' & Hmm' & Hst & Hps
                                   & Hts & Htr & Hhandle).
    { eexists. split; [exact Hmm1|done]. }
    exists w'. split; [exact Hrun|].
    split; [lia|]. split.
    { intros j Hj Hjm. rewrite Hold' by lia. by apply Hold. }
    split; [done|]. do 4 (split; [done|]).
    intros Hcase. apply Hhandle.
    destruct (decide (key_of (abi_name e) = n)) as [Hen|Hen].
    + right. eexists _, f, _, e.
      split; [exact Hmm1|]. split; [done|]. split.
      { simpl. rewrite Hen. apply assoc_set_same. }
      split; [exact Hf1|]. split.
      { simpl. do 2 f_equal. unfold mv. rewrite Hen.
        apply absent_lookup. eapply absent_frame; [|done]. exact Hkeep. }
      split; [done|]. split; lia.
    + destruct Hcase as [(e1 & [->|Hin]%elem_of_cons & He1)|Hh]; [done|eauto|].
      right. destruct Hh as (om' & f' & fo & e' & Hom & _ & Hn & Hf' & Hfo
                                & He' & ? & ?).
      rewrite Hmm in Hom. injection Hom as <-.
      assert (f' <> mm).
      { intros ->. rewrite Hmm in Hf'. injection Hf' as <-. congruence. }
      exists (with_prop (key_of (abi_name e)) (VRef f) om), f', fo, e'.
      split; [done|]. split; [done|]. split.
      { simpl. by rewrite assoc_set_other. }
      split; [|done].
      rewrite Hold; [done| |done]. by eapply lookup_lt_Some.
Qed.

Lemma get_member_inv v k w r w' :
  get_member v k w = (r, w') -> w' = w.
Proof. intros H. by rewrite <- (get_member_pure v k w), H. Qed.

Lemma method_entry_frame cobj mm e w w' :
  method_entry cobj (VRef mm) e w = (Ok tt, w') ->
  writes_only mm w w'.
Proof.
  unfold method_entry.
  intros (methods & w1 & H1 & H)%bind_Ok_inv.
  apply get_member_inv in H1 as ->.
  apply bind_Ok_inv in H as (method & w2 & H2 & H).
  apply get_member_inv in H2 as ->.
  unfold alloc_function in H. rewrite (bind_Ok _ _ _ _ _ (alloc_runs _ _)) in H.
  rewrite set_member_runs in H. injection H as <-.
  eapply writes_only_trans; [apply writes_only_alloc|].
  apply writes_only_clone.
Qed.

Lemma methods_loop_frame cobj mm entries w w' :
  for_each entries (method_entry cobj (VRef mm)) w = (Ok tt, w') ->
  writes_only mm w w'.
Proof.
  revert w. induction entries as [|e entries IH]; intros w; simpl.
  - intros [= <-]. apply writes_only_refl.
  - intros ([] & w1 & H1 & H)%bind_Ok_inv.
    eapply writes_only_trans; [by eapply method_entry_frame|by apply IH].
Qed.

Lemma modern_key_step w l c o oc k vk abi w' :
  heap w !! l = Some o -> heap w !! c = Some oc -> l <> c ->
  assoc k (props o) = Some vk ->
  modern_key (VRef l) abi (VRef c) k w = (Ok tt, w') ->
  writes_only c w w' /\
  exists x, heap w' !! c = Some (with_prop k x oc) /\
            (k <> "methods" -> x = vk).
Proof.
  intros Hl Hc Hlc Hk. unfold modern_key.
  destruct (String.eqb k "methods") eqn:E; cbn [negb]; cbv iota.
  - apply String.eqb_eq in E as ->.
    destruct abi as [| | | | | | | | |entries| |]; try (intros [=]; fail).
    erewrite bind_Ok by apply alloc_runs.
    set (mm := length (heap w)).
    set (w1 := set_heap _ w).
    intros ([] & w2 & Hloop & Hset)%bind_Ok_inv.
    apply methods_loop_frame in Hloop as [Hlen Hold].
    rewrite set_member_runs in Hset. injection Hset as <-.
    assert (Hcm : c < mm) by (by eapply lookup_lt_Some).
    assert (Hlen1 : length (heap w1) = S mm).
    { unfold w1. simpl. by rewrite length_app, Nat.add_1_r. }
    split.
    + split; [simpl; rewrite length_alter; lia|].
      intros j Hj Hjc. simpl. rewrite list_lookup_alter_ne by done.
      rewrite Hold by lia. by apply heap_allocated.
    + exists (VRef mm). split; [|done].
      simpl. rewrite list_lookup_alter_eq, Hold by lia.
      unfold w1. by rewrite heap_allocated, Hc.
  - erewrite bind_Ok by (by eapply get_member_own).
    rewrite set_member_runs. intros [= <-].
    split; [apply writes_only_clone|].
    exists vk. split; [|done].
    by rewrite heap_written, decide_True, Hc.
Qed.

Lemma configured_heap env w : heap (configured env w) = heap w.
Proof. unfold configured. by destruct (truthy (web3Instance (state w))). Qed.

(** Past its gates, [Contract] is the loop over the own keys of the
    descriptor, on a fresh clone that it returns. *)
Lemma Contract_constructs env cfg w l o abi :
  validApiKey (state w) = true ->
  supportedNetwork (state w) = true ->
  mobileDevice (state w) && negb (truthy (mobileBlocked cfg)) = false ->
  truthy (web3Instance (state w)) = true \/ window_web3 w = true ->
  heap w !! l = Some o ->
  resolve_abi (VRef l) (heap w) = Ok abi ->
  Contract env cfg (VRef l) w
  = (for_each (props o).*1
       (key_reducer (legacyWeb3 (state (configured env w))) (VRef l) abi
          (VRef (length (heap w))));;
     mret (VRef (length (heap w)))) (cloning env w o).
Proof.
  intros Hkey Hnet Hfast Hweb3 Hl Habi. unfold Contract.
  mstep. rewrite Hkey. cbn [negb]. cbv iota.
  mstep. rewrite Hnet. cbn [negb]. cbv iota.
  mstep. rewrite Hfast.
  mstep.
  assert (Hconf : when (negb (truthy (web3Instance (state w))))
                    (has_web3 ← gets window_web3;
                     if (has_web3 : bool) then call_collab env configureWeb3 []
                     else throw (tagged_error
                                   "A web3 instance is needed to decorate contract"
                                   "initFail")) w
                  = (Ok tt, configured env w)).
  { unfold configured. destruct (truthy (web3Instance (state w))) eqn:E; [done|].
    destruct Hweb3 as [?|Hwin]; [done|]. simpl. mstep. by rewrite Hwin. }
  erewrite bind_Ok by exact Hconf.
  pose proof (configured_heap env w) as Hh.
  mstep.
  erewrite bind_Ok by (unfold reads; rewrite Hh, Habi; reflexivity).
  erewrite bind_Ok.
  2:{ unfold getPrototypeOf. mstep. by rewrite Hh, Hl. }
  erewrite bind_Ok by apply alloc_runs.
  erewrite bind_Ok.
  2:{ unfold own_keys. mstep. cbn [heap set_heap].
      rewrite lookup_app_l by (rewrite Hh; by eapply lookup_lt_Some).
      by rewrite Hh, Hl. }
  rewrite Hh. reflexivity.
Qed.

(** A [Contract] that returns has passed its gates. *)
Lemma Contract_returned env cfg w l o wrapped w' :
  heap w !! l = Some o ->
  mobileDevice (state w) && negb (truthy (mobileBlocked cfg)) = false ->
  Contract env cfg (VRef l) w = (Ok wrapped, w') ->
  validApiKey (state w) = true /\
  supportedNetwork (state w) = true /\
  (truthy (web3Instance (state w)) = true \/ window_web3 w = true) /\
  exists abi, resolve_abi (VRef l) (heap w) = Ok abi.
Proof.
  intros Hl Hfast. unfold Contract.
  mstep. destruct (validApiKey (state w)); [|discriminate]. cbn [negb]. cbv iota.
  mstep. destruct (supportedNetwork (state w)); [|discriminate]. cbn [negb]. cbv iota.
  mstep. rewrite Hfast. mstep.
  intros H. do 2 (split; [done|]).
  assert (Hweb3 : truthy (web3Instance (state w)) = true \/ window_web3 w = true).
  { destruct (truthy (web3Instance (state w))); [by left|].
    destruct (window_web3 w) eqn:Hwin; [by right|].
    simpl in H. unfold mbind, M_bind in H. simpl in H. rewrite Hwin in H.
    discriminate. }
  split; [done|].
  destruct (resolve_abi (VRef l) (heap w)) as [abi|e] eqn:Habi; [eauto|].
  exfalso. revert H.
  assert (Hconf : when (negb (truthy (web3Instance (state w))))
                    (has_web3 ← gets window_web3;
                     if (has_web3 : bool) then call_collab env configureWeb3 []
                     else throw (tagged_error
                                   "A web3 instance is needed to decorate contract"
                                   "initFail")) w
                  = (Ok tt, configured env w)).
  { unfold configured. destruct (truthy (web3Instance (state w))) eqn:E; [done|].
    destruct Hweb3 as [?|Hwin]; [done|]. simpl. mstep. by rewrite Hwin. }
  erewrite bind_Ok by exact Hconf. mstep.
  erewrite bind_Throw; [discriminate|].
  unfold reads. by rewrite configured_heap, Habi.
Qed.

Lemma assoc_Some_key k v ps : assoc k ps = Some v -> k ∈ ps.*1.
Proof.
  induction ps as [|[k' v'] ps IH]; simpl; [done|].
  destruct (String.eqb k' k) eqn:E.
  - apply String.eqb_eq in E as ->. intros _. by left.
  - intros H. right. by apply IH.
Qed.

Lemma key_reducer_step legacy abi w l c o oc k vk w' :
  heap w !! l = Some o -> heap w !! c = Some oc -> l <> c ->
  assoc k (props o) = Some vk ->
  key_reducer legacy (VRef l) abi (VRef c) k w = (Ok tt, w') ->
  writes_only c w w' /\
  exists x, heap w' !! c = Some (with_prop k x oc) /\
            (passes_through legacy abi k -> x = vk).
Proof.
  intros Hl Hc Hlc Hk. unfold key_reducer, passes_through.
  destruct legacy.
  - destruct abi as [| | | | | | | | |es| |]; try (intros [=]; fail).
    intros H.
    destruct (legacy_key_step w l c o oc k vk es w' Hl Hc Hlc Hk H)
      as (Hw & x & Hx & Hpass).
    split; [done|]. exists x. split; [done|]. intros Hp. apply Hpass. by apply Hp.
  - intros H. exact (modern_key_step w l c o oc k vk abi w' Hl Hc Hlc Hk H).
Qed.

(** C8. For every descriptor [Contract] wraps off the mobile fast path,
    every own key that names no ABI entry (legacy path), or is not
    ["methods"] (modern path), reads on the wrapped descriptor as the very
    value it has on the original, which is itself left as it was. *)
Theorem Contract_passes_keys_through env cfg w l o wrapped w' abi k v :
  heap w !! l = Some o ->
  mobileDevice (state w) && negb (truthy (mobileBlocked cfg)) = false ->
  Contract env cfg (VRef l) w = (Ok wrapped, w') ->
  resolve_abi (VRef l) (heap w) = Ok abi ->
  assoc k (props o) = Some v ->
  passes_through (legacyWeb3 (state (configured env w))) abi k ->
  get_member (VRef l) k w' = (Ok v, w') /\
  get_member wrapped k w' = (Ok v, w') /\
  wrapped = VRef (length (heap w)).
Proof.
  intros Hl Hfast Hrun Habi Hk Hpass.
  destruct (Contract_returned env cfg w l o wrapped w' Hl Hfast Hrun)
    as (Hkey & Hnet & Hweb3 & _).
  rewrite (Contract_constructs env cfg w l o abi) in Hrun by done.
  apply bind_Ok_inv in Hrun as ([] & w1 & Hloop & Hret).
  injection Hret as <- <-.
  set (c := length (heap w)) in *.
  assert (Hlc : l < c) by (by eapply lookup_lt_Some).
  assert (Hl0 : heap (cloning env w o) !! l = Some o).
  { unfold cloning. cbn [heap set_heap]. by rewrite lookup_app_l. }
  assert (Hc0 : heap (cloning env w o) !! c
                = Some {| proto := proto o; props := []; code := None |}).
  { unfold cloning. cbn [heap set_heap]. by apply list_lookup_middle. }
  assert (Hne : l <> c) by lia.
  destruct (key_loop
              (key_reducer (legacyWeb3 (state (configured env w)))
                 (VRef l) abi (VRef c))
              (passes_through (legacyWeb3 (state (configured env w))) abi)
              l c o (props o).*1 Hne
              (fun w0 oc k0 vk w0' H1 H2 H3 H4 =>
                 key_reducer_step _ abi w0 l c o oc k0 vk w0' H1 H2 Hne H3 H4)
              _ _ _ Hl0 Hc0
              (fun k0 Hin => assoc_own_key k0 (props o) Hin) Hloop)
    as ([_ Hold] & oc' & Hc' & Hfinal).
  split; [|split; [|done]].
  - eapply get_member_own; [|done].
    rewrite Hold; [done| |lia]. by eapply lookup_lt_Some.
  - eapply get_member_own; [done|].
    apply Hfinal; [done..|]. left. by eapply assoc_Some_key.
Qed.

Lemma handle_at_frame c w w' mm n :
  (forall j, j < length (heap w) -> j <> c -> heap w' !! j = heap w !! j) ->
  handle_at c w mm n -> handle_at c w' mm n.
Proof.
  intros Hold (om & f & fo & e' & Hmm & Hcode & Hn & Hf & Hfo & He & ? & ?).
  exists om, f, fo, e'.
  rewrite !Hold by (first [by eapply lookup_lt_Some | lia]). done.
Qed.

Section ModernPath.

Context (h0 : list obj) (c l : nat) (o : obj) (vm : value) (n : string)
  (es : list ABIEntry) (e : ABIEntry).
Context (Hc0 : c = length h0) (Hl0 : h0 !! l = Some o)
  (Hm : assoc "methods" (props o) = Some vm)
  (Hu : vm <> VUndef) (Hnull : vm <> VNull)
  (Habs : absent h0 n vm)
  (He : e ∈ es) (Hen : key_of (abi_name e) = n).

(** The ["methods"] key: the rebuilt mapping has a handle under [n]. *)
Lemma modern_methods_key w :
  keeps h0 w ->
  (exists oc, heap w !! c = Some oc) ->
  exists w',
    modern_key (VRef l) (VAbi es) (VRef c) "methods" w = (Ok tt, w') /\
    keeps h0 w' /\
    (exists oc, heap w' !! c = Some oc) /\
    wrapped_handle c n w'.
Proof.
  intros Hkeep (oc & Hc).
  assert (Hcw : c < length (heap w)) by (by eapply lookup_lt_Some).
  set (mm := length (heap w)).
  set (w1 := set_heap (heap w ++ [plain_object []]) w).
  assert (Hkeep1 : keeps h0 w1).
  { intros j Hj. unfold w1. rewrite heap_allocated by lia.
    by apply Hkeep. }
  destruct (methods_loop h0 l o vm c mm n es Hl0 Hm Hu Hnull Habs
              ltac:(lia) Hcw w1 Hkeep1)
    as (w2 & Hrun & Hlen & Hold & (om & Hmm2 & Hcode) & _ & _ & _ & _
          & Hhandle).
  { eexists. split; [apply heap_allocated_new|done]. }
  assert (Hlen1 : length (heap w1) = S mm).
  { unfold w1. simpl. by rewrite length_app, Nat.add_1_r. }
  assert (Hc2 : heap w2 !! c = Some oc).
  { rewrite Hold by (unfold mm; lia). unfold w1.
    by rewrite heap_allocated. }
  eexists. split.
  { unfold modern_key. simpl.
    erewrite bind_Ok by apply alloc_runs.
    erewrite bind_Ok by exact Hrun.
    apply set_member_runs. }
  assert (Hh : handle_at c w2 mm n) by (apply Hhandle; eauto).
  split; [|split].
  - intros j Hj. simpl. rewrite list_lookup_alter_ne by lia.
    rewrite Hold by (unfold mm in *; lia). by apply Hkeep1.
  - simpl. rewrite list_lookup_alter_eq, Hc2. eauto.
  - exists (with_prop "methods" (VRef mm) oc), mm. split.
    { simpl. by rewrite list_lookup_alter_eq, Hc2. }
    split; [apply assoc_set_same|].
    eapply (handle_at_frame c w2); [|done].
    intros j Hj Hjc. simpl. by rewrite list_lookup_alter_ne.
Qed.

(** Any other key is copied; a handle already on the clone stays. *)
Lemma modern_other_key k w :
  k <> "methods" ->
  keeps h0 w ->
  (exists oc, heap w !! c = Some oc) ->
  exists w',
    modern_key (VRef l) (VAbi es) (VRef c) k w = (Ok tt, w') /\
    keeps h0 w' /\
    (exists oc, heap w' !! c = Some oc) /\
    (wrapped_handle c n w -> wrapped_handle c n w').
Proof.
  intros Hk Hkeep (oc & Hc).
  assert (E : String.eqb k "methods" = false).
  { destruct (String.eqb k "methods") eqn:E; [|done].
    by apply String.eqb_eq in E. }
  eexists. split.
  { unfold modern_key. rewrite E. simpl.
    erewrite bind_Ok by reflexivity. apply set_member_runs. }
  split; [|split].
  - intros j Hj. simpl. rewrite list_lookup_alter_ne by lia.
    by apply Hkeep.
  - simpl. rewrite list_lookup_alter_eq, Hc. eauto.
  - intros (oc' & mm & Hc' & Hmeth & Hh).
    rewrite Hc in Hc'. injection Hc' as <-.
    eexists _, mm. split.
    { simpl. by rewrite list_lookup_alter_eq, Hc. }
    split; [simpl; by rewrite assoc_set_other|].
    eapply (handle_at_frame c w); [|done].
    intros j Hj Hjc. simpl. by rewrite list_lookup_alter_ne.
Qed.

(** On the modern path the loop over the own keys never throws; a
    ["methods"] key leaves the handle on the clone, and the other keys
    leave it where it is. *)
Lemma modern_loop keys w :
  keeps h0 w ->
  (exists oc, heap w !! c = Some oc) ->
  exists w',
    for_each keys (key_reducer false (VRef l) (VAbi es) (VRef c)) w
    = (Ok tt, w') /\
    keeps h0 w' /\
    (exists oc, heap w' !! c = Some oc) /\
    ("methods" ∈ keys \/ wrapped_handle c n w -> wrapped_handle c n w').
Proof.
  revert w. induction keys as [|k keys IH]; intros w Hkeep Hc.
  - exists w. simpl. repeat split; [done..|].
    intros [Hin|?]; [|done]. by apply elem_of_nil in Hin.
  - simpl. unfold key_reducer at 1.
    destruct (decide (k = "methods")) as [->|Hk].
    + destruct (modern_methods_key w Hkeep Hc)
        as (w1 & Hrun & Hkeep1 & Hc1 & Hh1).
      destruct (IH w1 Hkeep1 Hc1) as (w' & Hrest & Hkeep' & Hc' & Hh').
      exists w'. split; [by erewrite bind_Ok by exact Hrun|].
      do 2 (split; [done|]). intros _. apply Hh'. by right.
    + destruct (modern_other_key k w Hk Hkeep Hc)
        as (w1 & Hrun & Hkeep1 & Hc1 & Hh1).
      destruct (IH w1 Hkeep1 Hc1) as (w' & Hrest & Hkeep' & Hc' & Hh').
      exists w'. split; [by erewrite bind_Ok by exact Hrun|].
      do 2 (split; [done|]).
      intros [[?|Hin]%elem_of_cons|Hh]; [done|apply Hh'; by left|].
      apply Hh'. right. by apply Hh1.
Qed.

End ModernPath.

Lemma call_modern_handle env w f fo e' args :
  heap w !! f = Some fo ->
  code fo = Some (CModernFn VUndef e') ->
  call env (VRef f) args w
  = call_collab_value env modernMethod [VUndef; VAbi [e']; VArr args] w.
Proof.
  intros Hf Hcode. unfold call.
  erewrite bind_Ok.
  2:{ apply callee_function. by exists fo, (CModernFn VUndef e'). }
  mstep. rewrite Hf. simpl. by rewrite Hcode.
Qed.

(** C9. On the modern path, for a descriptor whose ABI has an entry named
    [n] that its method mapping does not have, the construction completes
    without throwing; the wrapped descriptor has, under [methods], a handle
    for [n], a function that captured [undefined] as its method; what an
    invocation of the handle does is to pass that [undefined] to the modern
    invocation primitive, so only there can anything fail. *)
Theorem Contract_tolerates_missing_method env cfg w l o vm es e n :
  validApiKey (state w) = true ->
  supportedNetwork (state w) = true ->
  mobileDevice (state w) && negb (truthy (mobileBlocked cfg)) = false ->
  truthy (web3Instance (state w)) = true \/ window_web3 w = true ->
  legacyWeb3 (state (configured env w)) = false ->
  heap w !! l = Some o ->
  resolve_abi (VRef l) (heap w) = Ok (VAbi es) ->
  assoc "methods" (props o) = Some vm ->
  vm <> VUndef -> vm <> VNull ->
  e ∈ es -> key_of (abi_name e) = n ->
  absent (heap w) n vm ->
  exists c w' mm f e',
    Contract env cfg (VRef l) w = (Ok (VRef c), w') /\
    get_member (VRef c) "methods" w' = (Ok (VRef mm), w') /\
    get_member (VRef mm) n w' = (Ok (VRef f), w') /\
    key_of (abi_name e') = n /\
    (exists fo, heap w' !! f = Some fo /\
                code fo = Some (CModernFn VUndef e')) /\
    forall args,
      call env (VRef f) args w'
      = call_collab_value env modernMethod [VUndef; VAbi [e']; VArr args] w'.
Proof.
  intros Hkey Hnet Hfast Hweb3 Hmodern Hl Habi Hm Hu Hnull He Hen Habs.
  rewrite (Contract_constructs env cfg w l o (VAbi es)) by done.
  rewrite Hmodern.
  assert (Hkeep : keeps (heap w) (cloning env w o)).
  { intros j Hj. unfold cloning. cbn [heap set_heap]. by apply lookup_app_l. }
  destruct (modern_loop (heap w) _ l o vm n es e eq_refl Hl Hm Hu Hnull Habs
              He Hen
              (props o).*1 (cloning env w o) Hkeep)
    as (w' & Hloop & _ & _ & Hh).
  { unfold cloning. cbn [heap set_heap]. eexists. by apply list_lookup_middle. }
  destruct Hh as (oc & mm & Hc & Hmeth & om & f & fo & e' & Hmm & _ & Hn & Hf
                     & Hfo & He' & _ & _).
  { left. by eapply assoc_Some_key. }
  exists (length (heap w)), w', mm, f, e'.
  split; [by erewrite bind_Ok by exact Hloop|].
  split; [by eapply get_member_own|].
  split; [by eapply get_member_own|].
  split; [done|]. split; [eauto|].
  intros args. by eapply call_modern_handle.
Qed.

(** ** The interactive mobile block *)

Lemma spares_refl p w : spares p w w.
Proof. repeat split; eauto. Qed.

Lemma spares_trans p w1 w2 w3 :
  spares p w1 w2 -> spares p w2 w3 -> spares p w1 w3.
Proof.
  intros (Hp1 & Hl1 & Ht1 & Hh1 & Hc1) (Hp2 & Hl2 & Ht2 & Hh2 & Hc2).
  split; [congruence|]. split; [lia|]. split; [|split].
  - intros t [Ht|Ht]%Ht2; [by apply Ht1|by right].
  - intros l o' Hl Hc. destruct (Hh2 l o' Hl Hc) as (o & Ho & Hco).
    by apply (Hh1 l o).
  - intros l o Hl. destruct (Hc1 l o Hl) as (o1 & Ho1 & Hco1).
    destruct (Hc2 l o1 Ho1) as (o2 & Ho2 & Hco2).
    exists o2. split; [done|congruence].
Qed.

Lemma spares_heap p w w' :
  promises w' !! p = promises w !! p ->
  length (promises w) <= length (promises w') ->
  (forall t, t ∈ tasks w' -> t ∈ tasks w \/ task_promise t <> p) ->
  heap w' = heap w ->
  spares p w w'.
Proof.
  intros Hp Hl Ht Hh. unfold spares. rewrite Hh. repeat split; eauto.
Qed.

(** A step that changes neither promises, nor tasks, nor any function. *)
Lemma spares_frame p w w' :
  promises w' = promises w -> tasks w' = tasks w -> heap w' = heap w ->
  spares p w w'.
Proof. intros Hp Ht Hh. apply spares_heap; rewrite ?Hp, ?Ht; eauto. Qed.

Lemma safe_ret {A} p (a : A) : safe p (mret a).
Proof. intros w _. apply spares_refl. Qed.

Lemma safe_throw {A} p e : safe p (@throw A e).
Proof. intros w _. apply spares_refl. Qed.

Lemma safe_bind {A B} p (m : M A) (f : A -> M B) :
  safe p m -> (forall a, safe p (f a)) -> safe p (m ≫= f).
Proof.
  intros Hm Hf w Hw. specialize (Hm w Hw).
  unfold mbind, M_bind. destruct (m w) as [[a|e] w1]; simpl in *; [|done].
  eapply spares_trans; [done|]. apply Hf. destruct Hm as (_ & ? & _). lia.
Qed.

Lemma safe_fmap {A B} p (m : M A) (f : A -> B) : safe p m -> safe p (f <$> m).
Proof.
  intros Hm w Hw. specialize (Hm w Hw).
  unfold fmap, M_fmap. by destruct (m w) as [[a|e] w1].
Qed.

Lemma safe_try_catch {A} p (c : M A) h :
  safe p c -> (forall e, safe p (h e)) -> safe p (try_catch c h).
Proof.
  intros Hc Hh w Hw. specialize (Hc w Hw).
  unfold try_catch. destruct (c w) as [[a|e] w1]; simpl in *; [done|].
  eapply spares_trans; [done|]. apply Hh. destruct Hc as (_ & ? & _). lia.
Qed.

Lemma safe_gets {A} p (f : World -> A) : safe p (gets f).
Proof. intros w _. apply spares_refl. Qed.

Lemma safe_reads {A} p (f : list obj -> Result A) : safe p (reads f).
Proof. intros w _. apply spares_refl. Qed.

Lemma safe_lift {A} p (r : Result A) : safe p (lift r).
Proof. intros w _. apply spares_refl. Qed.

Lemma safe_emit p o : safe p (emit o).
Proof. intros w _. by apply spares_frame. Qed.

Lemma safe_updateState p f : safe p (updateState f).
Proof. intros w _. by apply spares_frame. Qed.

Lemma safe_when p b c : safe p c -> safe p (when b c).
Proof. intros Hc. destruct b; [done|apply safe_ret]. Qed.

Lemma safe_new_promise p : safe p new_promise.
Proof.
  intros w Hw. apply spares_heap; simpl; eauto.
  - by apply lookup_app_l.
  - rewrite length_app. lia.
Qed.

(** The promise [new Promise] hands out is a new one. *)
Lemma safe_new_promise_bind {B} p (f : nat -> M B) :
  (forall q, q <> p -> safe p (f q)) -> safe p (new_promise ≫= f).
Proof.
  intros Hf w Hw. unfold mbind, M_bind. simpl.
  eapply spares_trans; [by apply (safe_new_promise p w)|].
  apply Hf; [lia|]. simpl. rewrite length_app. lia.
Qed.

Lemma safe_settle p q s : q <> p -> safe p (settle_promise q s).
Proof.
  intros Hq w Hw. apply spares_heap; simpl; eauto.
  - by apply settle_in_other.
  - by rewrite settle_in_length.
Qed.

Lemma safe_suspend p t : task_promise t <> p -> safe p (suspend t).
Proof.
  intros Ht w Hw. apply spares_heap; simpl; eauto.
  intros t' [Hin|Hin]%elem_of_app; [by left|].
  apply list_elem_of_singleton in Hin as ->. by right.
Qed.

Lemma safe_alloc p o : code o <> Some (COnClose p) -> safe p (alloc o).
Proof.
  intros Ho w Hw. repeat split; simpl; eauto.
  - intros l o' Hl Hc.
    destruct (decide (l < length (heap w))) as [Hlt|Hge].
    + rewrite lookup_app_l in Hl by done. eauto.
    + rewrite lookup_app_r in Hl by lia.
      destruct (l - length (heap w)) as [|k]; simpl in Hl; [|done].
      injection Hl as <-. done.
  - intros l o' Hl. exists o'. split; [|done].
    rewrite lookup_app_l; [done|]. by eapply lookup_lt_Some.
Qed.

Lemma safe_set_member p target k v : safe p (set_member target k v).
Proof.
  destruct target; try apply safe_throw.
  intros w Hw. repeat split; simpl; eauto.
  - intros j o' Hj Hc. rewrite list_lookup_alter in Hj.
    case_decide as Hlj; [|eauto]. subst.
    destruct (heap w !! j) as [o|] eqn:Ho; [|done].
    injection Hj as <-. eauto.
  - intros j o Hj. rewrite list_lookup_alter.
    case_decide as Hlj; [|eauto]. subst. rewrite Hj. simpl. eauto.
Qed.

Lemma safe_for_each {A} p (l : list A) (f : A -> M unit) :
  (forall x, safe p (f x)) -> safe p (for_each l f).
Proof.
  intros Hf. induction l as [|x l IH]; simpl.
  - apply safe_ret.
  - apply safe_bind; [done|]. intros _. exact IH.
Qed.

Create HintDb safe.

Ltac safe_step :=
  match goal with
  | |- safe _ (mbind _ new_promise) =>
      apply safe_new_promise_bind; intros ? ?
  | |- safe _ (mbind _ _) => apply safe_bind; [|intros ?]
  | |- safe _ new_promise => apply safe_new_promise
  | |- safe _ (mret _) => apply safe_ret
  | |- safe _ (throw _) => apply safe_throw
  | |- safe _ (fmap _ _) => apply safe_fmap
  | |- safe _ (try_catch _ _) => apply safe_try_catch; [|intros ?]
  | |- safe _ (gets _) => apply safe_gets
  | |- safe _ (reads _) => apply safe_reads
  | |- safe _ (lift _) => apply safe_lift
  | |- safe _ (emit _) => apply safe_emit
  | |- safe _ (updateState _) => apply safe_updateState
  | |- safe _ (when _ _) => apply safe_when
  | |- safe _ (settle_promise _ _) => apply safe_settle; done
  | |- safe _ (suspend _) => apply safe_suspend; simpl; done
  | |- safe _ (alloc _) => apply safe_alloc; simpl; congruence
  | |- safe _ (set_member _ _ _) => apply safe_set_member
  | |- safe _ (for_each _ _) => apply safe_for_each; intros ?
  | |- safe _ (if ?b then _ else _) => destruct b
  | |- safe _ (match ?x with _ => _ end) => destruct x
  | |- safe _ _ => solve [eauto with safe]
  end.

Ltac safe_auto := repeat safe_step.

Lemma safe_get_member p v k : safe p (get_member v k).
Proof. apply safe_reads. Qed.

Lemma safe_handleEvent p e h : safe p (handleEvent e h).
Proof. apply safe_emit. Qed.

Lemma safe_resolve p q v : q <> p -> safe p (resolve q v).
Proof. intros. by apply safe_settle. Qed.

Lemma safe_reject p q e : q <> p -> safe p (reject q e).
Proof. intros. by apply safe_settle. Qed.

Lemma safe_alloc_function p c : c <> COnClose p -> safe p (alloc_function c).
Proof. intros. apply safe_alloc. simpl. congruence. Qed.

Lemma safe_call_collab env p c args : safe p (call_collab env c args).
Proof.
  unfold call_collab. apply safe_bind; [apply safe_emit|].
  intros _ w _. by apply spares_frame.
Qed.

Lemma safe_call_collab_value env p c args :
  safe p (call_collab_value env c args).
Proof. unfold call_collab_value. safe_auto. Qed.

Lemma safe_callee p fn : safe p (callee fn).
Proof. unfold callee. safe_auto. Qed.

#[export] Hint Resolve safe_get_member safe_handleEvent safe_call_collab
  safe_call_collab_value safe_callee : safe.
#[export] Hint Extern 1 (safe _ (resolve _ _)) =>
  apply safe_resolve; done : safe.
#[export] Hint Extern 1 (safe _ (reject _ _)) =>
  apply safe_reject; done : safe.
#[export] Hint Extern 1 (safe _ (alloc_function _)) =>
  apply safe_alloc_function; congruence : safe.

Lemma safe_promisify p fn : safe p (promisify fn).
Proof. unfold promisify. safe_auto. Qed.

Lemma safe_call_function env p fn args : safe p (call_function env fn args).
Proof. unfold call_function. safe_auto. Qed.

#[export] Hint Resolve safe_promisify safe_call_function : safe.

Lemma safe_and_call env p fn args : safe p (and_call env fn args).
Proof. unfold and_call. safe_auto. Qed.

Lemma safe_read_config p : safe p read_config.
Proof. unfold read_config. safe_auto. Qed.

Lemma safe_Promise_reject p e : safe p (Promise_reject e).
Proof. unfold Promise_reject. safe_auto. Qed.

#[export] Hint Resolve safe_and_call safe_read_config safe_Promise_reject
  : safe.

Lemma safe_getState p : safe p getState.
Proof. unfold getState. safe_auto. Qed.

Lemma safe_onboard p : safe p onboard.
Proof. unfold onboard, onboard_headless. safe_auto. Qed.

Lemma safe_Contract env p cfg contractObj :
  safe p (Contract env cfg contractObj).
Proof.
  unfold Contract, key_reducer, legacy_key, modern_key, method_entry,
    abi_find, own_keys, getPrototypeOf.
  safe_auto.
Qed.

Lemma safe_async p body :
  (forall q, q <> p -> safe p (body q)) -> safe p (async body).
Proof. intros Hbody. unfold async. safe_auto. Qed.

Lemma safe_legacy_call env p method methodABI allArgs :
  safe p (legacy_call env method methodABI allArgs).
Proof. unfold legacy_call. apply safe_async. intros q Hq. safe_auto. Qed.

Lemma safe_legacy_send env p method methodABI allArgs :
  safe p (legacy_send env method methodABI allArgs).
Proof. unfold legacy_send. apply safe_async. intros q Hq. safe_auto. Qed.

Lemma safe_Transaction env p txObject callback :
  safe p (Transaction env txObject callback).
Proof. unfold Transaction, eth_sendTransaction. safe_auto. Qed.

(** The continuations settle the promise they hold, and no other. *)
Lemma safe_resume env p t outcome :
  task_promise t <> p -> safe p (resume env t outcome).
Proof.
  intros Ht.
  destruct t; simpl in Ht; simpl resume;
    unfold onboard_headless_resume, onboard_interactive_resume,
      getState_resume, initState_reaction, legacy_call_resume,
      legacy_send_resume, Transaction_resume, await_catch;
    safe_auto.
Qed.

#[export] Hint Resolve safe_getState safe_onboard safe_Contract
  safe_legacy_call safe_legacy_send safe_Transaction : safe.

Lemma guarded_spares p hook w w' :
  guarded p hook w -> spares p w w' -> guarded p hook w'.
Proof.
  intros (Hp & Ht & Hh & o & Ho & Hc) (Hp' & _ & Ht' & Hh' & Hc').
  split; [unfold promise_state in *; congruence|]. split; [|split].
  - intros t [Hin|Hne]%Ht'; [by apply Ht|done].
  - intros l o' Hl Hco. destruct (Hh' l o' Hl Hco) as (o0 & Hl0 & Hc0).
    by eapply Hh.
  - destruct (Hc' hook o Ho) as (o' & Ho' & Hco'). exists o'.
    split; [done|congruence].
Qed.

Lemma guarded_allocated p hook w :
  guarded p hook w -> p < length (promises w).
Proof. intros (Hp & _). by eapply lookup_lt_Some. Qed.

Lemma safe_apply {A} p (m : M A) w :
  safe p m -> p < length (promises w) -> spares p w (m w).2.
Proof. intros Hm Hw. by apply Hm. Qed.

Lemma callee_inv fn w r w' :
  callee fn w = (r, w') ->
  w' = w /\
  forall l, r = Ok l ->
    fn = VRef l /\ exists o c, heap w !! l = Some o /\ code o = Some c.
Proof.
  unfold callee. destruct fn; try (intros [= <- <-]; split; [done|discriminate]).
  unfold mbind, M_bind. simpl.
  destruct (heap w !! l) as [[pr ps [c|]]|] eqn:Hl; simpl;
    intros [= <- <-]; (split; [done|]); intros l' [= <-]; eauto.
Qed.

Lemma call_spares env p hook w fn args :
  guarded p hook w -> fn <> VRef hook ->
  spares p w (call env fn args w).2.
Proof.
  intros Hg Hfn. pose proof (guarded_allocated p hook w Hg) as Hlt.
  unfold call, mbind at 1, M_bind.
  destruct (callee fn w) as [[l|e] w1] eqn:Hcallee;
    apply callee_inv in Hcallee as [-> Hl]; [|apply spares_refl].
  destruct (Hl l eq_refl) as (-> & o & c & Ho & Hc).
  erewrite bind_Ok by reflexivity. cbn beta. rewrite Ho. simpl. rewrite Hc.
  assert (Hhook : forall q, c = COnClose q -> q <> p).
  { intros q -> ->. destruct Hg as (_ & _ & Hh & _).
    apply Hfn. f_equal. by eapply Hh. }
  apply safe_apply; [|done].
  destruct c; try specialize (Hhook _ eq_refl); safe_auto.
Qed.

Lemma deliver_spares env p hook w i outcome :
  guarded p hook w -> spares p w (deliver env i outcome w).2.
Proof.
  intros Hg. pose proof (guarded_allocated p hook w Hg) as Hlt.
  unfold deliver. erewrite bind_Ok by reflexivity. cbn beta.
  destruct (tasks w !! i) as [t|] eqn:Ht; [|apply spares_refl].
  erewrite bind_Ok by reflexivity.
  assert (Htp : task_promise t <> p).
  { destruct Hg as (_ & Htasks & _). apply Htasks.
    by eapply list_elem_of_lookup_2. }
  eapply spares_trans; [|by apply safe_resume].
  apply spares_heap; simpl; eauto.
  intros t' Hin. left. by eapply list_elem_of_delete_inv.
Qed.

Lemma step_guarded env p hook w a :
  guarded p hook w -> ~ invokes hook a -> guarded p hook (step env w a).
Proof.
  intros Hg Ha. eapply guarded_spares; [done|].
  destruct a as [fn args|i outcome|f]; simpl.
  - eapply call_spares; [done|]. intros ->. apply Ha. by exists args.
  - by eapply deliver_spares.
  - by apply spares_frame.
Qed.

Lemma run_guarded env p hook acts w :
  guarded p hook w -> Forall (fun a => ~ invokes hook a) acts ->
  guarded p hook (run env acts w).
Proof.
  intros Hg Hacts. revert w Hg.
  induction Hacts as [|a acts Ha _ IH]; intros w Hg; [done|].
  simpl. apply IH. by apply step_guarded.
Qed.

Lemma settled_stays_same w w' :
  promises w' = promises w -> settled_stays w w'.
Proof. intros H q s. by rewrite H. Qed.

Lemma steady_ret {A} (a : A) : steady (mret a).
Proof. intros w q s Hq. exact Hq. Qed.

Lemma steady_throw {A} e : steady (@throw A e).
Proof. intros w q s Hq. exact Hq. Qed.

Lemma steady_bind {A B} (m : M A) (f : A -> M B) :
  steady m -> (forall a, steady (f a)) -> steady (m ≫= f).
Proof.
  intros Hm Hf w q s Hq. specialize (Hm w q s Hq).
  unfold mbind, M_bind. destruct (m w) as [[a|e] w1]; simpl in *; [|done].
  by apply Hf.
Qed.

Lemma steady_fmap {A B} (m : M A) (f : A -> B) : steady m -> steady (f <$> m).
Proof.
  intros Hm w q s Hq. specialize (Hm w q s Hq).
  unfold fmap, M_fmap. by destruct (m w) as [[a|e] w1].
Qed.

Lemma steady_try_catch {A} (c : M A) h :
  steady c -> (forall e, steady (h e)) -> steady (try_catch c h).
Proof.
  intros Hc Hh w q s Hq. specialize (Hc w q s Hq).
  unfold try_catch. destruct (c w) as [[a|e] w1]; simpl in *; [done|].
  by apply Hh.
Qed.

Lemma steady_gets {A} (f : World -> A) : steady (gets f).
Proof. intros w q s Hq. exact Hq. Qed.

Lemma steady_reads {A} (f : list obj -> Result A) : steady (reads f).
Proof. intros w q s Hq. exact Hq. Qed.

Lemma steady_lift {A} (r : Result A) : steady (lift r).
Proof. intros w q s Hq. exact Hq. Qed.

Lemma steady_modify f :
  (forall w, promises (f w) = promises w) -> steady (modify f).
Proof. intros Hf w. apply settled_stays_same. simpl. apply Hf. Qed.

Lemma steady_alloc o : steady (alloc o).
Proof. intros w. apply settled_stays_same. reflexivity. Qed.

Lemma steady_when b c : steady c -> steady (when b c).
Proof. intros Hc. destruct b; [done|apply steady_ret]. Qed.

Lemma steady_new_promise : steady new_promise.
Proof.
  intros w q s Hq. simpl. rewrite lookup_app_l; [done|].
  by eapply lookup_lt_Some.
Qed.

Lemma steady_settle p s : steady (settle_promise p s).
Proof.
  intros w q s' Hq. simpl.
  destruct (decide (p = q)) as [->|Hne].
  - by rewrite (settle_in_settled _ _ _ _ Hq).
  - by rewrite settle_in_other.
Qed.

Lemma steady_for_each {A} (l : list A) (f : A -> M unit) :
  (forall x, steady (f x)) -> steady (for_each l f).
Proof.
  intros Hf. induction l as [|x l IH]; simpl.
  - apply steady_ret.
  - apply steady_bind; [done|]. intros _. exact IH.
Qed.

Ltac steady_step :=
  match goal with
  | |- steady (mbind _ _) => apply steady_bind; [|intros ?]
  | |- steady new_promise => apply steady_new_promise
  | |- steady (mret _) => apply steady_ret
  | |- steady (throw _) => apply steady_throw
  | |- steady (fmap _ _) => apply steady_fmap
  | |- steady (try_catch _ _) => apply steady_try_catch; [|intros ?]
  | |- steady (gets _) => apply steady_gets
  | |- steady (reads _) => apply steady_reads
  | |- steady (lift _) => apply steady_lift
  | |- steady (modify _) => apply steady_modify; reflexivity
  | |- steady (alloc _) => apply steady_alloc
  | |- steady (when _ _) => apply steady_when
  | |- steady (settle_promise _ _) => apply steady_settle
  | |- steady (for_each _ _) => apply steady_for_each; intros ?
  | |- steady (if ?b then _ else _) => destruct b
  | |- steady (match ?x with _ => _ end) => destruct x
  end.

Ltac unfold_library :=
  unfold call, resume, onboard, onboard_headless, onboard_headless_resume,
    onboard_interactive_resume, getState, getState_resume,
    initState_reaction, Contract, key_reducer, legacy_key, modern_key,
    method_entry, abi_find, own_keys, getPrototypeOf, legacy_call,
    legacy_call_resume, legacy_send, legacy_send_resume, async, Transaction,
    Transaction_resume, eth_sendTransaction, Promise_reject, read_config,
    await_catch, and_call, call_function, promisify, callee,
    call_collab_value, call_collab, alloc_function, handleEvent, resolve,
    reject, get_member, set_member, suspend, updateState, emit.

Lemma steady_call env fn args : steady (call env fn args).
Proof. unfold_library. repeat steady_step. Qed.

Lemma steady_deliver env i outcome : steady (deliver env i outcome).
Proof.
  unfold deliver. apply steady_bind; [apply steady_gets|]. intros ts.
  destruct (ts !! i) as [t|]; [|apply steady_ret].
  apply steady_bind; [apply steady_modify; reflexivity|]. intros _.
  destruct t; unfold_library; repeat steady_step.
Qed.

Lemma step_settled env w a : settled_stays w (step env w a).
Proof.
  destruct a; simpl.
  - apply steady_call.
  - apply steady_deliver.
  - apply settled_stays_same. reflexivity.
Qed.

Lemma run_settled env acts w : settled_stays w (run env acts w).
Proof.
  revert w. induction acts as [|a acts IH]; intros w q s Hq; [done|].
  simpl. apply IH. by apply step_settled.
Qed.

Lemma interactive_mobile_guarded w :
  well_formed w ->
  guarded (length (promises w)) (length (heap w)) (interactive_mobile_world w).
Proof.
  intros [Htasks Hhooks]. unfold guarded, interactive_mobile_world. simpl.
  split; [apply lookup_last_promise|]. split; [|split].
  - intros t Ht%Htasks. lia.
  - intros l o Hl Hc.
    destruct (decide (l < length (heap w))) as [Hlt|Hge].
    + rewrite lookup_app_l in Hl by done.
      specialize (Hhooks l o _ Hl Hc). lia.
    + rewrite lookup_app_r in Hl by lia.
      destruct (l - length (heap w)) as [|[|k]] eqn:E; simpl in Hl.
      * lia.
      * injection Hl as <-. discriminate.
      * done.
  - eexists. split.
    + rewrite lookup_app_r by lia. rewrite Nat.sub_diag. reflexivity.
    + reflexivity.
Qed.

(** C7. In interactive mode on a mobile device, with a valid API key and a
    supported network, [onboard] emits the [mobileBlocked] notification of
    category [onboard] with a handlers object whose [onClose] is the
    dismissal hook, sets [validBrowser] to false and returns a pending
    promise. Whatever happens next (calls of any other function, settlements
    of awaited collaborators, detector updates), the promise stays pending
    as long as the hook is not called; once the hook is called the promise
    is rejected with the error tagged [mobileBlocked], for good. *)
Theorem onboard_mobile_waits_for_dismissal env w cfg :
  config (state w) = Some cfg ->
  truthy (headlessMode cfg) = false ->
  validApiKey (state w) = true ->
  supportedNetwork (state w) = true ->
  mobileDevice (state w) = true ->
  well_formed w ->
  let p := length (promises w) in
  let hook := length (heap w) in
  let w1 := interactive_mobile_world w in
  onboard w = (Ok p, w1) /\
  trace w1 = trace w ++ [OEvent (plain_event "mobileBlocked" "onboard")
                           (Some (VRef (S hook)))] /\
  get_member (VRef (S hook)) "onClose" w1 = (Ok (VRef hook), w1) /\
  validBrowser (state w1) = false /\
  forall acts,
    Forall (fun a => ~ invokes hook a) acts ->
    promise_state p (run env acts w1) = Some Pending /\
    forall args later,
      promise_state p (run env (acts ++ ACall (VRef hook) args :: later) w1)
      = Some (Settled (Rejected mobile_error)).
Proof.
  intros Hcfg Hheadless Hkey Hnet Hmobile Hwf p hook w1.
  split; [by eapply onboard_interactive_mobile|].
  split; [reflexivity|]. split.
  { unfold get_member, reads, read. simpl.
    rewrite lookup_app_r by lia.
    replace (S hook - length (heap w)) with 1 by (unfold hook; lia).
    simpl. reflexivity. }
  split; [reflexivity|].
  intros acts Hacts.
  pose proof (run_guarded env p hook acts w1
                (interactive_mobile_guarded w Hwf) Hacts)
    as (Hpending & _ & _ & o & Ho & Hc).
  split; [done|]. intros args later.
  replace (run env (acts ++ ACall (VRef hook) args :: later) w1)
    with (run env later (step env (run env acts w1)
                           (ACall (VRef hook) args)))
    by (unfold run; by rewrite foldl_app).
  apply run_settled. cbn [step].
  rewrite (onClose_rejects env _ p hook o args Ho Hc).
  by apply run_settles_first.
Qed.

(** ** Concrete runs of the theorems above *)

Lemma Contract_mobile_fast_path_witness :
  Contract quiet (config_of false false) (VRef 4) (mobile_world true false)
  = (Ok (VRef 4), mobile_world true false).
Proof.
  apply (Contract_mobile_fast_path quiet (config_of false false)
           (mobile_world true false) (VRef 4)); reflexivity.
Defined.

(** C4 (counterexample to the claim as stated). On a mobile device whose
    configuration does not set [mobileBlocked], but with an API key that is
    not valid, [Contract] does not return the descriptor: it throws an
    error tagged [initFail]. *)
Lemma Contract_fast_path_needs_valid_key :
  mobileDevice (state (mobile_world false false)) = true /\
  truthy (mobileBlocked (config_of false false)) = false /\
  Contract quiet (config_of false false) (VRef 4) (mobile_world false false)
  = (Throw (tagged_error "Your API key is not valid" "initFail"),
     mobile_world false false).
Proof. repeat split. Qed.

Lemma onboard_mobile_waits_for_dismissal_witness :
  let w := world_of (mobile_state true true) in
  let w1 := interactive_mobile_world w in
  onboard w = (Ok 0, w1) /\
  trace w1 = [OEvent (plain_event "mobileBlocked" "onboard")
                (Some (VRef 1))] /\
  get_member (VRef 1) "onClose" w1 = (Ok (VRef 0), w1) /\
  validBrowser (state w1) = false /\
  forall acts,
    Forall (fun a => ~ invokes 0 a) acts ->
    promise_state 0 (run quiet acts w1) = Some Pending /\
    forall args later,
      promise_state 0 (run quiet (acts ++ ACall (VRef 0) args :: later) w1)
      = Some (Settled (Rejected mobile_error)).
Proof.
  apply (onboard_mobile_waits_for_dismissal quiet
           (world_of (mobile_state true true)) (config_of true false));
    try reflexivity.
  split.
  - intros t Ht. by apply elem_of_nil in Ht.
  - intros l o q Hl. discriminate Hl.
Defined.

Lemma Contract_passes_keys_through_witness :
  let w' := (Contract quiet (config_of false false) (VRef 4)
               (provider_world true)).2 in
  get_member (VRef 4) "address" w' = (Ok (VStr "0xc0ffee"), w') /\
  get_member (VRef 9) "address" w' = (Ok (VStr "0xc0ffee"), w') /\
  VRef 9 = VRef (length (heap (provider_world true))).
Proof.
  apply (Contract_passes_keys_through quiet (config_of false false)
           (provider_world true) 4
           (plain_object [("abi", VAbi [transfer_abi]);
                          ("address", VStr "0xc0ffee");
                          ("transfer", VRef 0)])
           (VRef 9) _ (VAbi [transfer_abi]) "address" (VStr "0xc0ffee")).
  - reflexivity.
  - reflexivity.
  - vm_compute. reflexivity.
  - reflexivity.
  - reflexivity.
  - intros entries [= <-]. reflexivity.
Defined.

Lemma Contract_tolerates_missing_method_witness :
  exists c w' mm f e',
    Contract quiet (config_of false false) (VRef 10) modern_world
    = (Ok (VRef c), w') /\
    get_member (VRef c) "methods" w' = (Ok (VRef mm), w') /\
    get_member (VRef mm) "transfer" w' = (Ok (VRef f), w') /\
    key_of (abi_name e') = "transfer" /\
    (exists fo, heap w' !! f = Some fo /\
                code fo = Some (CModernFn VUndef e')) /\
    forall args,
      call quiet (VRef f) args w'
      = call_collab_value quiet modernMethod
          [VUndef; VAbi [e']; VArr args] w'.
Proof.
  eapply (Contract_tolerates_missing_method quiet (config_of false false)
            modern_world 10 _ (VRef 9) [transfer_abi] transfer_abi
            "transfer"); try reflexivity; try discriminate.
  - by left.
  - apply list_elem_of_here.
  - eapply absent_step; [reflexivity|reflexivity|].
    apply absent_end. discriminate.
Defined.

(** * Further properties of the entry points *)

(** ** [init], [getState] and the interactive [onboard] *)

(** X1. Called without a configuration object (or with something that is
    not an object), [init] records the library version, opens the
    websocket connection, notifies the Event Notifier of [initFail] with
    the reason ["A config object is needed to initialize assist"] and
    throws an error with that message, tagged [initFail]. No configuration
    is stored and no API object is made: Environment State is what the
    websocket call left of it, the heap is untouched. *)
Theorem init_without_config env w :
  exists w',
    init env None w
    = (Throw (tagged_error "A config object is needed to initialize assist"
                "initFail"), w') /\
    trace w' = trace w ++ [OCollab openWebsocketConnection [];
                           OEvent missing_config_event None] /\
    state w' = state_effect env openWebsocketConnection []
                 (with_version library_version (state w)) /\
    heap w' = heap w /\ promises w' = promises w /\ tasks w' = tasks w.
Proof.
  unfold init. cbn.
  eexists. split; [reflexivity|].
  split; [simpl; by rewrite <- app_assoc|]. done.
Qed.

Ltac wnorm :=
  cbn [state window_web3 heap promises tasks trace
       set_state set_heap set_promises set_tasks set_trace].

Ltac wstep := mstep; wnorm.

Lemma world_eq (w1 w2 : World) :
  state w1 = state w2 -> window_web3 w1 = window_web3 w2 ->
  heap w1 = heap w2 -> promises w1 = promises w2 ->
  tasks w1 = tasks w2 -> trace w1 = trace w2 -> w1 = w2.
Proof. destruct w1, w2. simpl. by intros -> -> -> -> -> ->. Qed.

Lemma when_collab_runs env (b : bool) c args s ww h ps ts tr :
  when b (call_collab env c args)
    {| state := s; window_web3 := ww; heap := h; promises := ps;
       tasks := ts; trace := tr |}
  = (Ok tt,
     {| state := if b then state_effect env c args s else s;
        window_web3 := ww; heap := h; promises := ps; tasks := ts;
        trace := tr ++ (if b then [OCollab c args] else []) |}).
Proof. destruct b; [reflexivity|]. simpl. by rewrite app_nil_r. Qed.

Lemma when_blocked_runs (b : bool) s ww h ps ts tr :
  when b (handleEvent (plain_event "mobileBlocked" "initialize") None;;
          updateState (with_validBrowser false))
    {| state := s; window_web3 := ww; heap := h; promises := ps;
       tasks := ts; trace := tr |}
  = (Ok tt,
     {| state := if b then with_validBrowser false s else s;
        window_web3 := ww; heap := h; promises := ps; tasks := ts;
        trace := tr ++ (if b
                        then [OEvent (plain_event "mobileBlocked"
                                        "initialize") None]
                        else []) |}).
Proof. destruct b; [reflexivity|]. simpl. by rewrite app_nil_r. Qed.

Lemma position_Some P h g :
  position P h = Some g -> exists o, h !! g = Some o /\ P o = true.
Proof.
  revert g. induction h as [|o h IH]; intros g; [done|]. simpl.
  destruct (P o) eqn:HP.
  - intros [= <-]. by exists o.
  - destruct (position P h) as [g'|]; [|done]. intros [= <-]. by apply IH.
Qed.

Lemma position_app_found P h t g :
  position P h = Some g -> position P (h ++ t) = Some g.
Proof.
  revert g. induction h as [|o h IH]; intros g; [done|]. simpl.
  destruct (P o); [done|].
  destruct (position P h) as [g'|]; [|done]. intros [= <-].
  by rewrite (IH g').
Qed.

Lemma position_app_none P h t :
  position P h = None ->
  position P (h ++ t) = (fun i => length h + i) <$> position P t.
Proof.
  induction h as [|o h IH]; simpl.
  - intros _. by destruct (position P t).
  - destruct (P o); [done|].
    destruct (position P h) as [g'|]; [done|]. intros _.
    rewrite IH by done. by destruct (position P t).
Qed.

(** The first object that passes a test stays the first one in a heap
    whose objects pass the test as before. *)
Lemma position_later P h h2 g :
  position P h = Some g ->
  (forall j o, h !! j = Some o -> exists o2, h2 !! j = Some o2 /\ P o2 = P o) ->
  position P h2 = Some g.
Proof.
  revert h2 g. induction h as [|o h IH]; intros h2 g; [done|]. simpl.
  intros Hpos Hlater.
  destruct (Hlater 0 o eq_refl) as (o2 & Ho2 & HP).
  destruct h2 as [|o2' h2]; [done|]. injection Ho2 as ->. simpl.
  rewrite HP. destruct (P o); [done|].
  destruct (position P h) as [g'|] eqn:Hg'; [|done].
  injection Hpos as <-.
  rewrite (IH h2 g'); [done|done|].
  intros j oj Hj. exact (Hlater (S j) oj Hj).
Qed.

Lemma module_getState_found w g :
  position is_getState (heap w) = Some g ->
  module_getState w = (Ok (VRef g), w).
Proof. intros Hg. unfold module_getState. mstep. by rewrite Hg. Qed.

Lemma module_getState_new w :
  position is_getState (heap w) = None ->
  module_getState w = alloc_function CGetState w.
Proof. intros Hg. unfold module_getState. mstep. by rewrite Hg. Qed.

Lemma position_api_functions cfg h :
  position is_getState (h ++ api_functions cfg) = position is_getState h.
Proof.
  destruct (position is_getState h) as [g|] eqn:Hg.
  - by apply position_app_found.
  - by rewrite position_app_none.
Qed.

Lemma init_runs env cfg w :
  truthy (dappId cfg) = true ->
  init env (Some cfg) w
  = (Ok (VRef (api_location (heap w))),
     {| state := initialized env cfg (state w);
        window_web3 := window_web3 w;
        heap := api_heap cfg (heap w);
        promises := promises w ++ [Pending];
        tasks := tasks w ++ [TGetState (length (promises w));
                             TInitState (length (promises w))];
        trace := trace w ++ init_calls env cfg (state w) |}).
Proof.
  intros Hkey. destruct w as [s ww h ps ts tr]. unfold init.
  do 3 wstep. rewrite Hkey. cbn [negb]. cbv iota.
  erewrite bind_Ok by apply when_collab_runs.
  do 2 wstep.
  erewrite bind_Ok by apply when_collab_runs.
  wstep.
  erewrite bind_Ok by apply when_blocked_runs.
  do 2 wstep.
  unfold alloc_function.
  do 3 (erewrite bind_Ok by apply alloc_runs; wnorm).
  assert (Hfns : forall t : list obj,
            (((h ++ [ {| proto := VNull; props := [];
                         code := Some COnboard |} ])
                ++ [ {| proto := VNull; props := [];
                        code := Some (CContract cfg) |} ])
               ++ [ {| proto := VNull; props := [];
                       code := Some CTransaction |} ]) ++ t
            = h ++ api_functions cfg ++ t).
  { intros t. by rewrite <- !app_assoc. }
  pose proof (Hfns []) as Hfns0. rewrite !app_nil_r in Hfns0.
  unfold api_heap, api_location. wnorm.
  destruct (position is_getState h) as [g|] eqn:Hg.
  - erewrite bind_Ok.
    2:{ apply module_getState_found. wnorm.
        by rewrite Hfns0, position_api_functions. }
    erewrite bind_Ok by apply alloc_runs. wnorm.
    unfold getState.
    repeat wstep.
    unfold mret, M_ret. f_equal.
    + rewrite !length_app. cbn [length]. do 2 f_equal. lia.
    + apply world_eq; wnorm.
      * unfold initialized, blocks_mobile, framed, creates_iframe, identified.
        destruct (truthy (web3 cfg)); reflexivity.
      * reflexivity.
      * rewrite Hfns. unfold api_object.
        rewrite !length_app. cbn [length].
        replace (length h + 1 + 1) with (length h + 2) by lia.
        reflexivity.
      * reflexivity.
      * by rewrite <- app_assoc.
      * unfold init_calls, blocks_mobile, framed, creates_iframe, identified.
        rewrite <- !app_assoc. cbn [app].
        destruct (truthy (web3 cfg)); reflexivity.
  - erewrite bind_Ok.
    2:{ rewrite module_getState_new
          by (wnorm; by rewrite Hfns0, position_api_functions).
        apply alloc_runs. }
    wnorm.
    erewrite bind_Ok by apply alloc_runs. wnorm.
    unfold getState.
    repeat wstep.
    unfold mret, M_ret. f_equal.
    + rewrite !length_app. cbn [length]. do 2 f_equal. lia.
    + apply world_eq; wnorm.
      * unfold initialized, blocks_mobile, framed, creates_iframe, identified.
        destruct (truthy (web3 cfg)); reflexivity.
      * reflexivity.
      * rewrite <- app_assoc, Hfns. unfold api_object.
        rewrite !length_app. cbn [length app].
        replace (length h + 1 + 1 + 1) with (length h + 3) by lia.
        replace (length h + 1 + 1) with (length h + 2) by lia.
        reflexivity.
      * reflexivity.
      * by rewrite <- app_assoc.
      * unfold init_calls, blocks_mobile, framed, creates_iframe, identified.
        rewrite <- !app_assoc. cbn [app].
        destruct (truthy (web3 cfg)); reflexivity.
Qed.

Lemma is_getState_code o : is_getState o = true -> code o = Some CGetState.
Proof.
  unfold is_getState. destruct (code o) as [c|]; [|done].
  by destruct c.
Qed.

Lemma is_getState_same_code o o2 :
  code o2 = code o -> is_getState o2 = is_getState o.
Proof. unfold is_getState. by intros ->. Qed.

(** One successful [init], by the objects it leaves on the heap. *)
Lemma init_api env cfg w :
  truthy (dappId cfg) = true ->
  let n := length (heap w) in
  let p := length (promises w) in
  exists api g w',
    init env (Some cfg) w = (Ok (VRef api), w') /\
    heap w' !! api = Some (api_object n (VRef g)) /\
    n + 2 < api /\
    heap w' !! n
    = Some {| proto := VNull; props := []; code := Some COnboard |} /\
    heap w' !! (n + 1)
    = Some {| proto := VNull; props := []; code := Some (CContract cfg) |} /\
    heap w' !! (n + 2)
    = Some {| proto := VNull; props := []; code := Some CTransaction |} /\
    position is_getState (heap w') = Some g /\
    (forall g0, position is_getState (heap w) = Some g0 -> g = g0) /\
    (forall j, j < n -> heap w' !! j = heap w !! j) /\
    promises w' = promises w ++ [Pending] /\
    tasks w' = tasks w ++ [TGetState p; TInitState p].
Proof.
  intros Hkey n p.
  assert (Hat : forall (t : list obj) k o, t !! k = Some o ->
            (heap w ++ t) !! (n + k) = Some o).
  { intros t k o Hk. rewrite lookup_app_r by (unfold n; lia).
    by replace (n + k - length (heap w)) with k by (unfold n; lia). }
  assert (Hat0 : forall (t : list obj) o, t !! 0 = Some o ->
            (heap w ++ t) !! n = Some o).
  { intros t o Hk. rewrite <- (Hat t 0 o Hk). f_equal. lia. }
  assert (Hold : forall (t : list obj) j, j < n ->
            (heap w ++ t) !! j = heap w !! j).
  { intros t j Hj. by rewrite lookup_app_l. }
  exists (api_location (heap w)).
  destruct (position is_getState (heap w)) as [g|] eqn:Hg.
  - exists g. eexists. split; [by apply init_runs|].
    cbn [heap promises tasks]. unfold api_heap, api_location.
    rewrite Hg. fold n.
    split; [by apply Hat|]. split; [lia|].
    split; [by apply Hat0|].
    do 2 (split; [by apply Hat|]).
    split; [by apply position_app_found|].
    split; [by intros g0 [= <-]|].
    split; [intros j Hj; by apply Hold|]. done.
  - exists (n + 3). eexists. split; [by apply init_runs|].
    cbn [heap promises tasks]. unfold api_heap, api_location.
    rewrite Hg. fold n.
    split; [by apply Hat|]. split; [lia|].
    split; [by apply Hat0|].
    do 2 (split; [by apply Hat|]).
    split; [by rewrite position_app_none|].
    split; [done|].
    split; [intros j Hj; by apply Hold|]. done.
Qed.

(** X2. For a configuration with an API key, [init] returns a new object
    whose own keys are [onboard], [Contract], [Transaction] and [getState],
    in that order. [onboard], [Contract] and [Transaction] hold functions
    this call of [init] made, the [Contract] function being closed over the
    configuration [init] was given; [getState] holds the one function of
    the module, which is the one the heap held already if it held one.
    Calling each of the four runs the entry point of that name. Every later
    [init] returns an object with that same [getState] function and with
    [onboard], [Contract] and [Transaction] functions of its own. When
    [init] returns, [getState] has been started: its promise is pending,
    and the [initState] report is registered on it. *)
Theorem init_returns_api env cfg w :
  truthy (dappId cfg) = true ->
  let n := length (heap w) in
  let p := length (promises w) in
  exists api g w',
    init env (Some cfg) w = (Ok (VRef api), w') /\
    n + 2 < api /\
    own_keys (VRef api) w'
    = (Ok ["onboard"; "Contract"; "Transaction"; "getState"], w') /\
    get_member (VRef api) "onboard" w' = (Ok (VRef n), w') /\
    get_member (VRef api) "Contract" w' = (Ok (VRef (n + 1)), w') /\
    get_member (VRef api) "Transaction" w' = (Ok (VRef (n + 2)), w') /\
    get_member (VRef api) "getState" w' = (Ok (VRef g), w') /\
    (forall g0, position is_getState (heap w) = Some g0 -> g = g0) /\
    (forall j, j < n -> heap w' !! j = heap w !! j) /\
    (forall args, call env (VRef n) args w' = (VPromise <$> onboard) w') /\
    (forall args, call env (VRef (n + 1)) args w'
                  = Contract env cfg (arg 0 args) w') /\
    (forall args, call env (VRef (n + 2)) args w'
                  = Transaction env (arg 0 args) (arg 1 args) w') /\
    (forall args, call env (VRef g) args w' = (VPromise <$> getState) w') /\
    (forall cfg2 w2,
       truthy (dappId cfg2) = true -> later_heap w' w2 ->
       let n2 := length (heap w2) in
       exists api2 w3,
         init env (Some cfg2) w2 = (Ok (VRef api2), w3) /\
         get_member (VRef api2) "getState" w3 = (Ok (VRef g), w3) /\
         get_member (VRef api2) "onboard" w3 = (Ok (VRef n2), w3) /\
         get_member (VRef api2) "Contract" w3 = (Ok (VRef (n2 + 1)), w3) /\
         get_member (VRef api2) "Transaction" w3
         = (Ok (VRef (n2 + 2)), w3) /\
         n + 2 < n2) /\
    promise_state p w' = Some Pending /\
    tasks w' = tasks w ++ [TGetState p; TInitState p].
Proof.
  intros Hkey n p.
  destruct (init_api env cfg w Hkey)
    as (api & g & w' & Hinit & Hapi & Hnew & Hon & Hcon & Htx & Hpos & Hsame
        & Hold & Hps & Hts).
  fold n in Hapi, Hnew, Hon, Hcon, Htx, Hold. fold p in Hts.
  destruct (position_Some _ _ _ Hpos) as (og & Hog & Hisg).
  apply is_getState_code in Hisg.
  assert (Hcall : forall l o c, heap w' !! l = Some o -> code o = Some c ->
            callee (VRef l) w' = (Ok l, w')).
  { intros l o c Hl Hc. apply callee_function. by exists o, c. }
  exists api, g, w'.
  split; [exact Hinit|]. split; [exact Hnew|].
  split. { unfold own_keys. mstep. by rewrite Hapi. }
  do 4 (split; [by eapply get_member_own|]).
  split; [exact Hsame|]. split; [exact Hold|].
  split; [|split; [|split; [|split; [|split; [|split]]]]].
  - intros args. unfold call.
    erewrite bind_Ok by (by eapply Hcall). mstep. by rewrite Hon.
  - intros args. unfold call.
    erewrite bind_Ok by (by eapply Hcall). mstep. by rewrite Hcon.
  - intros args. unfold call.
    erewrite bind_Ok by (by eapply Hcall). mstep. by rewrite Htx.
  - intros args. unfold call.
    erewrite bind_Ok by (by eapply Hcall). mstep. rewrite Hog. simpl.
    by rewrite Hisg.
  - intros cfg2 w2 Hkey2 Hlater n2.
    destruct (init_api env cfg2 w2 Hkey2)
      as (api2 & g2 & w3 & Hinit2 & Hapi2 & _ & _ & _ & _ & _ & Hsame2 & _).
    fold n2 in Hapi2.
    assert (Hg2 : g2 = g).
    { apply Hsame2. apply (position_later _ (heap w')); [done|].
      intros j o Hj. destruct (Hlater j o Hj) as (o2 & Ho2 & Hcode).
      exists o2. split; [done|]. by apply is_getState_same_code. }
    subst g2. exists api2, w3. split; [exact Hinit2|].
    do 4 (split; [by eapply get_member_own|]).
    destruct (Hlater _ _ Htx) as (o2 & Ho2 & _).
    apply lookup_lt_Some in Ho2. exact Ho2.
  - unfold promise_state. rewrite Hps. apply lookup_last_promise.
  - exact Hts.
Qed.

Lemma init_returns_api_witness :
  let w := world_of blank_state in
  let cfg := config_of false false in
  exists api g w',
    init quiet (Some cfg) w = (Ok (VRef api), w') /\
    0 + 2 < api /\
    own_keys (VRef api) w'
    = (Ok ["onboard"; "Contract"; "Transaction"; "getState"], w') /\
    get_member (VRef api) "onboard" w' = (Ok (VRef 0), w') /\
    get_member (VRef api) "Contract" w' = (Ok (VRef (0 + 1)), w') /\
    get_member (VRef api) "Transaction" w' = (Ok (VRef (0 + 2)), w') /\
    get_member (VRef api) "getState" w' = (Ok (VRef g), w') /\
    (forall g0, position is_getState (heap w) = Some g0 -> g = g0) /\
    (forall j, j < 0 -> heap w' !! j = heap w !! j) /\
    (forall args, call quiet (VRef 0) args w' = (VPromise <$> onboard) w') /\
    (forall args, call quiet (VRef (0 + 1)) args w'
                  = Contract quiet cfg (arg 0 args) w') /\
    (forall args, call quiet (VRef (0 + 2)) args w'
                  = Transaction quiet (arg 0 args) (arg 1 args) w') /\
    (forall args, call quiet (VRef g) args w' = (VPromise <$> getState) w') /\
    (forall cfg2 w2,
       truthy (dappId cfg2) = true -> later_heap w' w2 ->
       let n2 := length (heap w2) in
       exists api2 w3,
         init quiet (Some cfg2) w2 = (Ok (VRef api2), w3) /\
         get_member (VRef api2) "getState" w3 = (Ok (VRef g), w3) /\
         get_member (VRef api2) "onboard" w3 = (Ok (VRef n2), w3) /\
         get_member (VRef api2) "Contract" w3 = (Ok (VRef (n2 + 1)), w3) /\
         get_member (VRef api2) "Transaction" w3
         = (Ok (VRef (n2 + 2)), w3) /\
         0 + 2 < n2) /\
    promise_state 0 w' = Some Pending /\
    tasks w' = [TGetState 0; TInitState 0].
Proof.
  apply (init_returns_api quiet (config_of false false)
           (world_of blank_state)).
  reflexivity.
Defined.

Lemma not_elem_of_app_2 {A} (x : A) (l1 l2 : list A) :
  x ∉ l1 -> x ∉ l2 -> x ∉ l1 ++ l2.
Proof. intros H1 H2 [?|?]%elem_of_app; tauto. Qed.

(** X3. What a successful [init] does, in order: it opens the websocket
    connection, configures the provider with [config.web3] only if there is
    one, identifies the browser, creates the iframe only if there is none
    yet and the mode is not headless, notifies of [mobileBlocked] only on a
    mobile device that the configuration blocks, reads the transaction
    queue from storage, registers the unload listener and starts the
    environment check. So it never configures a provider the configuration
    does not carry, never creates the iframe in headless mode, and emits no
    event at all when the configuration does not block mobile devices. *)
Theorem init_call_sequence env cfg w :
  truthy (dappId cfg) = true ->
  exists api w',
    init env (Some cfg) w = (Ok api, w') /\
    trace w' = trace w ++ init_calls env cfg (state w) /\
    state w' = initialized env cfg (state w) /\
    (truthy (web3 cfg) = false ->
     forall args, OCollab configureWeb3 args ∉ init_calls env cfg (state w)) /\
    (truthy (headlessMode cfg) = true ->
     forall args, OCollab createIframe args ∉ init_calls env cfg (state w)) /\
    (truthy (mobileBlocked cfg) = false ->
     forall e h, OEvent e h ∉ init_calls env cfg (state w)).
Proof.
  intros Hkey. eexists _, _. split; [by apply init_runs|].
  do 2 (split; [reflexivity|]).
  unfold init_calls, blocks_mobile, creates_iframe.
  split; [|split].
  - intros -> args.
    repeat (apply not_elem_of_app_2 || apply not_elem_of_cons; split);
      try discriminate; try apply not_elem_of_nil.
    all: repeat match goal with
           | |- context [if ?b then _ else _] => destruct b
           end.
    all: repeat (apply not_elem_of_cons; split); try discriminate;
      apply not_elem_of_nil.
  - intros -> args. rewrite andb_false_r.
    repeat (apply not_elem_of_app_2 || apply not_elem_of_cons; split);
      try discriminate; try apply not_elem_of_nil.
    all: repeat match goal with
           | |- context [if ?b then _ else _] => destruct b
           end.
    all: repeat (apply not_elem_of_cons; split); try discriminate;
      apply not_elem_of_nil.
  - intros -> e h. rewrite andb_false_r.
    repeat (apply not_elem_of_app_2 || apply not_elem_of_cons; split);
      try discriminate; try apply not_elem_of_nil.
    all: repeat match goal with
           | |- context [if ?b then _ else _] => destruct b
           end.
    all: repeat (apply not_elem_of_cons; split); try discriminate;
      apply not_elem_of_nil.
Qed.

Lemma init_call_sequence_witness :
  exists api w',
    init quiet (Some (config_of true true)) (world_of blank_state)
    = (Ok api, w') /\
    trace w' = init_calls quiet (config_of true true) blank_state /\
    state w' = initialized quiet (config_of true true) blank_state /\
    (truthy (web3 (config_of true true)) = false ->
     forall args, OCollab configureWeb3 args
                  ∉ init_calls quiet (config_of true true) blank_state) /\
    (truthy (headlessMode (config_of true true)) = true ->
     forall args, OCollab createIframe args
                  ∉ init_calls quiet (config_of true true) blank_state) /\
    (truthy (mobileBlocked (config_of true true)) = false ->
     forall e h, OEvent e h
                 ∉ init_calls quiet (config_of true true) blank_state).
Proof.
  apply (init_call_sequence quiet (config_of true true)
           (world_of blank_state)).
  reflexivity.
Defined.

Lemma getState_runs w :
  getState w
  = (Ok (length (promises w)),
     set_tasks (tasks w ++ [TGetState (length (promises w))])
       (at_resumption w (state w))).
Proof. reflexivity. Qed.

Lemma getState_resume_runs p outcome w :
  getState_resume p outcome w
  = (Ok tt,
     run_settles p (match outcome with
                    | Fulfilled _ => []
                    | Rejected e => [Rejected e]
                    end ++ [Fulfilled VEnvState]) w).
Proof.
  unfold getState_resume.
  erewrite bind_Ok by apply await_reject_run.
  by rewrite resolve_runs, run_settles_app.
Qed.

Lemma getState_run_runs env w s outcome :
  getState_run env w s outcome
  = (Ok (length (promises w)),
     run_settles (length (promises w))
       (match outcome with
        | Fulfilled _ => []
        | Rejected e => [Rejected e]
        end ++ [Fulfilled VEnvState])
       (at_resumption w s)).
Proof.
  unfold getState_run. rewrite getState_runs. f_equal.
  unfold deliver. mstep. cbn [tasks set_state set_tasks].
  rewrite lookup_last_task. mstep. cbn [resume].
  rewrite getState_resume_runs. simpl.
  by rewrite delete_last_task.
Qed.

(** X4. [getState] calls the environment check once and returns a pending
    promise. When the check succeeds, the promise is fulfilled with
    Environment State itself, whatever value the check gave; when the check
    fails, the promise is rejected with the error of the check, and the
    resolution attempted afterwards changes nothing. *)
Theorem getState_mirrors_environment_check env w s :
  let p := length (promises w) in
  (forall v, exists w',
     getState_run env w s (Fulfilled v) = (Ok p, w') /\
     promise_state p w' = Some (Settled (Fulfilled VEnvState)) /\
     state w' = s /\
     trace w' = trace w ++ [OCollab checkUserEnvironment [];
                            OSettle p (Fulfilled VEnvState)]) /\
  (forall e, exists w',
     getState_run env w s (Rejected e) = (Ok p, w') /\
     promise_state p w' = Some (Settled (Rejected e)) /\
     state w' = s /\
     trace w' = trace w ++ [OCollab checkUserEnvironment [];
                            OSettle p (Rejected e);
                            OSettle p (Fulfilled VEnvState)]).
Proof.
  intros p. split.
  - intros v. eexists. split; [apply getState_run_runs|]. cbn [app].
    split; [|split; [reflexivity|]].
    + by rewrite run_settles_first by apply pending_at_resumption.
    + rewrite run_settles_trace. simpl. by rewrite <- app_assoc.
  - intros e. eexists. split; [apply getState_run_runs|]. cbn [app].
    split; [|split; [reflexivity|]].
    + by rewrite run_settles_first by apply pending_at_resumption.
    + rewrite run_settles_trace. simpl. by rewrite <- app_assoc.
Qed.

Lemma lookup_first_added {A} (l : list A) x rest :
  (l ++ x :: rest) !! length l = Some x.
Proof. by apply list_lookup_middle. Qed.

Lemma delete_first_added {A} (l : list A) x rest :
  delete (length l) (l ++ x :: rest) = l ++ rest.
Proof. induction l as [|y l IH]; [done|]. simpl. by rewrite IH. Qed.

(** The world after [init] and the settlement of the environment check,
    before the reaction runs. *)
Lemma init_checked env cfg w s outcome :
  truthy (dappId cfg) = true ->
  let p := length (promises w) in
  let w1 := (init env (Some cfg) w).2 in
  deliver env (length (tasks w)) outcome (set_state s w1)
  = (Ok tt,
     run_settles p (match outcome with
                    | Fulfilled _ => []
                    | Rejected e => [Rejected e]
                    end ++ [Fulfilled VEnvState])
       (set_tasks (tasks w ++ [TInitState p]) (set_state s w1))).
Proof.
  intros Hkey p w1. subst w1. rewrite (init_runs env cfg w Hkey).
  cbn [snd]. unfold deliver. mstep. cbn [tasks set_state].
  rewrite lookup_first_added. mstep. cbn [resume].
  rewrite getState_resume_runs. f_equal.
  unfold run_settles. cbn. by rewrite delete_first_added.
Qed.

(** X5. The report [init] registers on the promise of [getState]: when the
    environment check succeeds, the [initState] notification is emitted
    once, carrying the twelve capability flags as they are at that moment;
    when the check fails, the promise is rejected and the notification is
    never emitted. Either way nothing stays suspended. *)
Theorem init_reports_checked_state env cfg w s :
  truthy (dappId cfg) = true ->
  let p := length (promises w) in
  let before := trace (init env (Some cfg) w).2 in
  (forall v, exists api w',
     init_run env cfg w s (Fulfilled v) = (Ok api, w') /\
     promise_state p w' = Some (Settled (Fulfilled VEnvState)) /\
     trace w' = before ++ [OSettle p (Fulfilled VEnvState);
                           OEvent (initState_event s) None] /\
     tasks w' = tasks w) /\
  (forall e, exists api w',
     init_run env cfg w s (Rejected e) = (Ok api, w') /\
     promise_state p w' = Some (Settled (Rejected e)) /\
     trace w' = before ++ [OSettle p (Rejected e);
                           OSettle p (Fulfilled VEnvState)] /\
     tasks w' = tasks w).
Proof.
  intros Hkey p before.
  assert (Hrun : forall outcome,
    init_run env cfg w s outcome
    = (Ok (VRef (api_location (heap w))),
       (react env (length (tasks w))
          (run_settles p (match outcome with
                          | Fulfilled _ => []
                          | Rejected e => [Rejected e]
                          end ++ [Fulfilled VEnvState])
             (set_tasks (tasks w ++ [TInitState p])
                (set_state s (init env (Some cfg) w).2)))).2)).
  { intros outcome. unfold init_run.
    pose proof (init_checked env cfg w s outcome Hkey) as H.
    cbv zeta in H. rewrite (init_runs env cfg w Hkey) in H |- *.
    cbn [snd] in H |- *. by rewrite H. }
  assert (Hpend :
    promise_state p (set_tasks (tasks w ++ [TInitState p])
                       (set_state s (init env (Some cfg) w).2))
    = Some Pending).
  { rewrite (init_runs env cfg w Hkey). apply lookup_last_promise. }
  split.
  - intros v. eexists _, _. split; [apply Hrun|]. cbn [app].
    set (w2 := run_settles _ _ _).
    assert (Hp : promise_state p w2 = Some (Settled (Fulfilled VEnvState))).
    { unfold w2. rewrite run_settles_first; [done|]. exact Hpend. }
    assert (Hreact : react env (length (tasks w)) w2
                     = (Ok tt,
                        set_tasks (tasks w)
                          (extend [OEvent (initState_event s) None] w2))).
    { unfold react. do 2 mstep. unfold w2 at 1.
      cbn [tasks run_settles set_promises set_trace set_tasks].
      rewrite lookup_last_task. cbn [task_promise].
      unfold promise_state in Hp. rewrite Hp.
      unfold deliver. mstep. unfold w2 at 1.
      cbn [tasks run_settles set_promises set_trace set_tasks].
      rewrite lookup_last_task. mstep. cbn [resume initState_reaction].
      mstep. rewrite handleEvent_runs. f_equal.
      unfold w2. cbn. by rewrite delete_last_task. }
    rewrite Hreact. cbn [snd]. split; [exact Hp|]. split; [|reflexivity].
    unfold w2. cbn. unfold before. by rewrite <- app_assoc.
  - intros e. eexists _, _. split; [apply Hrun|]. cbn [app].
    set (w2 := run_settles _ _ _).
    assert (Hp : promise_state p w2 = Some (Settled (Rejected e))).
    { unfold w2. rewrite run_settles_first; [done|]. exact Hpend. }
    assert (Hreact : react env (length (tasks w)) w2
                     = (Ok tt, set_tasks (tasks w) w2)).
    { unfold react. do 2 mstep. unfold w2 at 1.
      cbn [tasks run_settles set_promises set_trace set_tasks].
      rewrite lookup_last_task. cbn [task_promise].
      unfold promise_state in Hp. rewrite Hp.
      unfold deliver. mstep. unfold w2 at 1.
      cbn [tasks run_settles set_promises set_trace set_tasks].
      rewrite lookup_last_task. mstep. cbn [resume initState_reaction].
      f_equal. unfold w2. cbn. by rewrite delete_last_task. }
    rewrite Hreact. cbn [snd]. split; [exact Hp|]. split; [|reflexivity].
    unfold w2. cbn. reflexivity.
Qed.

Lemma init_reports_checked_state_witness :
  let cfg := config_of false false in
  let w := world_of blank_state in
  let s := ready_state cfg in
  let before := trace (init quiet (Some cfg) w).2 in
  (forall v, exists api w',
     init_run quiet cfg w s (Fulfilled v) = (Ok api, w') /\
     promise_state 0 w' = Some (Settled (Fulfilled VEnvState)) /\
     trace w' = before ++ [OSettle 0 (Fulfilled VEnvState);
                           OEvent (initState_event s) None] /\
     tasks w' = []) /\
  (forall e, exists api w',
     init_run quiet cfg w s (Rejected e) = (Ok api, w') /\
     promise_state 0 w' = Some (Settled (Rejected e)) /\
     trace w' = before ++ [OSettle 0 (Rejected e);
                           OSettle 0 (Fulfilled VEnvState)] /\
     tasks w' = []).
Proof.
  apply (init_reports_checked_state quiet (config_of false false)
           (world_of blank_state) (ready_state (config_of false false))).
  reflexivity.
Defined.

(** ** [onboard] in interactive mode *)

Lemma read_config_runs w cfg :
  config (state w) = Some cfg -> read_config w = (Ok cfg, w).
Proof. intros H. unfold read_config. mstep. by rewrite H. Qed.

(** X6. With an API key that is not valid, or on a network that is not
    supported, [onboard] in interactive mode returns a promise that is
    already rejected with the error of that gate (the API key is looked at
    first), tagged [initFail], and does nothing else. In headless mode the
    two gates are not consulted: the same call starts the environment check
    and returns a pending promise. *)
Theorem onboard_gates_interactive_only w cfg :
  config (state w) = Some cfg ->
  validApiKey (state w) = false \/ supportedNetwork (state w) = false ->
  let p := length (promises w) in
  exists w',
    onboard w = (Ok p, w') /\
    state w' = state w /\ heap w' = heap w /\
    if truthy (headlessMode cfg)
    then promise_state p w' = Some Pending /\
         trace w' = trace w ++ [OCollab checkUserEnvironment []] /\
         tasks w' = tasks w ++ [THeadless p]
    else promise_state p w'
         = Some (Settled (Rejected (gate_error (state w)))) /\
         trace w' = trace w ++ [OSettle p (Rejected (gate_error (state w)))] /\
         tasks w' = tasks w.
Proof.
  intros Hcfg Hgate p.
  destruct (truthy (headlessMode cfg)) eqn:Hheadless.
  { eexists. split; [by eapply onboard_headless_mode|].
    do 2 (split; [reflexivity|]).
    split; [apply lookup_last_promise|]. split; reflexivity. }
  unfold onboard.
  erewrite bind_Ok by (by apply read_config_runs).
  rewrite Hheadless. mstep. unfold gate_error.
  assert (Hsettled : forall e,
    promise_state p
      (run_settles p [Rejected e] (set_promises (promises w ++ [Pending]) w))
    = Some (Settled (Rejected e))).
  { intros e. apply run_settles_first. apply lookup_last_promise. }
  destruct (validApiKey (state w)) eqn:Hkey; cbn [negb]; cbv iota.
  - destruct Hgate as [?|Hnet]; [done|].
    mstep. rewrite Hnet. cbn [negb]. cbv iota.
    eexists. split; [reflexivity|]. do 2 (split; [reflexivity|]).
    split; [apply Hsettled|]. split; reflexivity.
  - eexists. split; [reflexivity|]. do 2 (split; [reflexivity|]).
    split; [apply Hsettled|]. split; reflexivity.
Qed.

Lemma onboard_gates_interactive_only_witness :
  let w := world_of (mobile_state false true) in
  exists w',
    onboard w = (Ok 0, w') /\
    state w' = state w /\ heap w' = heap w /\
    if truthy (headlessMode (config_of true false))
    then promise_state 0 w' = Some Pending /\
         trace w' = trace w ++ [OCollab checkUserEnvironment []] /\
         tasks w' = tasks w ++ [THeadless 0]
    else promise_state 0 w'
         = Some (Settled (Rejected (gate_error (state w)))) /\
         trace w' = trace w ++ [OSettle 0 (Rejected (gate_error (state w)))] /\
         tasks w' = tasks w.
Proof.
  apply (onboard_gates_interactive_only (world_of (mobile_state false true))
           (config_of true false)); [reflexivity|by left].
Defined.

Lemma onboard_interactive_starts w cfg :
  config (state w) = Some cfg ->
  truthy (headlessMode cfg) = false ->
  validApiKey (state w) = true ->
  supportedNetwork (state w) = true ->
  mobileDevice (state w) = false ->
  onboard w
  = (Ok (length (promises w)),
     set_tasks (tasks w ++ [TInteractive (length (promises w))])
       (extend [OCollab prepareForTransaction [VStr "onboard"]]
          (set_promises (promises w ++ [Pending]) w))).
Proof.
  intros Hcfg Hheadless Hkey Hnet Hmobile. unfold onboard.
  erewrite bind_Ok by (by apply read_config_runs).
  rewrite Hheadless.
  mstep. rewrite Hkey. cbn [negb]. cbv iota.
  mstep. rewrite Hnet. cbn [negb]. cbv iota.
  mstep. rewrite Hmobile. reflexivity.
Qed.

(** X7. In interactive mode on a device that is not mobile, past the two
    gates, [onboard] calls [prepareForTransaction("onboard")] and relays
    its verdict: the promise is fulfilled with the value the collaborator
    gives, or rejected with its error (the resolution with [undefined]
    attempted afterwards changes nothing). Environment State plays no part
    in it. *)
Theorem onboard_interactive_relays_preparation env w cfg s :
  config (state w) = Some cfg ->
  truthy (headlessMode cfg) = false ->
  validApiKey (state w) = true ->
  supportedNetwork (state w) = true ->
  mobileDevice (state w) = false ->
  let p := length (promises w) in
  let called := trace w ++ [OCollab prepareForTransaction [VStr "onboard"]] in
  (forall v, exists w',
     interactive_run env w s (Fulfilled v) = (Ok p, w') /\
     promise_state p w' = Some (Settled (Fulfilled v)) /\
     trace w' = called ++ [OSettle p (Fulfilled v)]) /\
  (forall e, exists w',
     interactive_run env w s (Rejected e) = (Ok p, w') /\
     promise_state p w' = Some (Settled (Rejected e)) /\
     trace w' = called ++ [OSettle p (Rejected e);
                           OSettle p (Fulfilled VUndef)]).
Proof.
  intros Hcfg Hheadless Hkey Hnet Hmobile p called.
  assert (Hrun : forall outcome,
    interactive_run env w s outcome
    = (Ok p,
       run_settles p
         (match outcome with
          | Fulfilled v => [Fulfilled v]
          | Rejected e => [Rejected e; Fulfilled VUndef]
          end)
         (set_state s
            (extend [OCollab prepareForTransaction [VStr "onboard"]]
               (set_promises (promises w ++ [Pending]) w))))).
  { intros outcome. unfold interactive_run.
    rewrite (onboard_interactive_starts w cfg) by done.
    f_equal. unfold deliver. mstep. cbn [tasks set_state set_tasks].
    rewrite lookup_last_task. mstep. cbn [resume].
    unfold onboard_interactive_resume.
    erewrite bind_Ok by apply await_reject_run.
    rewrite resolve_runs, run_settles_app. cbn [snd].
    destruct outcome; unfold run_settles; cbn; by rewrite delete_last_task. }
  assert (Hpend : promise_state p
            (set_state s
               (extend [OCollab prepareForTransaction [VStr "onboard"]]
                  (set_promises (promises w ++ [Pending]) w)))
          = Some Pending) by apply lookup_last_promise.
  split.
  - intros v. eexists. split; [apply Hrun|]. split.
    + by apply run_settles_first.
    + by rewrite run_settles_trace.
  - intros e. eexists. split; [apply Hrun|]. split.
    + by apply run_settles_first.
    + by rewrite run_settles_trace.
Qed.

Lemma onboard_interactive_relays_preparation_witness :
  let cfg := config_of false false in
  let w := world_of (ready_state cfg) in
  let called := trace w ++ [OCollab prepareForTransaction [VStr "onboard"]] in
  (forall v, exists w',
     interactive_run quiet w (ready_state cfg) (Fulfilled v) = (Ok 0, w') /\
     promise_state 0 w' = Some (Settled (Fulfilled v)) /\
     trace w' = called ++ [OSettle 0 (Fulfilled v)]) /\
  (forall e, exists w',
     interactive_run quiet w (ready_state cfg) (Rejected e) = (Ok 0, w') /\
     promise_state 0 w' = Some (Settled (Rejected e)) /\
     trace w' = called ++ [OSettle 0 (Rejected e);
                           OSettle 0 (Fulfilled VUndef)]).
Proof.
  apply (onboard_interactive_relays_preparation quiet
           (world_of (ready_state (config_of false false)))
           (config_of false false) (ready_state (config_of false false)));
    reflexivity.
Defined.

(** ** [Contract]: gates and shape of the wrapped descriptor *)

(** X9. With an API key that is not valid, or on a network that is not
    supported, [Contract] throws to its caller, for every descriptor and on
    every device: the error of the gate (the API key is looked at first,
    its message being ["Your API key is not valid"]), tagged [initFail].
    The world is left as it was. *)
Theorem Contract_stops_at_gate env cfg contractObj w :
  validApiKey (state w) = false \/ supportedNetwork (state w) = false ->
  Contract env cfg contractObj w
  = (Throw (Contract_gate_error (state w)), w).
Proof.
  intros Hgate. unfold Contract, Contract_gate_error. mstep.
  destruct (validApiKey (state w)); cbn [negb]; cbv iota; [|reflexivity].
  destruct Hgate as [?|Hnet]; [done|].
  mstep. by rewrite Hnet.
Qed.

Lemma Contract_stops_at_gate_witness :
  Contract quiet (config_of false false) (VRef 4) (mobile_world false false)
  = (Throw (Contract_gate_error (state (mobile_world false false))),
     mobile_world false false).
Proof.
  apply (Contract_stops_at_gate quiet (config_of false false) (VRef 4)
           (mobile_world false false)).
  by left.
Defined.

(** X10. Past the gates and off the mobile fast path, when Environment
    State holds no provider instance and the page has no [window.web3],
    [Contract] throws ["A web3 instance is needed to decorate contract"],
    tagged [initFail], and leaves the world as it was. *)
Theorem Contract_needs_provider env cfg contractObj w :
  validApiKey (state w) = true ->
  supportedNetwork (state w) = true ->
  mobileDevice (state w) && negb (truthy (mobileBlocked cfg)) = false ->
  truthy (web3Instance (state w)) = false ->
  window_web3 w = false ->
  Contract env cfg contractObj w
  = (Throw (tagged_error "A web3 instance is needed to decorate contract"
              "initFail"), w).
Proof.
  intros Hkey Hnet Hfast Hinst Hwin. unfold Contract.
  mstep. rewrite Hkey. cbn [negb]. cbv iota.
  mstep. rewrite Hnet. cbn [negb]. cbv iota.
  mstep. rewrite Hfast. mstep. rewrite Hinst. cbn [negb when].
  erewrite bind_Throw; [reflexivity|].
  mstep. by rewrite Hwin.
Qed.

(** *** The shape of the wrapped descriptor *)

Lemma assoc_set_keys k v ps :
  (assoc_set k v ps).*1 = if decide (k ∈ ps.*1) then ps.*1 else ps.*1 ++ [k].
Proof.
  induction ps as [|[k' v'] ps IH].
  - destruct (decide (k ∈ [].*1)) as [H|H]; [by apply elem_of_nil in H|done].
  - cbn [assoc_set]. destruct (String.eqb k' k) eqn:E.
    + apply String.eqb_eq in E as ->.
      destruct (decide (k ∈ ((k, v') :: ps).*1)) as [H|H]; [reflexivity|].
      exfalso. apply H. by left.
    + assert (k' <> k) by (intros ->; by rewrite String.eqb_refl in E).
      rewrite !fmap_cons, IH. cbn [fst].
      destruct (decide (k ∈ ps.*1)) as [H1|H1];
        destruct (decide (k ∈ k' :: ps.*1)) as [H2|H2].
      * reflexivity.
      * exfalso. apply H2. by right.
      * exfalso. apply elem_of_cons in H2 as [?|?]; congruence.
      * reflexivity.
Qed.

(** The loop over the own keys, for a reducer that writes the clone at the
    key it is given and otherwise only objects of its own: the clone keeps
    its prototype, gains the keys in the order of the loop, and keeps what
    it holds under any other key. *)
Lemma key_loop_shape (body : string -> M unit) l c o keys :
  l <> c ->
  (forall w oc k vk w',
     heap w !! l = Some o -> heap w !! c = Some oc ->
     assoc k (props o) = Some vk ->
     body k w = (Ok tt, w') ->
     writes_only c w w' /\
     exists x, heap w' !! c = Some (with_prop k x oc)) ->
  forall w oc w',
    heap w !! l = Some o -> heap w !! c = Some oc ->
    (forall k, k ∈ keys -> is_Some (assoc k (props o))) ->
    NoDup ((props oc).*1 ++ keys) ->
    for_each keys body w = (Ok tt, w') ->
    writes_only c w w' /\
    exists oc', heap w' !! c = Some oc' /\
      proto oc' = proto oc /\ code oc' = code oc /\
      (props oc').*1 = (props oc).*1 ++ keys /\
      forall k, k ∉ keys -> assoc k (props oc') = assoc k (props oc).
Proof.
  intros Hlc Hbody. induction keys as [|k0 keys IH];
    intros w oc w' Hl Hc Hown Hnd.
  - simpl. intros [= <-]. split; [apply writes_only_refl|].
    exists oc. rewrite app_nil_r. done.
  - simpl. intros (a & w1 & Hstep & Hrest)%bind_Ok_inv. destruct a.
    destruct (Hown k0 ltac:(left)) as [v0 Hv0].
    destruct (Hbody w oc k0 v0 w1 Hl Hc Hv0 Hstep) as (Hw1 & x & Hc1).
    assert (Hl1 : heap w1 !! l = Some o).
    { destruct Hw1 as [_ Hold]. rewrite Hold; [done| |done].
      by eapply lookup_lt_Some. }
    assert (Hk0 : k0 ∉ (props oc).*1).
    { apply NoDup_app in Hnd as (_ & Hdisj & _).
      intros Hin. apply (Hdisj k0 Hin). by left. }
    assert (Hkeys1 : (props (with_prop k0 x oc)).*1 = (props oc).*1 ++ [k0]).
    { simpl. rewrite assoc_set_keys. by rewrite decide_False. }
    destruct (IH w1 _ w' Hl1 Hc1)
      as (Hw' & oc' & Hc' & Hp & Hcode & Hks & Hother); [| |done|].
    { intros k Hk. apply Hown. by right. }
    { rewrite Hkeys1, <- app_assoc. done. }
    split; [by eapply writes_only_trans|].
    exists oc'. split; [done|]. split; [done|]. split; [done|]. split.
    + rewrite Hks, Hkeys1, <- app_assoc. done.
    + intros k Hk. rewrite Hother by (intros ?; apply Hk; by right).
      simpl. apply assoc_set_other. intros ->. apply Hk. by left.
Qed.

Lemma key_reducer_writes legacy abi w l c o oc k vk w' :
  heap w !! l = Some o -> heap w !! c = Some oc -> l <> c ->
  assoc k (props o) = Some vk ->
  key_reducer legacy (VRef l) abi (VRef c) k w = (Ok tt, w') ->
  writes_only c w w' /\
  exists x, heap w' !! c = Some (with_prop k x oc).
Proof.
  intros Hl Hc Hlc Hk H.
  destruct (key_reducer_step legacy abi w l c o oc k vk w' Hl Hc Hlc Hk H)
    as (Hw & x & Hx & _).
  eauto.
Qed.

(** X11. Off the mobile fast path, the descriptor [Contract] returns is a
    new object: it has the prototype of the original and the same own keys
    in the same order, it is no function, and every object that existed
    before the call, the original descriptor included, is left exactly as
    it was. *)
Theorem Contract_preserves_shape env cfg w l o wrapped w' :
  heap w !! l = Some o ->
  NoDup (props o).*1 ->
  mobileDevice (state w) && negb (truthy (mobileBlocked cfg)) = false ->
  Contract env cfg (VRef l) w = (Ok wrapped, w') ->
  wrapped = VRef (length (heap w)) /\
  own_keys wrapped w' = (Ok (props o).*1, w') /\
  getPrototypeOf wrapped w' = (Ok (proto o), w') /\
  (exists oc, heap w' !! length (heap w) = Some oc /\ code oc = None) /\
  forall j, j < length (heap w) -> heap w' !! j = heap w !! j.
Proof.
  intros Hl Hnd Hfast Hrun.
  destruct (Contract_returned env cfg w l o wrapped w' Hl Hfast Hrun)
    as (Hkey & Hnet & Hweb3 & abi & Habi).
  rewrite (Contract_constructs env cfg w l o abi) in Hrun by done.
  apply bind_Ok_inv in Hrun as ([] & w1 & Hloop & Hret).
  injection Hret as <- <-.
  set (c := length (heap w)) in *.
  assert (Hlc : l < c) by (by eapply lookup_lt_Some).
  assert (Hl0 : heap (cloning env w o) !! l = Some o).
  { unfold cloning. cbn [heap set_heap]. by rewrite lookup_app_l. }
  assert (Hc0 : heap (cloning env w o) !! c
                = Some {| proto := proto o; props := []; code := None |}).
  { unfold cloning. cbn [heap set_heap]. by apply list_lookup_middle. }
  assert (Hne : l <> c) by lia.
  destruct (key_loop_shape
              (key_reducer (legacyWeb3 (state (configured env w)))
                 (VRef l) abi (VRef c))
              l c o (props o).*1 Hne
              (fun w0 oc k0 vk w0' H1 H2 H3 H4 =>
                 key_reducer_writes _ abi w0 l c o oc k0 vk w0' H1 H2 Hne H3 H4)
              _ _ _ Hl0 Hc0
              (fun k0 Hin => assoc_own_key k0 (props o) Hin) Hnd Hloop)
    as ([Hlen Hold] & oc' & Hc' & Hproto & Hcode & Hkeys & _).
  split; [done|]. split; [|split; [|split]].
  - unfold own_keys. mstep. by rewrite Hc', Hkeys.
  - unfold getPrototypeOf. mstep. by rewrite Hc', Hproto.
  - eauto.
  - intros j Hj. rewrite Hold.
    + unfold cloning. cbn [heap set_heap]. by apply lookup_app_l.
    + unfold cloning. cbn [heap set_heap]. rewrite length_app. lia.
    + lia.
Qed.

Lemma Contract_preserves_shape_witness :
  let w := provider_world true in
  let w' := (Contract quiet (config_of false false) (VRef 4) w).2 in
  VRef 9 = VRef (length (heap w)) /\
  own_keys (VRef 9) w' = (Ok ["abi"; "address"; "transfer"], w') /\
  getPrototypeOf (VRef 9) w' = (Ok VNull, w') /\
  (exists oc, heap w' !! length (heap w) = Some oc /\ code oc = None) /\
  forall j, j < length (heap w) -> heap w' !! j = heap w !! j.
Proof.
  apply (Contract_preserves_shape quiet (config_of false false)
           (provider_world true) 4
           (plain_object [("abi", VAbi [transfer_abi]);
                          ("address", VStr "0xc0ffee");
                          ("transfer", VRef 0)])
           (VRef 9)).
  - reflexivity.
  - simpl. repeat (apply NoDup_cons; split;
                   [repeat (apply not_elem_of_cons; split; [discriminate|]);
                    apply not_elem_of_nil|]).
    apply NoDup_nil_2.
  - reflexivity.
  - vm_compute. reflexivity.
Defined.

(** ** [Contract] allocates and does nothing else *)

Lemma silent_ret {A} (a : A) : silent (mret a).
Proof. by intros w. Qed.

Lemma silent_throw {A} e : silent (@throw A e).
Proof. by intros w. Qed.

Lemma silent_bind {A B} (m : M A) (f : A -> M B) :
  silent m -> (forall a, silent (f a)) -> silent (m ≫= f).
Proof.
  intros Hm Hf w. specialize (Hm w). unfold mbind, M_bind.
  destruct (m w) as [[a|e] w1]; [|exact Hm].
  destruct (Hf a w1) as (? & ? & ? & ? & ?).
  destruct Hm as (? & ? & ? & ? & ?). simpl in *.
  repeat split; congruence.
Qed.

Lemma silent_gets {A} (f : World -> A) : silent (gets f).
Proof. by intros w. Qed.

Lemma silent_reads {A} (f : list obj -> Result A) : silent (reads f).
Proof. by intros w. Qed.

Lemma silent_alloc o : silent (alloc o).
Proof. by intros w. Qed.

Lemma silent_set_member target k v : silent (set_member target k v).
Proof. intros w. by destruct target. Qed.

Lemma silent_for_each {A} (l : list A) (f : A -> M unit) :
  (forall x, silent (f x)) -> silent (for_each l f).
Proof.
  intros Hf. induction l as [|x l IH]; simpl.
  - apply silent_ret.
  - apply silent_bind; [apply Hf|]. intros _. exact IH.
Qed.

Ltac silent_step :=
  first
    [ apply silent_ret | apply silent_throw | apply silent_gets
    | apply silent_reads | apply silent_alloc | apply silent_set_member
    | apply silent_bind; [|intros ?]
    | apply silent_for_each; intros ?
    | match goal with
      | |- silent (match ?x with _ => _ end) => destruct x
      end ].

Lemma silent_key_reducer legacy contractObj abi newContractObj key :
  silent (key_reducer legacy contractObj abi newContractObj key).
Proof.
  unfold key_reducer, legacy_key, modern_key, method_entry, abi_find,
    alloc_function, get_member.
  destruct legacy; repeat silent_step.
Qed.

(** [Contract] from the resolution of the ABI on (lines 255-346). *)
Lemma silent_construction legacy contractObj :
  silent (abi ← reads (resolve_abi contractObj);
          prototype ← getPrototypeOf contractObj;
          contractClone ← alloc {| proto := prototype; props := [];
                                   code := None |};
          contractKeys ← own_keys contractObj;
          for_each contractKeys
            (key_reducer legacy contractObj abi contractClone);;
          mret contractClone).
Proof.
  unfold getPrototypeOf, own_keys.
  repeat first [ apply silent_key_reducer | silent_step ].
Qed.

(** X24. Whatever it is given and whether it returns or throws, [Contract]
    creates no promise, suspends nothing and emits no event; the one call
    it may make outside is the [configureWeb3()] by which it configures a
    provider when Environment State has none and the page has a
    [window.web3]. Apart from that call, it changes nothing but the
    heap. *)
Theorem Contract_only_allocates env cfg contractObj w :
  let w' := (Contract env cfg contractObj w).2 in
  window_web3 w' = window_web3 w /\
  promises w' = promises w /\ tasks w' = tasks w /\
  ((state w' = state w /\ trace w' = trace w) \/
   (truthy (web3Instance (state w)) = false /\ window_web3 w = true /\
    state w' = state_effect env configureWeb3 [] (state w) /\
    trace w' = trace w ++ [OCollab configureWeb3 []])).
Proof.
  unfold Contract. mstep.
  destruct (validApiKey (state w)); cbn [negb]; cbv iota;
    [|by repeat split; try left].
  mstep.
  destruct (supportedNetwork (state w)); cbn [negb]; cbv iota;
    [|by repeat split; try left].
  mstep.
  destruct (mobileDevice (state w) && negb (truthy (mobileBlocked cfg)));
    [by repeat split; try left|].
  mstep.
  destruct (truthy (web3Instance (state w))) eqn:Hinst; cbn [negb when].
  - mstep. mstep.
    destruct (silent_construction (legacyWeb3 (state w)) contractObj w)
      as (? & ? & ? & ? & ?).
    repeat split; try done. by left.
  - destruct (window_web3 w) eqn:Hwin.
    + set (w1 := (call_collab env configureWeb3 [] w).2).
      assert (Hconf : (has_web3 ← gets window_web3;
                       if (has_web3 : bool)
                       then call_collab env configureWeb3 []
                       else throw (tagged_error
                              "A web3 instance is needed to decorate contract"
                              "initFail")) w = (Ok tt, w1)).
      { mstep. by rewrite Hwin. }
      erewrite bind_Ok by exact Hconf.
      mstep.
      destruct (silent_construction (legacyWeb3 (state w1)) contractObj w1)
        as (Hs & Hw & Hp & Ht & Htr).
      cbv zeta.
      rewrite Hs, Hw, Hp, Ht, Htr.
      repeat split; try done. by right.
    + erewrite bind_Throw by (mstep; rewrite Hwin; reflexivity).
      repeat split; try done. by left.
Qed.

(** ** [Contract] on the legacy path *)

Lemma legacy_key_found w l c o oc k vk es m :
  heap w !! l = Some o -> heap w !! c = Some oc -> l <> c ->
  assoc k (props o) = Some vk ->
  find (names_key k) es = Some m ->
  legacy_key (VRef l) (VAbi es) (VRef c) k w
  = (getData ← get_member vk "getData";
     set_member (VRef (length (heap w))) "getData" getData)
      (set_heap (legacy_wrapped (heap w) c k vk m) w).
Proof.
  intros Hl Hc Hlc Hk Hfind. unfold legacy_key, abi_find. mstep.
  rewrite Hfind.
  apply find_some in Hfind as [_ Hname%names_key_name]. rewrite Hname.
  set (f := length (heap w)).
  assert (Hcf : c < f) by (by eapply lookup_lt_Some).
  assert (Hlf : l < f) by (by eapply lookup_lt_Some).
  erewrite bind_Ok by (by eapply get_member_own).
  unfold alloc_function.
  erewrite bind_Ok by apply alloc_runs.
  erewrite bind_Ok by apply set_member_runs. fold f.
  set (w1 := set_heap (alter _ c _) _).
  assert (H1c : heap w1 !! c = Some (with_prop k (VRef f) oc)).
  { unfold w1. rewrite heap_written, decide_True by done.
    by rewrite heap_allocated, Hc by done. }
  assert (H1len : length (heap w1) = f + 1).
  { unfold w1. simpl. by rewrite length_alter, length_app. }
  erewrite bind_Ok.
  2:{ eapply get_member_own; [exact H1c|]. apply assoc_set_same. }
  erewrite bind_Ok by apply alloc_runs.
  erewrite bind_Ok by apply set_member_runs. rewrite H1len.
  set (w3 := set_heap (alter _ f _) _).
  assert (H3c : heap w3 !! c = Some (with_prop k (VRef f) oc)).
  { unfold w3. rewrite heap_written, decide_False by lia.
    rewrite heap_allocated by lia. done. }
  assert (H3len : length (heap w3) = f + 2).
  { unfold w3. cbn [heap set_heap]. rewrite length_alter, length_app, H1len.
    simpl. lia. }
  erewrite bind_Ok.
  2:{ eapply get_member_own; [exact H3c|]. apply assoc_set_same. }
  erewrite bind_Ok by apply alloc_runs.
  erewrite bind_Ok by apply set_member_runs. rewrite H3len.
  set (w5 := set_heap (alter _ f _) _).
  assert (H5c : heap w5 !! c = Some (with_prop k (VRef f) oc)).
  { unfold w5. rewrite heap_written, decide_False by lia.
    rewrite heap_allocated by lia. done. }
  assert (H5l : heap w5 !! l = Some o).
  { unfold w5. rewrite heap_written, decide_False by lia.
    rewrite heap_allocated by lia.
    unfold w3. rewrite heap_written, decide_False by lia.
    rewrite heap_allocated by lia.
    unfold w1. rewrite heap_written, decide_False by lia.
    by rewrite heap_allocated by lia. }
  erewrite bind_Ok.
  2:{ eapply get_member_own; [exact H5c|]. apply assoc_set_same. }
  erewrite bind_Ok by (by eapply get_member_own).
  reflexivity.
Qed.

Section LegacyWrapped.

Context (h : list obj) (c : nat) (oc : obj) (k : string) (vk : value)
  (m : ABIEntry).
Context (Hc : h !! c = Some oc).

Ltac lengths :=
  repeat (rewrite length_alter || rewrite length_app); simpl; lia.

Lemma legacy_wrapped_length :
  length (legacy_wrapped h c k vk m) = length h + 3.
Proof. unfold legacy_wrapped. lengths. Qed.

Lemma legacy_wrapped_old j :
  j < length h -> j <> c -> legacy_wrapped h c k vk m !! j = h !! j.
Proof.
  intros Hj Hjc. unfold legacy_wrapped.
  rewrite list_lookup_alter_ne by lia.
  rewrite lookup_app_l by lengths.
  rewrite list_lookup_alter_ne by lia.
  rewrite lookup_app_l by lengths.
  rewrite list_lookup_alter_ne by lia.
  by rewrite lookup_app_l by lia.
Qed.

Lemma legacy_wrapped_clone :
  legacy_wrapped h c k vk m !! c = Some (with_prop k (VRef (length h)) oc).
Proof.
  assert (Hcf : c < length h) by (by eapply lookup_lt_Some).
  unfold legacy_wrapped.
  rewrite list_lookup_alter_ne by lia.
  rewrite lookup_app_l by lengths.
  rewrite list_lookup_alter_ne by lia.
  rewrite lookup_app_l by lengths.
  rewrite list_lookup_alter_eq.
  by rewrite lookup_app_l, Hc by lia.
Qed.

Lemma legacy_wrapped_function :
  legacy_wrapped h c k vk m !! length h
  = Some {| proto := VNull;
            props := [("call", VRef (length h + 1));
                      ("sendTransaction", VRef (length h + 2))];
            code := Some (CLegacyFn vk m) |}.
Proof.
  assert (Hcf : c < length h) by (by eapply lookup_lt_Some).
  unfold legacy_wrapped.
  rewrite list_lookup_alter_eq.
  rewrite lookup_app_l by lengths.
  rewrite list_lookup_alter_eq.
  rewrite lookup_app_l by lengths.
  rewrite list_lookup_alter_ne by lia.
  by rewrite list_lookup_middle.
Qed.

Lemma legacy_wrapped_call :
  legacy_wrapped h c k vk m !! (length h + 1)
  = Some {| proto := VNull; props := [];
            code := Some (CLegacyCall vk m) |}.
Proof.
  unfold legacy_wrapped.
  rewrite list_lookup_alter_ne by lia.
  rewrite lookup_app_l by lengths.
  rewrite list_lookup_alter_ne by lia.
  apply list_lookup_middle. lengths.
Qed.

Lemma legacy_wrapped_send :
  legacy_wrapped h c k vk m !! (length h + 2)
  = Some {| proto := VNull; props := [];
            code := Some (CLegacySend vk m) |}.
Proof.
  unfold legacy_wrapped.
  rewrite list_lookup_alter_ne by lia.
  apply list_lookup_middle. lengths.
Qed.

End LegacyWrapped.

Lemma writes_only_wrapped c w k vk m :
  c < length (heap w) ->
  writes_only c w (set_heap (legacy_wrapped (heap w) c k vk m) w).
Proof.
  intros Hc. split.
  - cbn [heap set_heap]. rewrite legacy_wrapped_length. lia.
  - intros j Hj Hjc. cbn [heap set_heap]. by apply legacy_wrapped_old.
Qed.

(** A key that names an ABI entry and holds [undefined] or [null]: the
    reducer throws when it reads [getData] off it. *)
Lemma legacy_key_throws w l c o oc k vk es m :
  heap w !! l = Some o -> heap w !! c = Some oc -> l <> c ->
  assoc k (props o) = Some vk ->
  find (names_key k) es = Some m ->
  vk = VUndef \/ vk = VNull ->
  exists e w', legacy_key (VRef l) (VAbi es) (VRef c) k w = (Throw e, w').
Proof.
  intros Hl Hc Hlc Hk Hfind Hvk.
  rewrite (legacy_key_found w l c o oc k vk es m) by done.
  destruct Hvk as [-> | ->]; eexists _, _; reflexivity.
Qed.

(** Any other key is dealt with without an exception. *)
(** The only exception of the legacy reducer is the one of that read: an
    error that carries no event code. *)
Lemma legacy_key_failure w l c o oc k vk es e w' :
  heap w !! l = Some o -> heap w !! c = Some oc -> l <> c ->
  assoc k (props o) = Some vk ->
  legacy_key (VRef l) (VAbi es) (VRef c) k w = (Throw e, w') ->
  eventCode_of e = None.
Proof.
  intros Hl Hc Hlc Hk.
  destruct (find (names_key k) es) as [m|] eqn:Hfind.
  - rewrite (legacy_key_found w l c o oc k vk es m) by done.
    unfold mbind, M_bind.
    destruct vk; simpl; try discriminate; by intros [= <- _].
  - unfold legacy_key, abi_find. mstep. rewrite Hfind.
    erewrite bind_Ok by (by eapply get_member_own).
    rewrite set_member_runs. discriminate.
Qed.

Lemma legacy_key_completes w l c o oc k vk es :
  heap w !! l = Some o -> heap w !! c = Some oc -> l <> c ->
  assoc k (props o) = Some vk ->
  (forall m, find (names_key k) es = Some m -> vk <> VUndef /\ vk <> VNull) ->
  exists w', legacy_key (VRef l) (VAbi es) (VRef c) k w = (Ok tt, w').
Proof.
  intros Hl Hc Hlc Hk Hvk.
  destruct (find (names_key k) es) as [m|] eqn:Hfind.
  - rewrite (legacy_key_found w l c o oc k vk es m) by done.
    destruct (Hvk m eq_refl) as [Hu Hn].
    erewrite bind_Ok by (by apply get_member_defined).
    eexists. apply set_member_runs.
  - unfold legacy_key, abi_find. mstep. rewrite Hfind.
    erewrite bind_Ok by (by eapply get_member_own).
    eexists. apply set_member_runs.
Qed.

(** A key that names an ABI entry and holds a method with a [getData] of
    its own: the clone gets the wrapper. *)
Lemma legacy_key_wraps w l c o oc k lv ov g es m :
  heap w !! l = Some o -> heap w !! c = Some oc -> l <> c ->
  assoc k (props o) = Some (VRef lv) ->
  find (names_key k) es = Some m ->
  heap w !! lv = Some ov -> lv <> c ->
  assoc "getData" (props ov) = Some g ->
  exists w',
    legacy_key (VRef l) (VAbi es) (VRef c) k w = (Ok tt, w') /\
    writes_only c w w' /\
    heap w' !! c = Some (with_prop k (VRef (length (heap w))) oc) /\
    legacy_wrapper c w' (length (heap w)) (VRef lv) m g.
Proof.
  intros Hl Hc Hlc Hk Hfind Hlv Hlvc Hg.
  rewrite (legacy_key_found w l c o oc k (VRef lv) es m) by done.
  assert (Hcf : c < length (heap w)) by (by eapply lookup_lt_Some).
  assert (Hlvf : lv < length (heap w)) by (by eapply lookup_lt_Some).
  erewrite bind_Ok.
  2:{ eapply get_member_own; [|exact Hg]. cbn [heap set_heap].
      by rewrite legacy_wrapped_old. }
  rewrite set_member_runs. eexists. split; [reflexivity|].
  cbn [heap set_heap]. split; [|split].
  - split.
    + cbn [heap set_heap]. rewrite length_alter, legacy_wrapped_length. lia.
    + intros j Hj Hjc. cbn [heap set_heap].
      rewrite list_lookup_alter_ne by lia. by apply legacy_wrapped_old.
  - rewrite list_lookup_alter_ne by lia. by eapply legacy_wrapped_clone.
  - unfold legacy_wrapper. cbn [heap set_heap].
    eexists _, (length (heap w) + 1), (length (heap w) + 2), _, _.
    rewrite list_lookup_alter_eq.
    erewrite legacy_wrapped_function by done.
    rewrite !list_lookup_alter_ne by lia.
    erewrite legacy_wrapped_call, legacy_wrapped_send by done.
    repeat split; try reflexivity; try lia.
Qed.

Lemma legacy_wrapper_frame c w w' f method m g :
  writes_only c w w' ->
  legacy_wrapper c w f method m g -> legacy_wrapper c w' f method m g.
Proof.
  intros [_ Hold] (fo & fc & fs & oc & os & Hf & ? & ? & Hfc & ? & ? & Hfs
                      & ? & ? & ? & ? & ?).
  exists fo, fc, fs, oc, os.
  rewrite !Hold by (lia || by eapply lookup_lt_Some). done.
Qed.

Lemma call_legacy_fn env w f fo method m args :
  heap w !! f = Some fo -> code fo = Some (CLegacyFn method m) ->
  call env (VRef f) args w
  = call_collab_value env legacyMethod [method; VAbi [m]; VArr args] w.
Proof.
  intros Hf Hcode. unfold call.
  erewrite bind_Ok by (apply callee_function; by eexists _, _).
  mstep. rewrite Hf. simpl. by rewrite Hcode.
Qed.

Lemma call_legacy_call env w f fo method m args :
  heap w !! f = Some fo -> code fo = Some (CLegacyCall method m) ->
  call env (VRef f) args w = (VPromise <$> legacy_call env method m args) w.
Proof.
  intros Hf Hcode. unfold call.
  erewrite bind_Ok by (apply callee_function; by eexists _, _).
  mstep. rewrite Hf. simpl. by rewrite Hcode.
Qed.

Lemma call_legacy_send env w f fo method m args :
  heap w !! f = Some fo -> code fo = Some (CLegacySend method m) ->
  call env (VRef f) args w = (VPromise <$> legacy_send env method m args) w.
Proof.
  intros Hf Hcode. unfold call.
  erewrite bind_Ok by (apply callee_function; by eexists _, _).
  mstep. rewrite Hf. simpl. by rewrite Hcode.
Qed.

(** *** Where the loop over the keys stops *)

Lemma loop_throws {A} (body : A -> M unit) (I : World -> Prop)
    (P : value -> Prop) keys k :
  k ∈ keys ->
  (forall w, I w -> exists e w', body k w = (Throw e, w')) ->
  (forall k' w w', k' ∈ keys -> I w -> body k' w = (Ok tt, w') -> I w') ->
  (forall k' w e w', k' ∈ keys -> I w -> body k' w = (Throw e, w') -> P e) ->
  forall w, I w -> exists e w', for_each keys body w = (Throw e, w') /\ P e.
Proof.
  intros Hin Hk Hkeep HP. induction keys as [|k0 keys IH]; intros w Hw.
  { by apply elem_of_nil in Hin. }
  simpl. destruct (body k0 w) as [[[]|e] w1] eqn:Hstep.
  - erewrite bind_Ok by exact Hstep.
    apply elem_of_cons in Hin as [->|Hin].
    + destruct (Hk w Hw) as (e & w' & He). congruence.
    + apply IH; [done| | |].
      * intros k' w0 w0' Hk'. apply Hkeep. by right.
      * intros k' w0 e w0' Hk'. apply HP. by right.
      * eapply Hkeep; [|done..]. by left.
  - erewrite bind_Throw by exact Hstep. exists e, w1. split; [done|].
    eapply HP; [|done..]. by left.
Qed.

Lemma loop_completes {A} (body : A -> M unit) (I : World -> Prop) keys :
  (forall k w, k ∈ keys -> I w -> exists w', body k w = (Ok tt, w') /\ I w') ->
  forall w, I w -> exists w', for_each keys body w = (Ok tt, w').
Proof.
  intros Hbody. induction keys as [|k0 keys IH]; intros w Hw.
  { by exists w. }
  destruct (Hbody k0 w ltac:(left) Hw) as (w1 & Hstep & Hw1).
  destruct (IH (fun k w0 Hin => Hbody k w0 ltac:(by right)) w1 Hw1)
             as (w' & Hrest).
  exists w'. simpl. by erewrite bind_Ok by exact Hstep.
Qed.

(** The original descriptor and the clone stay where they are. *)
Lemma legacy_key_invariant w l c o k es w' :
  l <> c ->
  k ∈ (props o).*1 ->
  heap w !! l = Some o /\ is_Some (heap w !! c) ->
  key_reducer true (VRef l) (VAbi es) (VRef c) k w = (Ok tt, w') ->
  heap w' !! l = Some o /\ is_Some (heap w' !! c).
Proof.
  intros Hlc Hin [Hl [oc Hc]] Hstep.
  destruct (assoc_own_key k (props o) Hin) as [vk Hk].
  destruct (key_reducer_writes true (VAbi es) w l c o oc k vk w'
              Hl Hc Hlc Hk Hstep) as ([_ Hold] & x & Hx).
  split; [|eauto].
  rewrite Hold; [done| |done]. by eapply lookup_lt_Some.
Qed.

(** X12. On the legacy path, a descriptor with an own key that names an
    ABI entry and holds [undefined] or [null] makes [Contract] throw: the
    reducer reads [getData] off that value. The error carries no event
    code, unlike the errors of the gates. *)
Theorem Contract_legacy_throws_on_undefined_method
    env cfg w l o es k vk m :
  validApiKey (state w) = true ->
  supportedNetwork (state w) = true ->
  mobileDevice (state w) && negb (truthy (mobileBlocked cfg)) = false ->
  truthy (web3Instance (state w)) = true \/ window_web3 w = true ->
  legacyWeb3 (state (configured env w)) = true ->
  heap w !! l = Some o ->
  resolve_abi (VRef l) (heap w) = Ok (VAbi es) ->
  assoc k (props o) = Some vk ->
  find (names_key k) es = Some m ->
  vk = VUndef \/ vk = VNull ->
  exists e w',
    Contract env cfg (VRef l) w = (Throw e, w') /\ eventCode_of e = None.
Proof.
  intros Hkey Hnet Hfast Hweb3 Hlegacy Hl Habi Hk Hfind Hvk.
  rewrite (Contract_constructs env cfg w l o (VAbi es)) by done.
  rewrite Hlegacy.
  set (c := length (heap w)).
  assert (Hlc : l <> c).
  { apply lookup_lt_Some in Hl. unfold c. lia. }
  destruct (loop_throws
              (key_reducer true (VRef l) (VAbi es) (VRef c))
              (fun w0 => heap w0 !! l = Some o /\ is_Some (heap w0 !! c))
              (fun e => eventCode_of e = None)
              (props o).*1 k) with (w := cloning env w o)
    as (e & w' & Hloop & He).
  - by eapply assoc_Some_key.
  - intros w0 [Hl0 [oc Hc0]]. cbn [key_reducer].
    by eapply legacy_key_throws.
  - intros k' w0 w0' Hin Hw0 Hstep. by eapply legacy_key_invariant.
  - intros k' w0 e w0' Hin [Hl0 [oc Hc0]] Hstep.
    destruct (assoc_own_key k' (props o) Hin) as [vk' Hk'].
    by eapply (legacy_key_failure w0 l c o oc k' vk' es e w0').
  - unfold cloning. cbn [heap set_heap]. split.
    + by apply lookup_app_l_Some.
    + eexists. by apply list_lookup_middle.
  - exists e, w'. split; [|done]. by erewrite bind_Throw by exact Hloop.
Qed.

(** X13. On the legacy path, past the gates, [Contract] returns a new
    descriptor whenever every own key that names an ABI entry holds
    something other than [undefined] and [null]. With X12: the construction
    fails exactly on such a key. *)
Theorem Contract_legacy_completes env cfg w l o es :
  validApiKey (state w) = true ->
  supportedNetwork (state w) = true ->
  mobileDevice (state w) && negb (truthy (mobileBlocked cfg)) = false ->
  truthy (web3Instance (state w)) = true \/ window_web3 w = true ->
  legacyWeb3 (state (configured env w)) = true ->
  heap w !! l = Some o ->
  resolve_abi (VRef l) (heap w) = Ok (VAbi es) ->
  (forall k vk m, assoc k (props o) = Some vk ->
                  find (names_key k) es = Some m ->
                  vk <> VUndef /\ vk <> VNull) ->
  exists w',
    Contract env cfg (VRef l) w = (Ok (VRef (length (heap w))), w').
Proof.
  intros Hkey Hnet Hfast Hweb3 Hlegacy Hl Habi Hdefined.
  rewrite (Contract_constructs env cfg w l o (VAbi es)) by done.
  rewrite Hlegacy.
  set (c := length (heap w)).
  assert (Hlc : l <> c).
  { apply lookup_lt_Some in Hl. unfold c. lia. }
  destruct (loop_completes
              (key_reducer true (VRef l) (VAbi es) (VRef c))
              (fun w0 => heap w0 !! l = Some o /\ is_Some (heap w0 !! c))
              (props o).*1) with (w := cloning env w o)
    as (w' & Hloop).
  - intros k w0 Hin [Hl0 [oc Hc0]].
    destruct (assoc_own_key k (props o) Hin) as [vk Hk].
    destruct (legacy_key_completes w0 l c o oc k vk es Hl0 Hc0 Hlc Hk)
      as (w1 & Hstep).
    { intros m Hm. by eapply Hdefined. }
    exists w1. split; [exact Hstep|].
    eapply legacy_key_invariant; [done|done| |exact Hstep]. eauto.
  - unfold cloning. cbn [heap set_heap]. split.
    + by apply lookup_app_l_Some.
    + eexists. by apply list_lookup_middle.
  - exists w'. by erewrite bind_Ok by exact Hloop.
Qed.

(** *** The wrapper of a legacy method *)

(** X14. On the legacy path, for an own key that names an ABI entry and
    holds a method with a [getData] of its own, the wrapped descriptor, a
    new object, holds under that key a new function with three members:
    [call] and [sendTransaction] are new functions, [getData] is the very
    [getData] of the original method. The three functions are three
    different objects, none of which the heap held before the call: so
    none is the original method, the descriptor or its wrapped copy.
    Calling the function hands the original method, the first ABI entry of
    that name and the arguments to the legacy invocation primitive; calling
    [call] and [sendTransaction] runs the asynchronous functions of lines
    281-325 on the original method and that entry. *)
Theorem Contract_wraps_legacy_method
    env cfg w l o wrapped w' es k m lv ov g :
  heap w !! l = Some o ->
  NoDup (props o).*1 ->
  mobileDevice (state w) && negb (truthy (mobileBlocked cfg)) = false ->
  Contract env cfg (VRef l) w = (Ok wrapped, w') ->
  legacyWeb3 (state (configured env w)) = true ->
  resolve_abi (VRef l) (heap w) = Ok (VAbi es) ->
  assoc k (props o) = Some (VRef lv) ->
  find (names_key k) es = Some m ->
  heap w !! lv = Some ov ->
  assoc "getData" (props ov) = Some g ->
  exists f fc fs,
    wrapped = VRef (length (heap w)) /\
    length (heap w) < f /\ f < fc /\ fc < fs /\
    lv < length (heap w) /\
    get_member wrapped k w' = (Ok (VRef f), w') /\
    get_member (VRef f) "call" w' = (Ok (VRef fc), w') /\
    get_member (VRef f) "sendTransaction" w' = (Ok (VRef fs), w') /\
    get_member (VRef f) "getData" w' = (Ok g, w') /\
    (forall args,
       call env (VRef f) args w'
       = call_collab_value env legacyMethod
           [VRef lv; VAbi [m]; VArr args] w') /\
    (forall args,
       call env (VRef fc) args w'
       = (VPromise <$> legacy_call env (VRef lv) m args) w') /\
    (forall args,
       call env (VRef fs) args w'
       = (VPromise <$> legacy_send env (VRef lv) m args) w').
Proof.
  intros Hl Hnd Hfast Hrun Hlegacy Habi Hk Hfind Hlv Hg.
  destruct (Contract_returned env cfg w l o wrapped w' Hl Hfast Hrun)
    as (Hkey & Hnet & Hweb3 & _).
  rewrite (Contract_constructs env cfg w l o (VAbi es)) in Hrun by done.
  rewrite Hlegacy in Hrun.
  apply bind_Ok_inv in Hrun as ([] & wl & Hloop & Hret).
  injection Hret as <- <-.
  set (c := length (heap w)) in *.
  set (body := key_reducer true (VRef l) (VAbi es) (VRef c)) in *.
  assert (Hlc : l < c) by (by eapply lookup_lt_Some).
  assert (Hlvc : lv < c) by (by eapply lookup_lt_Some).
  assert (Hne : l <> c) by lia.
  set (w0 := cloning env w o) in *.
  assert (Hl0 : heap w0 !! l = Some o).
  { unfold w0, cloning. cbn [heap set_heap]. by rewrite lookup_app_l. }
  assert (Hlv0 : heap w0 !! lv = Some ov).
  { unfold w0, cloning. cbn [heap set_heap]. by rewrite lookup_app_l. }
  assert (Hc0 : heap w0 !! c
                = Some {| proto := proto o; props := []; code := None |}).
  { unfold w0, cloning. cbn [heap set_heap]. by apply list_lookup_middle. }
  assert (Hlen0 : length (heap w0) = S c).
  { unfold w0, cloning. cbn [heap set_heap]. rewrite length_app. simpl.
    unfold c. lia. }
  (* the keys before [k], the key [k], the keys after it *)
  destruct (list_elem_of_split (props o).*1 k) as (pre & post & Hkeys);
    [by eapply assoc_Some_key|].
  assert (Hown : forall k0, k0 ∈ (props o).*1 -> is_Some (assoc k0 (props o)))
    by (intros k0; apply assoc_own_key).
  rewrite Hkeys in Hloop, Hnd, Hown.
  rewrite for_each_app in Hloop.
  apply bind_Ok_inv in Hloop as ([] & w1 & Hpre & Hloop).
  simpl in Hloop.
  apply bind_Ok_inv in Hloop as ([] & w2 & Hstep & Hpost).
  assert (Hbody : forall w oc k vk w',
     heap w !! l = Some o -> heap w !! c = Some oc ->
     assoc k (props o) = Some vk ->
     body k w = (Ok tt, w') ->
     writes_only c w w' /\
     exists x, heap w' !! c = Some (with_prop k x oc)).
  { intros wa oc ka vka wb H1 H2 H3 H4.
    exact (key_reducer_writes true (VAbi es) wa l c o oc ka vka wb
             H1 H2 Hne H3 H4). }
  (* up to [k] *)
  destruct (key_loop_shape body l c o pre Hne Hbody w0 _ w1 Hl0 Hc0)
    as ([Hlen1 Hold1] & oc1 & Hc1 & _ & _ & Hkeys1 & _); [| |done|].
  { intros k0 Hin. apply Hown. apply elem_of_app. by left. }
  { simpl. by apply NoDup_app in Hnd as (? & _ & _). }
  simpl in Hkeys1.
  assert (Hl1 : heap w1 !! l = Some o) by (rewrite Hold1; [done|lia|lia]).
  assert (Hlv1 : heap w1 !! lv = Some ov) by (rewrite Hold1; [done|lia|lia]).
  (* at [k] *)
  destruct (legacy_key_wraps w1 l c o oc1 k lv ov g es m
              Hl1 Hc1 Hne Hk Hfind Hlv1 ltac:(lia) Hg)
    as (w2' & Hstep' & Hw2 & Hc2 & Hwrap).
  unfold body in Hstep. cbn [key_reducer] in Hstep.
  rewrite Hstep' in Hstep. injection Hstep as ->.
  assert (Hl2 : heap w2 !! l = Some o).
  { destruct Hw2 as [_ Hold2]. rewrite Hold2; [done| |done].
    by eapply lookup_lt_Some. }
  (* after [k] *)
  assert (Hkpre : (k ∉ pre) /\ (k ∉ post)).
  { apply NoDup_app in Hnd as (_ & Hdisj & Hnd').
    apply NoDup_cons in Hnd' as [? _]. split; [|done].
    intros Hin. apply (Hdisj k Hin). by left. }
  destruct (key_loop_shape body l c o post Hne Hbody w2 _ wl Hl2 Hc2)
    as (Hwl & ocl & Hcl & _ & _ & _ & Hother); [| |done|].
  { intros k0 Hin. apply Hown. apply elem_of_app. right. by right. }
  { simpl. rewrite assoc_set_keys, Hkeys1.
    rewrite decide_False by tauto. by rewrite <- app_assoc. }
  apply (legacy_wrapper_frame c w2 wl) in Hwrap; [|done].
  destruct Hwrap as (fo & fc & fs & occ & os & Hf & Hfcode & Hcall & Hfc
                        & Hfccode & Hsend & Hfs & Hfscode & HgetData
                        & Hcf & Hffc & Hfcfs).
  exists (length (heap w1)), fc, fs.
  split; [reflexivity|]. do 4 (split; [done|]).
  split; [|split; [|split; [|split; [|split; [|split]]]]].
  - eapply get_member_own; [exact Hcl|].
    rewrite Hother by tauto. simpl. apply assoc_set_same.
  - by eapply get_member_own.
  - by eapply get_member_own.
  - by eapply get_member_own.
  - intros args. by eapply call_legacy_fn.
  - intros args. by eapply call_legacy_call.
  - intros args. by eapply call_legacy_send.
Qed.

(** ** [Contract] on the modern path *)

Lemma handle_for_frame c w w' mm n method e :
  (forall j, j < length (heap w) -> j <> c -> heap w' !! j = heap w !! j) ->
  handle_for c w mm n method e -> handle_for c w' mm n method e.
Proof.
  intros Hold (om & f & fo & Hmm & Hcode & Hn & Hf & Hfo & ? & ?).
  exists om, f, fo.
  rewrite !Hold by (first [by eapply lookup_lt_Some | lia]). done.
Qed.

Section ModernMethods.

Context (h0 : list obj) (c l lm : nat) (o omm : obj) (n : string)
  (mv : value).
Context (Hc0 : c = length h0) (Hl0 : h0 !! l = Some o)
  (Hm : assoc "methods" (props o) = Some (VRef lm))
  (Hlm : h0 !! lm = Some omm)
  (Hmv : assoc n (props omm) = Some mv).

(** The loop of [abi.reduce] with a method mapping that is an object: it
    never throws, and the handle it leaves under [n] is the one of the last
    entry named [n], capturing what the mapping holds under [n]. *)
Lemma methods_loop_last mm entries :
  c < mm ->
  forall w,
    keeps h0 w ->
    (exists om, heap w !! mm = Some om /\ code om = None) ->
    exists w',
      for_each entries (method_entry (VRef l) (VRef mm)) w = (Ok tt, w') /\
      (forall j, j < length (heap w) -> j <> mm ->
                 heap w' !! j = heap w !! j) /\
      (exists om, heap w' !! mm = Some om /\ code om = None) /\
      forall e,
        last_named n entries = Some e \/
        (last_named n entries = None /\ handle_for c w mm n mv e) ->
        handle_for c w' mm n mv e.
Proof.
  intros Hcm.
  assert (Hl0' : l < length h0) by (by eapply lookup_lt_Some).
  assert (Hlm' : lm < length h0) by (by eapply lookup_lt_Some).
  induction entries as [|e0 entries IH]; intros w Hkeep (om & Hmm & Hcode).
  - exists w. simpl. split; [done|]. split; [done|]. split; [eauto|].
    intros e [?|[_ ?]]; done.
  - assert (Hl : heap w !! l = Some o) by (by rewrite Hkeep).
    assert (Hlmw : heap w !! lm = Some omm) by (by rewrite Hkeep).
    simpl for_each.
    erewrite bind_Ok by (by eapply method_entry_runs).
    set (f := length (heap w)).
    set (captured := lookup_chain _ _ _ _).
    set (w1 := set_heap _ w).
    assert (Hmmf : mm < f) by (by eapply lookup_lt_Some).
    assert (Hlen : length (heap w1) = S f).
    { unfold w1. simpl. by rewrite length_alter, length_app, Nat.add_1_r. }
    assert (Hold : forall j, j < f -> j <> mm -> heap w1 !! j = heap w !! j).
    { intros j Hj Hjm. unfold w1. simpl.
      rewrite list_lookup_alter_ne by done. by apply lookup_app_l. }
    assert (Hmm1 : heap w1 !! mm
                   = Some (with_prop (key_of (abi_name e0)) (VRef f) om)).
    { unfold w1. simpl. rewrite list_lookup_alter_eq.
      by rewrite lookup_app_l, Hmm by done. }
    assert (Hf1 : heap w1 !! f
                  = Some {| proto := VNull; props := [];
                            code := Some (CModernFn captured e0) |}).
    { unfold w1. simpl. rewrite list_lookup_alter_ne by lia.
      by apply list_lookup_middle. }
    assert (Hkeep1 : keeps h0 w1).
    { intros j Hj. rewrite Hold by lia. by apply Hkeep. }
    destruct (IH w1 Hkeep1) as (w' & Hrun & Hold' & Hmm' & Hhandle).
    { eexists. split; [exact Hmm1|done]. }
    exists w'. split; [exact Hrun|]. split.
    { intros j Hj Hjm. rewrite Hold' by lia. by apply Hold. }
    split; [done|].
    intros e Hcase. apply Hhandle.
    simpl last_named in Hcase.
    destruct (last_named n entries) as [x|] eqn:Hlast.
    { left. destruct Hcase as [?|[? _]]; done. }
    right. split; [done|].
    destruct (String.eqb (key_of (abi_name e0)) n) eqn:E.
    + apply String.eqb_eq in E.
      destruct Hcase as [[= <-]|[? _]]; [|done].
      eexists _, f, _. split; [exact Hmm1|]. split; [done|]. split.
      { simpl. rewrite E. apply assoc_set_same. }
      split; [exact Hf1|]. split; [|lia].
      simpl. do 2 f_equal. unfold captured. rewrite E.
      by eapply lookup_chain_own.
    + destruct Hcase as [?|[_ Hh]]; [done|].
      assert (Hne : key_of (abi_name e0) <> n).
      { intros Heq. by rewrite Heq, String.eqb_refl in E. }
      destruct Hh as (om' & f' & fo & Hom & _ & Hn & Hf' & Hfo & ? & ?).
      rewrite Hmm in Hom. injection Hom as <-.
      assert (f' <> mm).
      { intros ->. rewrite Hmm in Hf'. injection Hf' as <-. congruence. }
      exists (with_prop (key_of (abi_name e0)) (VRef f) om), f', fo.
      split; [done|]. split; [done|]. split.
      { simpl. by rewrite assoc_set_other. }
      split; [|done].
      rewrite Hold; [done| |done]. by eapply lookup_lt_Some.
Qed.

Context (es : list ABIEntry) (e : ABIEntry) (He : last_named n es = Some e).

(** The ["methods"] key: the rebuilt mapping has the handle under [n]. *)
Lemma modern_methods_wrapped w :
  keeps h0 w ->
  (exists oc, heap w !! c = Some oc) ->
  exists w',
    modern_key (VRef l) (VAbi es) (VRef c) "methods" w = (Ok tt, w') /\
    keeps h0 w' /\
    (exists oc, heap w' !! c = Some oc) /\
    wrapped_method c n mv e w'.
Proof.
  intros Hkeep (oc & Hc).
  assert (Hcw : c < length (heap w)) by (by eapply lookup_lt_Some).
  set (mm := length (heap w)).
  set (w1 := set_heap (heap w ++ [plain_object []]) w).
  assert (Hkeep1 : keeps h0 w1).
  { intros j Hj. unfold w1. rewrite heap_allocated by lia.
    by apply Hkeep. }
  destruct (methods_loop_last mm es Hcw w1 Hkeep1)
    as (w2 & Hrun & Hold & (om & Hmm2 & Hcode) & Hhandle).
  { eexists. split; [apply heap_allocated_new|done]. }
  assert (Hlen1 : length (heap w1) = S mm).
  { unfold w1. simpl. by rewrite length_app, Nat.add_1_r. }
  assert (Hc2 : heap w2 !! c = Some oc).
  { rewrite Hold by (unfold mm; lia). unfold w1.
    by rewrite heap_allocated. }
  eexists. split.
  { unfold modern_key. simpl.
    erewrite bind_Ok by apply alloc_runs.
    erewrite bind_Ok by exact Hrun.
    apply set_member_runs. }
  assert (Hh : handle_for c w2 mm n mv e) by (apply Hhandle; by left).
  split; [|split].
  - intros j Hj. simpl. rewrite list_lookup_alter_ne by lia.
    rewrite Hold by (unfold mm in *; lia). by apply Hkeep1.
  - simpl. rewrite list_lookup_alter_eq, Hc2. eauto.
  - exists (with_prop "methods" (VRef mm) oc), mm. split.
    { simpl. by rewrite list_lookup_alter_eq, Hc2. }
    split; [apply assoc_set_same|].
    eapply (handle_for_frame c w2); [|done].
    intros j Hj Hjc. simpl. by rewrite list_lookup_alter_ne.
Qed.

(** Any other key is copied; a handle already on the clone stays. *)
Lemma modern_other_wrapped k w :
  k <> "methods" ->
  keeps h0 w ->
  (exists oc, heap w !! c = Some oc) ->
  exists w',
    modern_key (VRef l) (VAbi es) (VRef c) k w = (Ok tt, w') /\
    keeps h0 w' /\
    (exists oc, heap w' !! c = Some oc) /\
    (wrapped_method c n mv e w -> wrapped_method c n mv e w').
Proof.
  intros Hk Hkeep (oc & Hc).
  assert (E : String.eqb k "methods" = false).
  { destruct (String.eqb k "methods") eqn:E; [|done].
    by apply String.eqb_eq in E. }
  eexists. split.
  { unfold modern_key. rewrite E. simpl.
    erewrite bind_Ok by reflexivity. apply set_member_runs. }
  split; [|split].
  - intros j Hj. simpl. rewrite list_lookup_alter_ne by lia.
    by apply Hkeep.
  - simpl. rewrite list_lookup_alter_eq, Hc. eauto.
  - intros (oc' & mm & Hc' & Hmeth & Hh).
    rewrite Hc in Hc'. injection Hc' as <-.
    eexists _, mm. split.
    { simpl. by rewrite list_lookup_alter_eq, Hc. }
    split; [simpl; by rewrite assoc_set_other|].
    eapply (handle_for_frame c w); [|done].
    intros j Hj Hjc. simpl. by rewrite list_lookup_alter_ne.
Qed.

Lemma modern_loop_wrapped keys w :
  keeps h0 w ->
  (exists oc, heap w !! c = Some oc) ->
  exists w',
    for_each keys (key_reducer false (VRef l) (VAbi es) (VRef c)) w
    = (Ok tt, w') /\
    keeps h0 w' /\
    (exists oc, heap w' !! c = Some oc) /\
    ("methods" ∈ keys \/ wrapped_method c n mv e w ->
     wrapped_method c n mv e w').
Proof.
  revert w. induction keys as [|k keys IH]; intros w Hkeep Hc.
  - exists w. simpl. repeat split; [done..|].
    intros [Hin|?]; [|done]. by apply elem_of_nil in Hin.
  - simpl. unfold key_reducer at 1.
    destruct (decide (k = "methods")) as [->|Hk].
    + destruct (modern_methods_wrapped w Hkeep Hc)
        as (w1 & Hrun & Hkeep1 & Hc1 & Hh1).
      destruct (IH w1 Hkeep1 Hc1) as (w' & Hrest & Hkeep' & Hc' & Hh').
      exists w'. split; [by erewrite bind_Ok by exact Hrun|].
      do 2 (split; [done|]). intros _. apply Hh'. by right.
    + destruct (modern_other_wrapped k w Hk Hkeep Hc)
        as (w1 & Hrun & Hkeep1 & Hc1 & Hh1).
      destruct (IH w1 Hkeep1 Hc1) as (w' & Hrest & Hkeep' & Hc' & Hh').
      exists w'. split; [by erewrite bind_Ok by exact Hrun|].
      do 2 (split; [done|]).
      intros [[?|Hin]%elem_of_cons|Hh]; [done|apply Hh'; by left|].
      apply Hh'. right. by apply Hh1.
Qed.

End ModernMethods.

Lemma call_modern_fn env w f fo method e args :
  heap w !! f = Some fo ->
  code fo = Some (CModernFn method e) ->
  call env (VRef f) args w
  = call_collab_value env modernMethod [method; VAbi [e]; VArr args] w.
Proof.
  intros Hf Hcode. unfold call.
  erewrite bind_Ok by (apply callee_function; by eexists _, _).
  mstep. rewrite Hf. simpl. by rewrite Hcode.
Qed.

(** X15. On the modern path, for a descriptor whose [methods] key holds an
    object, the construction completes, and for every name under which
    that object has a method and the ABI has an entry, the wrapped
    descriptor has under [methods] a function for that name. Calling it
    hands the original method, the last ABI entry of that name (a later
    entry overwrites an earlier one) and the arguments to the modern
    invocation primitive. *)
Theorem Contract_wraps_modern_method env cfg w l o lm omm es n mv e :
  validApiKey (state w) = true ->
  supportedNetwork (state w) = true ->
  mobileDevice (state w) && negb (truthy (mobileBlocked cfg)) = false ->
  truthy (web3Instance (state w)) = true \/ window_web3 w = true ->
  legacyWeb3 (state (configured env w)) = false ->
  heap w !! l = Some o ->
  resolve_abi (VRef l) (heap w) = Ok (VAbi es) ->
  assoc "methods" (props o) = Some (VRef lm) ->
  heap w !! lm = Some omm ->
  assoc n (props omm) = Some mv ->
  last_named n es = Some e ->
  exists w' mm f,
    Contract env cfg (VRef l) w = (Ok (VRef (length (heap w))), w') /\
    get_member (VRef (length (heap w))) "methods" w' = (Ok (VRef mm), w') /\
    get_member (VRef mm) n w' = (Ok (VRef f), w') /\
    forall args,
      call env (VRef f) args w'
      = call_collab_value env modernMethod [mv; VAbi [e]; VArr args] w'.
Proof.
  intros Hkey Hnet Hfast Hweb3 Hmodern Hl Habi Hm Hlm Hmv He.
  rewrite (Contract_constructs env cfg w l o (VAbi es)) by done.
  rewrite Hmodern.
  assert (Hkeep : keeps (heap w) (cloning env w o)).
  { intros j Hj. unfold cloning. cbn [heap set_heap]. by apply lookup_app_l. }
  destruct (modern_loop_wrapped (heap w) _ l lm o omm n mv eq_refl Hl Hm Hlm
              Hmv es e He (props o).*1 (cloning env w o) Hkeep)
    as (w' & Hloop & _ & _ & Hh).
  { unfold cloning. cbn [heap set_heap]. eexists. by apply list_lookup_middle. }
  destruct Hh as (oc & mm & Hc & Hmeth & om & f & fo & Hmm & _ & Hn & Hf
                     & Hfo & _ & _).
  { left. by eapply assoc_Some_key. }
  exists w', mm, f.
  split; [by erewrite bind_Ok by exact Hloop|].
  split; [by eapply get_member_own|].
  split; [by eapply get_member_own|].
  intros args. by eapply call_modern_fn.
Qed.

(** ** The asynchronous functions of a legacy wrapper *)

(** ** The legacy [.call] *)

Lemma legacy_call_resume_query env w p callback methodABI args outcome :
  returning_callback env w callback ->
  exists t serialized,
    legacy_call_resume env p callback methodABI args outcome w
    = (Ok tt, run_settles p [Fulfilled VUndef] (extend t w)) /\
    events t = [query_event methodABI args serialized].
Proof.
  intros [->|(cb & -> & Hcb & Hret)].
  - destruct outcome as [r|e].
    + eexists _, _. split; [by apply legacy_call_resume_no_callback|done].
    + eexists _, _.
      split; [by apply legacy_call_resume_failure_no_callback|done].
  - destruct outcome as [r|e].
    + destruct (truthy r) eqn:Hr.
      * destruct (Hret [VNull; r]) as [v Hv].
        eexists _, _.
        split; [by eapply legacy_call_resume_success|done].
      * eexists _, _. split; [by apply legacy_call_resume_falsy|done].
    + destruct (Hret [e]) as [v Hv].
      destruct (truthy v) eqn:Htv.
      * destruct (Hret [VNull; v]) as [v' Hv'].
        eexists _, _.
        split; [by eapply legacy_call_resume_failure_leak|done].
      * eexists _, _.
        split; [by eapply legacy_call_resume_failure|done].
Qed.

(** X16. On the legacy [.call] path, when the read-only call succeeds with
    a truthy result and the completion callback throws, the [contractQuery]
    event is not emitted and the promise of the call is rejected with what
    the callback threw. *)
Theorem call_callback_throw_suppresses_query
    env w p cb methodABI args r x :
  truthy r = true ->
  is_function w cb ->
  fun_result env cb [VNull; r] = Throw x ->
  legacy_call_resume env p (VRef cb) methodABI args (Fulfilled r) w
  = (Ok tt, run_settles p [Rejected x] (extend [OCall cb [VNull; r]] w)).
Proof.
  intros Hr Hcb Hret. unfold legacy_call_resume, try_catch.
  mstep. rewrite Hr. cbn [when].
  erewrite bind_Throw.
  2:{ erewrite bind_Throw; [reflexivity|].
      rewrite and_call_function by done. by rewrite Hret. }
  apply reject_runs.
Qed.

Lemma returning_callback_heap env w w' callback :
  (exists rest, heap w' = heap w ++ rest) ->
  returning_callback env w callback -> returning_callback env w' callback.
Proof.
  intros Hh [->|(cb & -> & Hcb & Hret)]; [by left|].
  right. exists cb. split; [done|]. split; [|done].
  by eapply is_function_prefix.
Qed.

Lemma promisify_runs w l :
  is_function w l ->
  promisify (VRef l) w
  = (Ok (VRef (length (heap w))),
     set_heap (heap w ++ [ {| proto := VNull; props := [];
                              code := Some (CPromisified (VRef l)) |} ]) w).
Proof.
  intros Hl. unfold promisify.
  erewrite bind_Ok by (by apply callee_function). reflexivity.
Qed.

(** [.call] up to its [await], for a method whose read-only primitive is a
    function. *)
Lemma legacy_call_starts env w lm om lc m allArgs :
  heap w !! lm = Some om ->
  assoc "call" (props om) = Some (VRef lc) ->
  is_function w lc ->
  let sp := split env allArgs (length (abi_inputs m)) in
  legacy_call env (VRef lm) m allArgs w
  = (Ok (length (promises w)),
     {| state := state w; window_web3 := window_web3 w;
        heap := heap w ++ [ {| proto := VNull; props := [];
                               code := Some (CPromisified (VRef lc)) |} ];
        promises := promises w ++ [Pending];
        tasks := tasks w ++ [TLegacyCall (length (promises w))
                               (sp_callback sp) m (sp_args sp)];
        trace := trace w ++ [OCall lc (sp_args sp ++
                                       [sp_txObject sp;
                                        sp_defaultBlock sp])] |}).
Proof.
  intros Hlm Hcall Hlc sp. unfold legacy_call, async.
  mstep. unfold try_catch.
  set (w1 := set_promises _ w).
  assert (Hlc1 : is_function w1 lc) by exact Hlc.
  erewrite bind_Ok.
  2:{ erewrite bind_Ok by (by eapply (get_member_own w1)).
      erewrite bind_Ok by (by apply promisify_runs).
      erewrite bind_Ok.
      2:{ apply callee_function. eapply is_function_prefix; [|exact Hlc1].
          eexists. reflexivity. }
      mstep. reflexivity. }
  reflexivity.
Qed.

(** X17. A legacy [.call] on a method whose read-only primitive is a
    function, with no completion callback or one that returns: the
    primitive is called with the positional arguments followed by the
    transaction object and the default block; whatever the outcome of that
    call, exactly one [contractQuery] event is emitted, carrying the method
    name and the positional arguments, and the promise of the call is
    fulfilled with [undefined], never rejected. *)
Theorem call_queries_once env w lm om lc m allArgs outcome :
  heap w !! lm = Some om ->
  assoc "call" (props om) = Some (VRef lc) ->
  is_function w lc ->
  let sp := split env allArgs (length (abi_inputs m)) in
  let p := length (promises w) in
  returning_callback env w (sp_callback sp) ->
  exists t serialized w',
    wrapper_run env (legacy_call env (VRef lm) m allArgs) w outcome
    = (Ok p, w') /\
    promise_state p w' = Some (Settled (Fulfilled VUndef)) /\
    trace w' = trace w ++
               OCall lc (sp_args sp ++ [sp_txObject sp; sp_defaultBlock sp])
               :: t ++ [OSettle p (Fulfilled VUndef)] /\
    events t = [query_event m (sp_args sp) serialized].
Proof.
  intros Hlm Hcall Hlc sp p Hcb. unfold wrapper_run.
  rewrite (legacy_call_starts env w lm om lc m allArgs Hlm Hcall Hlc).
  fold sp p. unfold deliver. mstep. cbn [tasks].
  rewrite lookup_last_task. mstep. cbn [resume].
  set (w1 := set_tasks _ _).
  destruct (legacy_call_resume_query env w1 p (sp_callback sp) m (sp_args sp)
              outcome) as (t & serialized & Hres & Hev).
  { eapply returning_callback_heap; [|exact Hcb]. eexists. reflexivity. }
  exists t, serialized. rewrite Hres. cbn [snd].
  eexists. split; [reflexivity|].
  split.
  - apply run_settles_first. unfold w1. cbn. apply lookup_last_promise.
  - split; [|done]. rewrite run_settles_trace. unfold w1. cbn.
    by rewrite <- !app_assoc.
Qed.

Lemma call_queries_once_witness :
  let sp := split quiet [VStr "0xa11ce"; VNum 5; VRef 5]
              (length (abi_inputs transfer_abi)) in
  exists t serialized w',
    wrapper_run quiet
      (legacy_call quiet (VRef 0) transfer_abi
         [VStr "0xa11ce"; VNum 5; VRef 5])
      (provider_world true) (Fulfilled (VBool true))
    = (Ok 0, w') /\
    promise_state 0 w' = Some (Settled (Fulfilled VUndef)) /\
    trace w' = trace (provider_world true) ++
               OCall 1 (sp_args sp ++ [sp_txObject sp; sp_defaultBlock sp])
               :: t ++ [OSettle 0 (Fulfilled VUndef)] /\
    events t = [query_event transfer_abi (sp_args sp) serialized].
Proof.
  apply (call_queries_once quiet (provider_world true) 0
           {| proto := VNull;
              props := [("call", VRef 1); ("sendTransaction", VRef 2);
                        ("getData", VRef 3)];
              code := Some CExt |}
           1 transfer_abi [VStr "0xa11ce"; VNum 5; VRef 5]
           (Fulfilled (VBool true))).
  - reflexivity.
  - reflexivity.
  - eexists _, _. split; reflexivity.
  - right. exists 5. split; [reflexivity|]. split.
    + eexists _, _. split; reflexivity.
    + intros args'. by exists VUndef.
Defined.

(** ** The legacy [.sendTransaction] *)

(** [.sendTransaction] up to its [await], for a method whose state-changing
    primitive is a function. *)
Lemma legacy_send_starts env w lm om ls m allArgs :
  heap w !! lm = Some om ->
  assoc "sendTransaction" (props om) = Some (VRef ls) ->
  is_function w ls ->
  let sp := split env allArgs (length (abi_inputs m)) in
  legacy_send env (VRef lm) m allArgs w
  = (Ok (length (promises w)),
     {| state := state w; window_web3 := window_web3 w;
        heap := heap w ++ [ {| proto := VNull; props := [];
                               code := Some (CPromisified (VRef ls)) |};
                            send_context m (sp_args sp) ];
        promises := promises w ++ [Pending];
        tasks := tasks w ++ [TLegacySend (length (promises w))
                               (sp_callback sp)];
        trace := trace w ++
                 [OCollab sendTransaction
                    [VStr "activeContract"; sp_txObject sp;
                     VRef (length (heap w)); sp_callback sp; VRef lm;
                     VRef (length (heap w) + 1)]] |}).
Proof.
  intros Hlm Hsend Hls sp. unfold legacy_send, async.
  mstep. unfold try_catch.
  set (w1 := set_promises _ w).
  assert (Hls1 : is_function w1 ls) by exact Hls.
  erewrite bind_Ok.
  2:{ erewrite bind_Ok by (by eapply (get_member_own w1)).
      erewrite bind_Ok by (by apply promisify_runs).
      erewrite bind_Ok by apply alloc_runs.
      mstep. reflexivity. }
  cbn. rewrite <- app_assoc, length_app, Nat.add_1_r.
  replace (length (heap w) + 1) with (S (length (heap w))) by lia.
  reflexivity.
Qed.

Lemma legacy_send_resume_runs env w p callback outcome :
  returning_callback env w callback ->
  legacy_send_resume env p callback outcome w
  = (Ok tt,
     run_settles p [Fulfilled VUndef]
       (extend (match outcome with
                | Fulfilled _ => []
                | Rejected e => absorbed callback e
                end) w)).
Proof.
  intros Hcb. unfold legacy_send_resume, try_catch.
  assert (Hnil : extend [] w = w).
  { destruct w. unfold extend. simpl. by rewrite app_nil_r. }
  destruct outcome as [r|e].
  - mstep. by rewrite resolve_runs, Hnil.
  - destruct Hcb as [->|(cb & -> & Hcb & Hret)].
    + erewrite bind_Ok by (simpl; by apply and_call_falsy).
      cbn [absorbed]. by rewrite resolve_runs, Hnil.
    + destruct (Hret [e]) as [v Hv].
      erewrite bind_Ok
        by (simpl; rewrite and_call_function by done; by rewrite Hv).
      by rewrite resolve_runs.
Qed.

(** X19. A legacy [.sendTransaction] on a method whose state-changing
    primitive is a function, with no completion callback or one that
    returns: the submission collaborator is called once, tagged
    [activeContract], with the transaction object, the promisified
    primitive, the callback, the raw method and the context
    [{methodName, parameters}]. A failure of the submission is handed to
    the callback, if there is one, and goes no further: whether the
    submission succeeds or fails, the promise of the wrapper is fulfilled
    with [undefined]. *)
Theorem sendTransaction_absorbs_failure env w lm om ls m allArgs outcome :
  heap w !! lm = Some om ->
  assoc "sendTransaction" (props om) = Some (VRef ls) ->
  is_function w ls ->
  let sp := split env allArgs (length (abi_inputs m)) in
  let p := length (promises w) in
  let n := length (heap w) in
  returning_callback env w (sp_callback sp) ->
  exists w',
    wrapper_run env (legacy_send env (VRef lm) m allArgs) w outcome
    = (Ok p, w') /\
    promise_state p w' = Some (Settled (Fulfilled VUndef)) /\
    trace w' = trace w ++
               [OCollab sendTransaction
                  [VStr "activeContract"; sp_txObject sp; VRef n;
                   sp_callback sp; VRef lm; VRef (n + 1)]] ++
               match outcome with
               | Fulfilled _ => []
               | Rejected e => absorbed (sp_callback sp) e
               end ++ [OSettle p (Fulfilled VUndef)] /\
    heap w' = heap w ++ [ {| proto := VNull; props := [];
                             code := Some (CPromisified (VRef ls)) |};
                          send_context m (sp_args sp) ].
Proof.
  intros Hlm Hsend Hls sp p n Hcb. unfold wrapper_run.
  rewrite (legacy_send_starts env w lm om ls m allArgs Hlm Hsend Hls).
  fold sp p n. unfold deliver. mstep. cbn [tasks].
  rewrite lookup_last_task. mstep. cbn [resume].
  set (w1 := set_tasks _ _).
  rewrite (legacy_send_resume_runs env w1 p (sp_callback sp) outcome).
  2:{ eapply returning_callback_heap; [|exact Hcb]. eexists. reflexivity. }
  cbn [snd]. eexists. split; [reflexivity|]. split; [|split].
  - apply run_settles_first. unfold w1. cbn. apply lookup_last_promise.
  - rewrite run_settles_trace. unfold w1. cbn.
    by rewrite <- !app_assoc.
  - reflexivity.
Qed.

Lemma sendTransaction_absorbs_failure_witness :
  let allArgs := [VStr "0xa11ce"; VNum 5; VRef 5] in
  let sp := split quiet allArgs (length (abi_inputs transfer_abi)) in
  let w := provider_world true in
  let outcome := Rejected (TypeError "rejected by the user") in
  exists w',
    wrapper_run quiet (legacy_send quiet (VRef 0) transfer_abi allArgs) w
      outcome
    = (Ok 0, w') /\
    promise_state 0 w' = Some (Settled (Fulfilled VUndef)) /\
    trace w' = trace w ++
               [OCollab sendTransaction
                  [VStr "activeContract"; sp_txObject sp; VRef 9;
                   sp_callback sp; VRef 0; VRef (9 + 1)]] ++
               match outcome with
               | Fulfilled _ => []
               | Rejected e => absorbed (sp_callback sp) e
               end ++ [OSettle 0 (Fulfilled VUndef)] /\
    heap w' = heap w ++ [ {| proto := VNull; props := [];
                             code := Some (CPromisified (VRef 2)) |};
                          send_context transfer_abi (sp_args sp) ].
Proof.
  apply (sendTransaction_absorbs_failure quiet (provider_world true) 0
           {| proto := VNull;
              props := [("call", VRef 1); ("sendTransaction", VRef 2);
                        ("getData", VRef 3)];
              code := Some CExt |}
           2 transfer_abi [VStr "0xa11ce"; VNum 5; VRef 5]
           (Rejected (TypeError "rejected by the user"))).
  - reflexivity.
  - reflexivity.
  - eexists _, _. split; reflexivity.
  - right. exists 5. split; [reflexivity|]. split.
    + eexists _, _. split; reflexivity.
    + intros args'. by exists VUndef.
Defined.

(** ** [Transaction] *)

(** X20. With an API key that is not valid, or on a network that is not
    supported, [Transaction] does not throw: it returns a promise already
    rejected with the error of that gate (the API key is looked at first),
    tagged [initFail]. No provider is configured, nothing is submitted and
    the callback is not called. *)
Theorem Transaction_stops_at_gate env w txObject callback :
  validApiKey (state w) = false \/ supportedNetwork (state w) = false ->
  let p := length (promises w) in
  exists w',
    Transaction env txObject callback w = (Ok (VPromise p), w') /\
    promise_state p w' = Some (Settled (Rejected (gate_error (state w)))) /\
    trace w' = trace w ++ [OSettle p (Rejected (gate_error (state w)))] /\
    state w' = state w /\ heap w' = heap w /\ tasks w' = tasks w.
Proof.
  intros Hgate p. unfold Transaction, gate_error. mstep.
  assert (Hsettled : forall e,
    promise_state p
      (run_settles p [Rejected e] (set_promises (promises w ++ [Pending]) w))
    = Some (Settled (Rejected e))).
  { intros e. apply run_settles_first. apply lookup_last_promise. }
  destruct (validApiKey (state w)) eqn:Hkey; cbn [negb]; cbv iota.
  - destruct Hgate as [?|Hnet]; [done|].
    mstep. rewrite Hnet. cbn [negb]. cbv iota.
    eexists. split; [reflexivity|]. split; [apply Hsettled|]. done.
  - eexists. split; [reflexivity|]. split; [apply Hsettled|]. done.
Qed.

Lemma Transaction_stops_at_gate_witness :
  let w := mobile_world false false in
  exists w',
    Transaction quiet (VStr "tx") (VRef 5) w = (Ok (VPromise 0), w') /\
    promise_state 0 w' = Some (Settled (Rejected (gate_error (state w)))) /\
    trace w' = trace w ++ [OSettle 0 (Rejected (gate_error (state w)))] /\
    state w' = state w /\ heap w' = heap w /\ tasks w' = tasks w.
Proof.
  apply (Transaction_stops_at_gate quiet (mobile_world false false)
           (VStr "tx") (VRef 5)).
  by left.
Defined.

Lemma configure_runs env w :
  when (negb (truthy (web3Instance (state w))))
    (call_collab env configureWeb3 []) w
  = (Ok tt, configured env w).
Proof. unfold configured. by destruct (truthy (web3Instance (state w))). Qed.

(** X21. Past the gates, on a mobile device that the configuration in
    Environment State does not block, [Transaction] calls the send
    primitive of the provider with the transaction object alone and returns
    (or throws) what that call returns (or throws): no promise of its own,
    no submission collaborator, and the callback is never called. *)
Theorem Transaction_mobile_fast_path env w txObject callback l :
  validApiKey (state w) = true ->
  supportedNetwork (state w) = true ->
  on_fast_path (state (configured env w)) ->
  eth_sendTransaction (configured env w) = (Ok (VRef l), configured env w) ->
  is_function w l ->
  Transaction env txObject callback w
  = (fun_result env l [txObject],
     extend [OCall l [txObject]] (configured env w)).
Proof.
  intros Hkey Hnet (Hmobile & cfg & Hcfg & Hblocked) Hsend Hl.
  unfold Transaction.
  mstep. rewrite Hkey. cbn [negb]. cbv iota.
  mstep. rewrite Hnet. cbn [negb]. cbv iota.
  mstep. erewrite bind_Ok by apply configure_runs.
  mstep. rewrite Hmobile.
  erewrite bind_Ok.
  2:{ erewrite bind_Ok by (by apply read_config_runs). reflexivity. }
  rewrite Hblocked. cbn [negb]. cbv iota.
  erewrite bind_Ok by exact Hsend.
  apply call_function_runs.
  destruct (configured_frame env w) as (_ & _ & Hh).
  destruct Hl as (o & c & Ho & Hc). exists o, c. by rewrite Hh.
Qed.

Lemma and_call_promises env fn args w :
  promises (and_call env fn args w).2 = promises w.
Proof.
  unfold and_call. destruct (truthy fn); [|reflexivity].
  unfold call_function, callee.
  destruct fn as [| | | | | |l| | | | |]; try reflexivity.
  unfold mbind, M_bind. simpl.
  destruct (heap w !! l) as [[? ? [c|]]|]; reflexivity.
Qed.

(** Whatever the callback is or does, the promise of [Transaction] ends as
    the submission did. *)
Lemma Transaction_resume_mirrors env w p callback outcome :
  promise_state p w = Some Pending ->
  promise_state p (Transaction_resume env p callback outcome w).2
  = Some (Settled outcome).
Proof.
  intros Hp. destruct outcome as [r|e].
  - rewrite Transaction_resume_fulfilled. by apply run_settles_first.
  - unfold Transaction_resume, try_catch, await_catch.
    set (w1 := run_settles p [Rejected e] w).
    assert (H1 : promise_state p w1 = Some (Settled (Rejected e)))
      by (by apply run_settles_first).
    pose proof (and_call_promises env callback [e] w1) as Hps.
    destruct (and_call env callback [e] w1) as [[v|x] w2] eqn:Hcall.
    + assert (Hm : (reject p e;; and_call env callback [e];; mret VUndef) w
                   = (Ok VUndef, w2)).
      { erewrite bind_Ok by apply reject_runs. fold w1.
        erewrite bind_Ok by exact Hcall. reflexivity. }
      erewrite bind_Ok by exact Hm.
      rewrite resolve_runs. cbn [snd] in *.
      unfold promise_state in *. simpl. rewrite Hps.
      by rewrite (settle_in_settled _ _ _ _ H1).
    + assert (Hm : (reject p e;; and_call env callback [e];; mret VUndef) w
                   = (Throw x, w2)).
      { erewrite bind_Ok by apply reject_runs. fold w1.
        erewrite bind_Throw by exact Hcall. reflexivity. }
      erewrite bind_Throw by exact Hm.
      cbn [snd] in *. unfold mret, M_ret. cbn [snd].
      unfold promise_state in *. by rewrite Hps.
Qed.

(** X22. Off the mobile fast path, the promise [Transaction] returns ends
    as the submission does, whatever the callback is or does: fulfilled
    with the result of a submission that succeeds, rejected with the error
    of one that fails, also when the callback is no function or throws. *)
Theorem Transaction_promise_mirrors_submission
    env w txObject callback send l s activity outcome :
  validApiKey (state w) = true ->
  supportedNetwork (state w) = true ->
  off_fast_path (state (configured env w)) ->
  eth_sendTransaction (configured env w) = (Ok send, configured env w) ->
  callee send (configured env w) = (Ok l, configured env w) ->
  let p := length (promises w) in
  exists w',
    transaction_run env w txObject callback s activity outcome
    = (Ok (VPromise p), w') /\
    promise_state p w' = Some (Settled outcome).
Proof.
  intros Hkey Hnet Hfast Hsend Hfn p.
  destruct (configured_frame env w) as (Hps & Hts & Hh).
  unfold transaction_run.
  rewrite (Transaction_dispatches env w txObject callback send l) by done.
  eexists. split; [reflexivity|].
  unfold deliver. mstep.
  cbn [tasks set_state extend set_trace dispatched].
  rewrite Hts, Hps, lookup_last_task. cbn [resume].
  erewrite bind_Ok by reflexivity.
  apply Transaction_resume_mirrors.
  unfold promise_state. cbn. rewrite Hps. apply lookup_last_promise.
Qed.

Lemma Transaction_promise_mirrors_submission_witness :
  exists w',
    transaction_run quiet (provider_world false) (VStr "tx")
      (VStr "not a function") (desktop_state false) []
      (Rejected (TypeError "rejected by the user"))
    = (Ok (VPromise 0), w') /\
    promise_state 0 w'
    = Some (Settled (Rejected (TypeError "rejected by the user"))).
Proof.
  apply (Transaction_promise_mirrors_submission quiet (provider_world false)
           (VStr "tx") (VStr "not a function") (VRef 8) 8
           (desktop_state false) []
           (Rejected (TypeError "rejected by the user")));
    try reflexivity.
  left. reflexivity.
Defined.

(** X23. Past the gates, when there is still no provider instance after
    [configureWeb3], [Transaction] throws to its caller instead of
    returning a rejected promise: reading the send primitive off the
    missing instance fails with an error that carries no event code. *)
Theorem Transaction_throws_without_provider env w txObject callback :
  validApiKey (state w) = true ->
  supportedNetwork (state w) = true ->
  web3Instance (state (configured env w)) = VUndef ->
  exists e,
    Transaction env txObject callback w = (Throw e, configured env w) /\
    eventCode_of e = None.
Proof.
  intros Hkey Hnet Hinst. unfold Transaction.
  mstep. rewrite Hkey. cbn [negb]. cbv iota.
  mstep. rewrite Hnet. cbn [negb]. cbv iota.
  mstep. erewrite bind_Ok by apply configure_runs.
  mstep.
  assert (Hsend : eth_sendTransaction (configured env w)
                  = (Throw (TypeError "Cannot read property 'eth' of undefined"),
                     configured env w)).
  { unfold eth_sendTransaction. mstep. by rewrite Hinst. }
  assert (Hslow :
    (s ← gets state;
     sendMethod ← (if legacyWeb3 s
                   then send ← eth_sendTransaction; promisify send
                   else eth_sendTransaction);
     p ← new_promise;
     emit (OCollab sendTransaction
             [VStr "activeTransaction"; txObject; sendMethod; callback]);;
     suspend (TTransaction p callback);;
     mret (VPromise p)) (configured env w)
    = (Throw (TypeError "Cannot read property 'eth' of undefined"),
       configured env w)).
  { mstep. destruct (legacyWeb3 _).
    - erewrite bind_Throw
        by (erewrite bind_Throw by exact Hsend; reflexivity).
      reflexivity.
    - erewrite bind_Throw by exact Hsend. reflexivity. }
  destruct (mobileDevice (state (configured env w))) eqn:Hmobile.
  - unfold read_config.
    destruct (config (state (configured env w))) as [cfg|] eqn:Hcfg.
    + erewrite bind_Ok.
      2:{ erewrite bind_Ok.
          2:{ mstep. rewrite Hcfg. reflexivity. }
          reflexivity. }
      destruct (negb (truthy (mobileBlocked cfg))).
      * erewrite bind_Throw by exact Hsend. eauto.
      * cbv iota. rewrite Hslow. eauto.
    + erewrite bind_Throw.
      2:{ erewrite bind_Throw; [reflexivity|].
          mstep. rewrite Hcfg. reflexivity. }
      eauto.
  - mstep. cbv iota. rewrite Hslow. eauto.
Qed.

(** ** Two more edges: no interface, and the silence of the headless flow *)

(** X25. Past the gates and off the mobile fast path, a descriptor that
    carries no interface ([abi] and [_jsonInterface] falsy, and no method
    model under [abiModel]) makes [Contract] throw before it allocates
    anything; the error carries no event code. *)
Theorem Contract_needs_interface env cfg w l a j m :
  validApiKey (state w) = true ->
  supportedNetwork (state w) = true ->
  mobileDevice (state w) && negb (truthy (mobileBlocked cfg)) = false ->
  truthy (web3Instance (state w)) = true \/ window_web3 w = true ->
  read (heap w) (VRef l) "abi" = Ok a -> truthy a = false ->
  read (heap w) (VRef l) "_jsonInterface" = Ok j -> truthy j = false ->
  read (heap w) (VRef l) "abiModel" = Ok m ->
  (forall methods, m <> VAbiModel methods) ->
  exists e,
    Contract env cfg (VRef l) w = (Throw e, configured env w) /\
    eventCode_of e = None.
Proof.
  intros Hkey Hnet Hfast Hweb3 Ha Hta Hj Htj Hm Hnot. unfold Contract.
  mstep. rewrite Hkey. cbn [negb]. cbv iota.
  mstep. rewrite Hnet. cbn [negb]. cbv iota.
  mstep. rewrite Hfast. mstep.
  assert (Hconf : when (negb (truthy (web3Instance (state w))))
                    (has_web3 ← gets window_web3;
                     if (has_web3 : bool) then call_collab env configureWeb3 []
                     else throw (tagged_error
                                   "A web3 instance is needed to decorate contract"
                                   "initFail")) w
                  = (Ok tt, configured env w)).
  { unfold configured.
    destruct (truthy (web3Instance (state w))) eqn:E; [done|].
    destruct Hweb3 as [?|Hwin]; [done|]. simpl. mstep. by rewrite Hwin. }
  erewrite bind_Ok by exact Hconf. mstep.
  eexists. split.
  - erewrite bind_Throw; [reflexivity|].
    unfold reads. rewrite configured_heap. unfold resolve_abi.
    rewrite Ha. cbn [mbind Result_bind]. rewrite Hta.
    rewrite Hj. cbn [mbind Result_bind]. rewrite Htj.
    rewrite Hm. cbn [mbind Result_bind].
    destruct m; try reflexivity. by destruct (Hnot methods).
  - reflexivity.
Qed.

Lemma Contract_needs_interface_witness :
  exists e,
    Contract quiet (config_of false false) (VRef 9) bare_world
    = (Throw e, configured quiet bare_world) /\
    eventCode_of e = None.
Proof.
  apply (Contract_needs_interface quiet (config_of false false) bare_world 9
           VUndef VUndef VUndef); try reflexivity.
  - by left.
  - discriminate.
Defined.

(** X26. In headless mode, whatever the environment check and the six
    readiness checks find, all [onboard] does after calling the environment
    check is to call the capabilities of its own promise: it emits no
    notification, calls no other collaborator, and leaves Environment
    State, the heap and the suspended continuations as they were. *)
Theorem headless_only_settles env w cfg s outcome :
  config (state w) = Some cfg ->
  truthy (headlessMode cfg) = true ->
  exists p w' l,
    headless_run env w s outcome = (Ok p, w') /\
    trace w' = trace w ++
               OCollab checkUserEnvironment [] :: (OSettle p <$> l) /\
    state w' = s /\ heap w' = heap w /\ tasks w' = tasks w.
Proof.
  intros Hcfg Hheadless.
  eexists _, _, _. split; [by eapply headless_run_runs|].
  split; [|done].
  rewrite run_settles_trace. simpl. by rewrite <- app_assoc.
Qed.

Lemma headless_only_settles_witness :
  exists p w' l,
    headless_run quiet (world_of three_failures) three_failures
      (Fulfilled VUndef) = (Ok p, w') /\
    trace w' = trace (world_of three_failures)
               ++ OCollab checkUserEnvironment [] :: (OSettle p <$> l) /\
    state w' = three_failures /\
    heap w' = heap (world_of three_failures) /\
    tasks w' = tasks (world_of three_failures).
Proof.
  apply (headless_only_settles quiet (world_of three_failures)
           (config_of false true) three_failures (Fulfilled VUndef));
    reflexivity.
Defined.

(** ** Concrete runs of the further properties *)

Lemma headless_environment_failure_reported_witness :
  exists p w',
    headless_run quiet (world_of only_mobile) only_mobile
      (Rejected (TypeError "environment check failed")) = (Ok p, w') /\
    promise_state p w'
    = Some (Settled (Rejected (TypeError "environment check failed"))).
Proof.
  apply (headless_environment_failure_reported quiet (world_of only_mobile)
           (config_of false true) only_mobile
           (TypeError "environment check failed")); reflexivity.
Defined.

Lemma Contract_needs_provider_witness :
  Contract quiet (config_of false false) (VRef 4)
    (world_of (ready_state (config_of false false)))
  = (Throw (tagged_error "A web3 instance is needed to decorate contract"
              "initFail"),
     world_of (ready_state (config_of false false))).
Proof.
  apply (Contract_needs_provider quiet (config_of false false) (VRef 4)
           (world_of (ready_state (config_of false false)))); reflexivity.
Defined.

Lemma Contract_legacy_throws_on_undefined_method_witness :
  exists e w',
    Contract quiet (config_of false false) (VRef 9) broken_world
    = (Throw e, w') /\ eventCode_of e = None.
Proof.
  apply (Contract_legacy_throws_on_undefined_method quiet
           (config_of false false) broken_world 9
           (plain_object [("abi", VAbi [transfer_abi]); ("transfer", VUndef)])
           [transfer_abi] "transfer" VUndef transfer_abi);
    try reflexivity.
  - by left.
  - by left.
Defined.

Lemma Contract_legacy_completes_witness :
  exists w',
    Contract quiet (config_of false false) (VRef 4) (provider_world true)
    = (Ok (VRef (length (heap (provider_world true)))), w').
Proof.
  apply (Contract_legacy_completes quiet (config_of false false)
           (provider_world true) 4
           (plain_object [("abi", VAbi [transfer_abi]);
                          ("address", VStr "0xc0ffee");
                          ("transfer", VRef 0)])
           [transfer_abi]); try reflexivity.
  - by left.
  - intros k vk m Hk _. unfold plain_object in Hk. cbn [props assoc] in Hk.
    repeat match type of Hk with
           | (if ?b then _ else _) = _ =>
               destruct b; [injection Hk as <-; split; discriminate|]
           end.
    discriminate.
Defined.

Lemma Contract_wraps_legacy_method_witness :
  let w' := (Contract quiet (config_of false false) (VRef 4)
               (provider_world true)).2 in
  exists f fc fs,
    VRef 9 = VRef (length (heap (provider_world true))) /\
    length (heap (provider_world true)) < f /\ f < fc /\ fc < fs /\
    0 < length (heap (provider_world true)) /\
    get_member (VRef 9) "transfer" w' = (Ok (VRef f), w') /\
    get_member (VRef f) "call" w' = (Ok (VRef fc), w') /\
    get_member (VRef f) "sendTransaction" w' = (Ok (VRef fs), w') /\
    get_member (VRef f) "getData" w' = (Ok (VRef 3), w') /\
    (forall args,
       call quiet (VRef f) args w'
       = call_collab_value quiet legacyMethod
           [VRef 0; VAbi [transfer_abi]; VArr args] w') /\
    (forall args,
       call quiet (VRef fc) args w'
       = (VPromise <$> legacy_call quiet (VRef 0) transfer_abi args) w') /\
    (forall args,
       call quiet (VRef fs) args w'
       = (VPromise <$> legacy_send quiet (VRef 0) transfer_abi args) w').
Proof.
  apply (Contract_wraps_legacy_method quiet (config_of false false)
           (provider_world true) 4
           (plain_object [("abi", VAbi [transfer_abi]);
                          ("address", VStr "0xc0ffee");
                          ("transfer", VRef 0)])
           (VRef 9) _ [transfer_abi] "transfer" transfer_abi 0
           {| proto := VNull;
              props := [("call", VRef 1); ("sendTransaction", VRef 2);
                        ("getData", VRef 3)];
              code := Some CExt |}
           (VRef 3)).
  - reflexivity.
  - simpl. repeat (apply NoDup_cons; split;
                   [repeat (apply not_elem_of_cons; split; [discriminate|]);
                    apply not_elem_of_nil|]).
    apply NoDup_nil_2.
  - reflexivity.
  - vm_compute. reflexivity.
  - reflexivity.
  - reflexivity.
  - reflexivity.
  - reflexivity.
  - reflexivity.
  - reflexivity.
Defined.

Lemma Contract_wraps_modern_method_witness :
  exists w' mm f,
    Contract quiet (config_of false false) (VRef 10) modern_method_world
    = (Ok (VRef (length (heap modern_method_world))), w') /\
    get_member (VRef (length (heap modern_method_world))) "methods" w'
    = (Ok (VRef mm), w') /\
    get_member (VRef mm) "transfer" w' = (Ok (VRef f), w') /\
    forall args,
      call quiet (VRef f) args w'
      = call_collab_value quiet modernMethod
          [VRef 0; VAbi [transfer_abi]; VArr args] w'.
Proof.
  eapply (Contract_wraps_modern_method quiet (config_of false false)
            modern_method_world 10 _ 9 _ [transfer_abi] "transfer" (VRef 0)
            transfer_abi); try reflexivity.
  by left.
Defined.

Lemma call_callback_throw_suppresses_query_witness :
  legacy_call_resume throwing 0 (VRef 5) transfer_abi
    [VStr "0xa11ce"; VNum 5] (Fulfilled (VBool true)) (provider_world true)
  = (Ok tt,
     run_settles 0 [Rejected (TypeError "callback failed")]
       (extend [OCall 5 [VNull; VBool true]] (provider_world true))).
Proof.
  apply (call_callback_throw_suppresses_query throwing (provider_world true)
           0 5 transfer_abi [VStr "0xa11ce"; VNum 5] (VBool true)
           (TypeError "callback failed")); try reflexivity.
  eexists _, _. split; reflexivity.
Defined.

Lemma Transaction_mobile_fast_path_witness :
  Transaction quiet (VStr "tx") (VRef 5) (mobile_world true false)
  = (fun_result quiet 8 [VStr "tx"],
     extend [OCall 8 [VStr "tx"]]
       (configured quiet (mobile_world true false))).
Proof.
  apply (Transaction_mobile_fast_path quiet (mobile_world true false)
           (VStr "tx") (VRef 5) 8); try reflexivity.
  - split; [reflexivity|]. eexists. split; reflexivity.
  - eexists _, _. split; reflexivity.
Defined.

Lemma Transaction_throws_without_provider_witness :
  exists e,
    Transaction quiet (VStr "tx") (VRef 5)
      (world_of (ready_state (config_of false false)))
    = (Throw e,
       configured quiet (world_of (ready_state (config_of false false)))) /\
    eventCode_of e = None.
Proof.
  apply (Transaction_throws_without_provider quiet
           (world_of (ready_state (config_of false false)))
           (VStr "tx") (VRef 5)); reflexivity.
Defined.
